(** * Unicycler assembly graph: a shallow embedding of [lib/assembly_graph.py]

    The development follows the Python module function by function.

    - Python exceptions are values of [exception]; a function that can raise
      returns a [result].
    - Python [int] is [Z]; Python [float] depths are exact rationals [Q]
      (rounding is not modelled), and [float('inf')] is the extra point [Inf]
      of [xreal].
    - Python [str] is [string]; a one-character string is an [ascii].
    - [forward_links], [reverse_links] and [copy_depths] are dictionaries
      whose iteration order reaches no result of the modelled code: they are
      [gmap]s.
      The two functions that build them walk a dictionary of links and append
      in that order; there the order is a parameter, [iterkeys].
    - [segments] and [paths] are dictionaries the code iterates over: they are
      association lists, iterated in list order; a new key goes last. Python 2
      leaves the order open, and a statement about every graph covers every
      order of its dictionaries. *)

From Stdlib Require Import ZArith QArith Qabs String Ascii List Lia.
From Stdlib Require Import DecimalString DecimalZ DecimalPos.
From stdpp Require Import gmap list fin_maps sorting.

Local Open Scope Z_scope.

(** ** Exceptions *)

Inductive exception :=
| KeyError
| IndexError
| ValueError
| ZeroDivisionError
| OutOfFuel.   (* not a Python exception: a bounded loop of the model ran out *)

Inductive result (A : Type) :=
| Ok (a : A)
| Raise (e : exception).
Arguments Ok {A} a.
Arguments Raise {A} e.

Definition bind {A B} (m : result A) (f : A -> result B) : result B :=
  match m with
  | Ok a => f a
  | Raise e => Raise e
  end.

Declare Scope py_scope.
Delimit Scope py_scope with py.
Notation "'let*' x ':=' m 'in' k" := (bind m (fun x => k))
  (at level 10, x pattern, m at level 100, k at level 200) : py_scope.
Local Open Scope py_scope.

(** [d[k]] on a dictionary lookup result. *)
Definition getitem {A} (o : option A) : result A :=
  match o with
  | Some a => Ok a
  | None => Raise KeyError
  end.

Fixpoint mapM {A B} (f : A -> result B) (l : list A) : result (list B) :=
  match l with
  | [] => Ok []
  | x :: l' =>
      let* y := f x in
      let* ys := mapM f l' in
      Ok (y :: ys)
  end.

Fixpoint filterM {A} (f : A -> result bool) (l : list A) : result (list A) :=
  match l with
  | [] => Ok []
  | x :: l' =>
      let* b := f x in
      let* r := filterM f l' in
      Ok (if b then x :: r else r)
  end.

(** ** Python sequence primitives *)

Section Slices.
Context {A : Type}.

(** [l[:j]] for any integer [j]. *)
Definition slice_to (l : list A) (j : Z) : list A :=
  if j <? 0 then take (Z.to_nat (Z.of_nat (length l) + j)) l
  else take (Z.to_nat j) l.

(** [l[i]] for any integer [i]; out of range is an [IndexError]. *)
Definition index (l : list A) (i : Z) : result A :=
  let i' := if i <? 0 then Z.of_nat (length l) + i else i in
  if i' <? 0 then Raise IndexError
  else match l !! Z.to_nat i' with
       | Some a => Ok a
       | None => Raise IndexError
       end.
End Slices.

Definition chars : string -> list ascii := list_ascii_of_string.
Definition str_of : list ascii -> string := string_of_list_ascii.

Definition str_slice_to (s : string) (j : Z) : string :=
  str_of (slice_to (chars s) j).

(** [s.find(c)] for a one-character [c]: first position, or [-1]. *)
Fixpoint find_from (c : ascii) (l : list ascii) (i : Z) : Z :=
  match l with
  | [] => -1
  | a :: l' => if Ascii.eqb a c then i else find_from c l' (i + 1)
  end.

Definition str_find (s : string) (c : ascii) : Z := find_from c (chars s) 0.

(** [str(n)] and [int(s)] on decimal numerals. [int] takes an optional sign
    followed by at least one digit; surrounding white space, which Python
    also accepts, is rejected here. *)
Definition py_str (n : Z) : string := NilZero.string_of_int (Z.to_int n).

Definition py_int (s : string) : result Z :=
  match s with
  | EmptyString => Raise ValueError
  | String a s' =>
      if Ascii.eqb a "+" then
        match NilZero.uint_of_string s' with
        | Some d => Ok (Z.of_uint d)
        | None => Raise ValueError
        end
      else
        match NilZero.int_of_string s with
        | Some d => Ok (Z.of_int d)
        | None => Raise ValueError
        end
  end.

(** ** Sequence utilities *)

Definition forward_bases : string := "ATGCatgcRYSWKMryswkmBDHVbdhvNn.-?".
Definition reverse_bases : string := "TACGtacgYRSWMKyrswmkVHDBvhdbNn.-?N".

(** [reverse[forward.find(base)]]: a base outside [forward] gives index [-1],
    the trailing ['N'] of [reverse]. The index is always in range, so the
    [IndexError] branch is dead and the default is never used. *)
Definition complement_base (base : ascii) : ascii :=
  match index (chars reverse_bases) (str_find forward_bases base) with
  | Ok c => c
  | Raise _ => "N"%char
  end.

Definition reverse_complement (seq : string) : string :=
  str_of (map complement_base (rev (chars seq))).

(** ** Signed segment numbers *)

Definition get_sign_string (num : Z) : string :=
  if 0 <=? num then "+" else "-".

Definition int_to_signed_string (num : Z) : string :=
  String.append (py_str (Z.abs num)) (get_sign_string num).

Definition signed_string_to_int (signed_str : string) : result Z :=
  let* sign := index (chars signed_str) (-1) in
  let* num := py_int (str_slice_to signed_str (-1)) in
  if Ascii.eqb sign "+" then Ok num else Ok (- num).

(** ** Numbers *)

Definition Qltb (x y : Q) : bool := negb (Qle_bool y x).

(** The extended reals: [float('inf')] is [Inf]. *)
Inductive xreal :=
| Fin (q : Q)
| Inf.

Definition xlt (a b : xreal) : bool :=
  match a, b with
  | Fin x, Fin y => Qltb x y
  | Fin _, Inf => true
  | Inf, _ => false
  end.

Definition get_error (source target : Q) : xreal :=
  if Qltb 0 target then Fin (Qabs (source - target) / target) else Inf.

(** [sum(l)]: Python adds from the left, starting at [0]. *)
Definition Qsum (l : list Q) : Q := fold_left Qplus l 0%Q.

(** [sorted(l, key=...)] and [sorted(l, reverse=True)] are stable; so is
    insertion from the right. *)
Section Sorting.
Context {A : Type} (leb : A -> A -> bool).

Fixpoint insert_sorted (x : A) (l : list A) : list A :=
  match l with
  | [] => [x]
  | y :: l' => if leb x y then x :: l else y :: insert_sorted x l'
  end.

Definition sorted (l : list A) : list A := foldr insert_sorted [] l.
End Sorting.

Definition sorted_descending (l : list Q) : list Q :=
  sorted (fun x y => Qle_bool y x) l.

(** ** Dictionaries with an iteration order *)

Section Dict.
Context {K V : Type} `{EqDecision K}.

Fixpoint dict_get (d : list (K * V)) (k : K) : option V :=
  match d with
  | [] => None
  | (k', v) :: d' => if decide (k' = k) then Some v else dict_get d' k
  end.

(** [d[k] = v]: the value of a present key is replaced where it stands, a
    new key goes last. *)
Fixpoint dict_set (d : list (K * V)) (k : K) (v : V) : list (K * V) :=
  match d with
  | [] => [(k, v)]
  | (k', v') :: d' =>
      if decide (k' = k) then (k, v) :: d' else (k', v') :: dict_set d' k v
  end.

Definition dict_keys (d : list (K * V)) : list K := map fst d.
Definition dict_values (d : list (K * V)) : list V := map snd d.
End Dict.

(** ** Segments *)

Record Segment := mkSegment {
  number : Z;
  depth : Q;
  forward_sequence : string;
  reverse_sequence : string
}.

(** [Segment(number, depth, sequence, positive)] *)
Definition Segment_init (number : Z) (depth : Q) (sequence : string)
    (positive : bool) : Segment :=
  if positive then mkSegment number depth sequence ""
  else mkSegment number depth "" sequence.

Definition is_empty (s : string) : bool :=
  match s with EmptyString => true | _ => false end.

Definition build_other_sequence_if_necessary (seg : Segment) : Segment :=
  let fwd :=
    if is_empty (forward_sequence seg)
    then reverse_complement (reverse_sequence seg)
    else forward_sequence seg in
  let rev :=
    if is_empty (reverse_sequence seg)
    then reverse_complement fwd
    else reverse_sequence seg in
  mkSegment (number seg) (depth seg) fwd rev.

Definition get_length (seg : Segment) : Z :=
  Z.of_nat (String.length (forward_sequence seg)).

Definition get_length_no_overlap (seg : Segment) (overlap : Z) : Z :=
  Z.of_nat (String.length (forward_sequence seg)) - overlap.

(** ** Link dictionaries *)

Definition remove_nums_from_links (links : gmap Z (list Z))
    (nums_to_remove : list Z) : gmap Z (list Z) :=
  map_imap (fun n_1 n_2 =>
    if bool_decide (Z.abs n_1 ∈ nums_to_remove) then None
    else match filter (fun x => Z.abs x ∉ nums_to_remove) n_2 with
         | [] => None
         | l => Some l
         end) links.

(** The two steps that [add_link] repeats four times:
    [if k not in links: links[k] = []] and
    [if x not in links[k]: links[k].append(x)]. *)
Definition append_if_missing (links : gmap Z (list Z)) (k x : Z)
    : gmap Z (list Z) :=
  let links1 :=
    match links !! k with
    | None => <[k := []]> links
    | Some _ => links
    end in
  let l := default [] (links1 !! k) in
  if bool_decide (x ∈ l) then links1 else <[k := l ++ [x]]> links1.

(** ** Path lists *)

Fixpoint insert_num_in_list (lst : list Z) (val_1 val_2 insert_val : Z)
    : list Z :=
  match lst with
  | val :: ((next_val :: _) as rest) =>
      val ::
      (if (val =? val_1) && (next_val =? val_2) then [insert_val] else [])
      ++ insert_num_in_list rest val_1 val_2 insert_val
  | _ => lst
  end.

Fixpoint starts_with (pattern lst : list Z) : bool :=
  match pattern, lst with
  | [], _ => true
  | p :: pattern', x :: lst' => (x =? p) && starts_with pattern' lst'
  | _ :: _, [] => false
  end.

(** One pass of the inner [for] loop of [find_replace_in_list]: the first
    position where [pattern] starts is replaced. [pattern] is not empty at
    either call site. *)
Fixpoint replace_first (lst pattern : list Z) (replacement : Z)
    : option (list Z) :=
  match lst with
  | [] => None
  | x :: lst' =>
      if starts_with pattern lst
      then Some (replacement :: drop (length pattern) lst)
      else option_map (cons x) (replace_first lst' pattern replacement)
  end.

Fixpoint find_replace_loop (fuel : nat) (lst pattern : list Z)
    (replacement : Z) : result (list Z) :=
  match replace_first lst pattern replacement with
  | None => Ok lst
  | Some lst' =>
      match fuel with
      | O => Raise OutOfFuel
      | S fuel' => find_replace_loop fuel' lst' pattern replacement
      end
  end.

(** With the two-element patterns of the call sites every replacement
    shortens the list, so [length lst] rounds are enough. *)
Definition find_replace_in_list (lst pattern : list Z) (replacement : Z)
    : result (list Z) :=
  find_replace_loop (length lst) lst pattern replacement.

(** The pieces of [path] between the occurrences of [seg]. *)
Fixpoint split_at (path : list Z) (seg : Z) : list (list Z) :=
  match path with
  | [] => [[]]
  | x :: path' =>
      if x =? seg then [] :: split_at path' seg
      else match split_at path' seg with
           | piece :: pieces => (x :: piece) :: pieces
           | [] => [[x]]
           end
  end.

Definition split_path (path : list Z) (seg : Z) : list (list Z) :=
  filter (fun x => (1 < length x)%nat) (split_at path seg).

Definition split_path_multiple (path : list Z) (segs : list Z)
    : list (list Z) :=
  fold_left (fun path_parts seg =>
               concat (map (fun part => split_path part seg) path_parts))
            segs [path].

(** ** The assembly graph *)

Record AssemblyGraph := mkGraph {
  segments : list (Z * Segment);       (* unsigned number -> segment *)
  forward_links : gmap Z (list Z);     (* signed number -> signed numbers *)
  reverse_links : gmap Z (list Z);
  copy_depths : gmap Z (list Q);       (* unsigned number -> copy depths *)
  paths : list (string * list Z);      (* path name -> signed numbers *)
  overlap : Z
}.

Definition set_segments (g : AssemblyGraph) (s : list (Z * Segment)) :=
  mkGraph s (forward_links g) (reverse_links g) (copy_depths g) (paths g)
          (overlap g).

Definition set_forward_links (g : AssemblyGraph) (l : gmap Z (list Z)) :=
  mkGraph (segments g) l (reverse_links g) (copy_depths g) (paths g)
          (overlap g).

Definition set_reverse_links (g : AssemblyGraph) (l : gmap Z (list Z)) :=
  mkGraph (segments g) (forward_links g) l (copy_depths g) (paths g)
          (overlap g).

Definition set_copy_depths (g : AssemblyGraph) (c : gmap Z (list Q)) :=
  mkGraph (segments g) (forward_links g) (reverse_links g) c (paths g)
          (overlap g).

Definition set_paths (g : AssemblyGraph) (p : list (string * list Z)) :=
  mkGraph (segments g) (forward_links g) (reverse_links g) (copy_depths g) p
          (overlap g).

(** [self.segments[num]] *)
Definition segment_at (g : AssemblyGraph) (num : Z) : result Segment :=
  getitem (dict_get (segments g) num).

Definition sorted_by_depth (l : list Segment) : list Segment :=
  sorted (fun x y => Qle_bool (depth x) (depth y)) l.

Fixpoint median_scan (overlap halfway_length length_so_far : Z)
    (l : list Segment) : Q :=
  match l with
  | [] => 0%Q
  | segment :: l' =>
      let length_so_far :=
        length_so_far + get_length_no_overlap segment overlap in
      if halfway_length <=? length_so_far then depth segment
      else median_scan overlap halfway_length length_so_far l'
  end.

(** [segment_list] is [[]] for the default [None]: both are falsy. *)
Definition get_median_read_depth (g : AssemblyGraph)
    (segment_list : list Segment) : Q :=
  let segment_list :=
    match segment_list with
    | [] => dict_values (segments g)
    | _ => segment_list
    end in
  let sorted_segments := sorted_by_depth segment_list in
  let total_length :=
    fold_left (fun t segment => t + get_length_no_overlap segment (overlap g))
              sorted_segments 0 in
  let halfway_length := total_length / 2 in
  median_scan (overlap g) halfway_length 0 sorted_segments.

Definition dead_end_count (g : AssemblyGraph) (segment : Segment) : Z :=
  let segment_num := number segment in
  (match forward_links g !! segment_num with Some _ => 0 | None => 1 end) +
  (match reverse_links g !! segment_num with Some _ => 0 | None => 1 end).

Definition path_touches (nums path_nums : list Z) : bool :=
  existsb (fun n => bool_decide (n ∈ path_nums)) nums.

Definition remove_segments (g : AssemblyGraph) (nums_to_remove : list Z)
    : AssemblyGraph :=
  let new_segments :=
    filter (fun ns => fst ns ∉ nums_to_remove) (segments g) in
  let neg_nums_to_remove := map Z.opp nums_to_remove in
  let new_paths :=
    filter (fun np => ¬ Is_true (path_touches nums_to_remove (snd np) ||
                                 path_touches neg_nums_to_remove (snd np)))
           (paths g) in
  mkGraph new_segments
          (remove_nums_from_links (forward_links g) nums_to_remove)
          (remove_nums_from_links (reverse_links g) nums_to_remove)
          (copy_depths g) new_paths (overlap g).

Definition add_link (g : AssemblyGraph) (start end_ : Z) : AssemblyGraph :=
  let fwd := append_if_missing (forward_links g) start end_ in
  let rev := append_if_missing (reverse_links g) end_ start in
  let rev := append_if_missing rev (- start) (- end_) in
  let fwd := append_if_missing fwd (- end_) (- start) in
  set_reverse_links (set_forward_links g fwd) rev.

Definition get_seq_from_signed_seg_num (g : AssemblyGraph) (signed_num : Z)
    : result string :=
  if 0 <? signed_num then
    let* seg := segment_at g signed_num in Ok (forward_sequence seg)
  else
    let* seg := segment_at g (- signed_num) in Ok (reverse_sequence seg).

(** [max(self.segments.iterkeys()) + 1]; [max] of nothing is a
    [ValueError]. *)
Definition get_next_available_seg_number (g : AssemblyGraph) : result Z :=
  match dict_keys (segments g) with
  | [] => Raise ValueError
  | k :: ks => Ok (fold_left Z.max ks k + 1)
  end.

Definition all_segments_below_depth (g : AssemblyGraph)
    (segment_nums : list Z) (cutoff : Q) : result bool :=
  (fix go (nums : list Z) : result bool :=
     match nums with
     | [] => Ok true
     | num :: nums' =>
         let* seg := segment_at g num in
         if Qltb (depth seg) cutoff then go nums' else Ok false
     end) segment_nums.

Definition lead_exclusively_to (g : AssemblyGraph)
    (segment_num_1 segment_num_2 : Z) : bool :=
  match forward_links g !! segment_num_1 with
  | None => false
  | Some l => bool_decide (l = [segment_num_2])
  end.

Definition lead_exclusively_from (g : AssemblyGraph)
    (segment_num_1 segment_num_2 : Z) : bool :=
  match reverse_links g !! segment_num_1 with
  | None => false
  | Some l => bool_decide (l = [segment_num_2])
  end.

Definition get_exclusive_inputs (g : AssemblyGraph) (segment_number : Z)
    : list Z :=
  match reverse_links g !! segment_number with
  | None => []
  | Some l =>
      map Z.abs
          (filter (fun x => Is_true (lead_exclusively_to g x segment_number)) l)
  end.

Definition get_exclusive_outputs (g : AssemblyGraph) (segment_number : Z)
    : list Z :=
  match forward_links g !! segment_number with
  | None => []
  | Some l =>
      map Z.abs
          (filter (fun x => Is_true (lead_exclusively_from g x segment_number))
                  l)
  end.

(** [for x in xs: if len(links[x]) == 1: return True], stopping at the first
    hit or at the first missing key. *)
Fixpoint any_single_link (links : gmap Z (list Z)) (xs : list Z)
    : result bool :=
  match xs with
  | [] => Ok false
  | x :: xs' =>
      let* l := getitem (links !! x) in
      if (length l =? 1)%nat then Ok true else any_single_link links xs'
  end.

Definition deleting_would_create_dead_end (g : AssemblyGraph)
    (segment : Segment) : result bool :=
  let* downstream_segments := getitem (forward_links g !! number segment) in
  let* hit := any_single_link (reverse_links g) downstream_segments in
  if hit then Ok true
  else
    let* upstream_segments := getitem (reverse_links g !! number segment) in
    any_single_link (forward_links g) upstream_segments.

(** ** Merging unbranching paths *)

(** The last loop of [merge_two_segments]: a path that still holds one of the
    merged segments is cut there; one piece keeps the name, several pieces
    are numbered from 1. *)
Fixpoint number_paths (new_paths : list (string * list Z))
    (path_name : string) (i : Z) (split_paths : list (list Z))
    : list (string * list Z) :=
  match split_paths with
  | [] => new_paths
  | path :: rest =>
      number_paths
        (dict_set new_paths
                  (String.append path_name (String.append "_" (py_str (i + 1))))
                  path)
        path_name (i + 1) rest
  end.

Definition split_paths_into (new_paths : list (string * list Z))
    (path_name : string) (split_paths : list (list Z))
    : list (string * list Z) :=
  match split_paths with
  | [] => new_paths
  | [path] => dict_set new_paths path_name path
  | _ => number_paths new_paths path_name 0 split_paths
  end.

Definition merge_two_segments (g : AssemblyGraph) (seg_num_1 seg_num_2 : Z)
    : result AssemblyGraph :=
  let* seg_1 := segment_at g (Z.abs seg_num_1) in
  let* seg_2 := segment_at g (Z.abs seg_num_2) in
  let* seg_1_seq := get_seq_from_signed_seg_num g seg_num_1 in
  let* seg_2_seq := get_seq_from_signed_seg_num g seg_num_2 in
  let merged_forward_seq :=
    String.append (str_slice_to seg_1_seq (- overlap g)) seg_2_seq in
  let merged_reverse_seq := reverse_complement merged_forward_seq in
  (* The merged sequence depth is the weighted mean of the two components. *)
  let seg_1_len := get_length seg_1 - overlap g in
  let seg_2_len := get_length seg_2 - overlap g in
  let len_sum := seg_1_len + seg_2_len in
  let mean_depth :=
    if 0 <? len_sum
    then (depth seg_1 * (inject_Z seg_1_len / inject_Z len_sum) +
          depth seg_2 * (inject_Z seg_2_len / inject_Z len_sum))%Q
    else 1%Q in
  (* Create a new merged segment using the number of whichever component
     segment is larger. *)
  let* fresh := get_next_available_seg_number g in
  let new_seg_num := if seg_1_len <? seg_2_len then Z.abs seg_num_2 else fresh in
  let new_seg :=
    mkSegment new_seg_num mean_depth merged_forward_seq merged_reverse_seq in
  (* Save some info that we'll need, and then delete the old segments. *)
  let paths_copy := paths g in
  let outgoing_links := default [] (forward_links g !! seg_num_2) in
  let incoming_links := default [] (reverse_links g !! seg_num_1) in
  let g := remove_segments g [Z.abs seg_num_1; Z.abs seg_num_2] in
  (* Add the new segment to the graph and give it the links from its source
     segments. *)
  let g := set_segments g (dict_set (segments g) new_seg_num new_seg) in
  let g := fold_left (fun g link => add_link g new_seg_num link)
                     outgoing_links g in
  let g := fold_left (fun g link => add_link g link new_seg_num)
                     incoming_links g in
  (* Merge the segments in any paths. *)
  let* paths_copy :=
    mapM (fun np =>
            let* p := find_replace_in_list (snd np) [seg_num_1; seg_num_2]
                                           new_seg_num in
            let* p := find_replace_in_list p [- seg_num_2; - seg_num_1]
                                           (- new_seg_num) in
            Ok (fst np, p))
         paths_copy in
  (* If any paths still contain the original segments, then split those
     paths into pieces, removing the original segments. *)
  let new_paths :=
    fold_left (fun new_paths np =>
                 split_paths_into new_paths (fst np)
                   (split_path_multiple (snd np)
                      [seg_num_1; seg_num_2; - seg_num_1; - seg_num_2]))
              paths_copy [] in
  Ok (set_paths g new_paths).

(** Returns the merged graph, or [None] where Python returns [False]. *)
Definition try_to_merge_two_segments (g : AssemblyGraph)
    (seg_num_1 seg_num_2 : Z) : result (option AssemblyGraph) :=
  if seg_num_1 =? seg_num_2 then Ok None
  else
    match forward_links g !! seg_num_1, reverse_links g !! seg_num_2 with
    | Some f, Some r =>
        match f, r with
        | [f0], [r0] =>
            if negb (f0 =? seg_num_2) || negb (r0 =? seg_num_1) then Ok None
            else
              let* g' := merge_two_segments g seg_num_1 seg_num_2 in
              Ok (Some g')
        | _, _ => Ok None
        end
    | _, _ => Ok None
    end.

(** The [for] loop of [merge_all_possible] over the segment numbers, up to
    the first merge. *)
Fixpoint merge_first (g : AssemblyGraph) (nums : list Z)
    : result (option AssemblyGraph) :=
  match nums with
  | [] => Ok None
  | num :: nums' =>
      let* merged :=
        match forward_links g !! num with
        | Some [next] => try_to_merge_two_segments g num next
        | _ => Ok None
        end in
      match merged with
      | Some g' => Ok (Some g')
      | None =>
          let* merged :=
            match forward_links g !! (- num) with
            | Some [next] => try_to_merge_two_segments g (- num) next
            | _ => Ok None
            end in
          match merged with
          | Some g' => Ok (Some g')
          | None => merge_first g nums'
          end
      end
  end.

Fixpoint merge_all_possible_loop (fuel : nat) (g : AssemblyGraph)
    : result AssemblyGraph :=
  let* merged := merge_first g (dict_keys (segments g)) in
  match merged with
  | None => Ok g
  | Some g' =>
      match fuel with
      | O => Raise OutOfFuel
      | S fuel' => merge_all_possible_loop fuel' g'
      end
  end.

(** The [while] loop runs again after every merge. The model allows twice as
    many merges as there are segments and gives [OutOfFuel] beyond. *)
Definition merge_all_possible (g : AssemblyGraph) : result AssemblyGraph :=
  merge_all_possible_loop (2 * length (segments g)) g.

(** ** Connected components, the depth filter and junction repair

    Python does not fix the order in which [list(a_set)] enumerates a set.
    The functions that depend on it take the enumeration as [list_of_set]:
    what is proved of them holds for every enumeration. *)

Section SetOrder.
Variable list_of_set : list Z -> list Z.

Definition get_connected_segments (g : AssemblyGraph) (segment_num : Z)
    : list Z :=
  let downstream :=
    match forward_links g !! segment_num with
    | Some downstream_segments => map Z.abs downstream_segments
    | None => []
    end in
  let upstream :=
    match reverse_links g !! segment_num with
    | Some upstream_segments => map Z.abs upstream_segments
    | None => []
    end in
  list_of_set (downstream ++ upstream).

(** [for k in connected_segments: if k not in visited: ...] *)
Definition visit (state : gset Z * list Z) (k : Z) : gset Z * list Z :=
  let '(visited, q) := state in
  if bool_decide (k ∈ visited) then (visited, q)
  else ({[k]} ∪ visited, q ++ [k]).

(** The [while q] loop; [fuel] bounds the number of segments taken from
    the queue. *)
Fixpoint component_from (fuel : nat) (g : AssemblyGraph)
    (visited : gset Z) (q component : list Z)
    : result (gset Z * list Z) :=
  match q with
  | [] => Ok (visited, component)
  | w :: q' =>
      match fuel with
      | O => Raise OutOfFuel
      | S fuel' =>
          let '(visited', q'') :=
            fold_left visit (get_connected_segments g w) (visited, q') in
          component_from fuel' g visited' q'' (component ++ [w])
      end
  end.

Definition link_count (links : gmap Z (list Z)) : nat :=
  map_fold (fun _ l n => (length l + n)%nat) O links.

(** Every number that is ever queued is a segment number or the end of a
    link, and is queued once. *)
Definition component_fuel (g : AssemblyGraph) : nat :=
  (length (segments g) + link_count (forward_links g)
   + link_count (reverse_links g))%nat.

Fixpoint components_over (g : AssemblyGraph) (nums : list Z)
    (visited : gset Z) (components : list (list Z))
    : result (list (list Z)) :=
  match nums with
  | [] => Ok components
  | v :: nums' =>
      if bool_decide (v ∈ visited) then
        components_over g nums' visited components
      else
        let* (visited', component) :=
          component_from (component_fuel g) g ({[v]} ∪ visited) [v] [] in
        components_over g nums' visited' (components ++ [component])
  end.

Definition get_connected_components (g : AssemblyGraph)
    : result (list (list Z)) :=
  components_over g (dict_keys (segments g)) ∅ [].

(** The test of [filter_by_read_depth] on one segment of a component. The
    three alternatives are tried in order and the first that holds decides:
    [deleting_would_create_dead_end] runs only when the two before it are
    false. *)
Definition is_removed (g : AssemblyGraph) (component : list Z)
    (whole_graph_cutoff component_cutoff : Q) (num : Z) : result bool :=
  let* segment := segment_at g num in
  if Qltb (depth segment) whole_graph_cutoff
     || Qltb (depth segment) component_cutoff
  then
    if 0 <? dead_end_count g segment then Ok true
    else
      let* all_below :=
        all_segments_below_depth g component whole_graph_cutoff in
      if all_below then Ok true
      else
        let* dead_end := deleting_would_create_dead_end g segment in
        Ok (negb dead_end)
  else Ok false.

(** The numbers that the loop over one component appends. *)
Definition component_removals (g : AssemblyGraph)
    (relative_depth_cutoff whole_graph_cutoff : Q) (component : list Z)
    : result (list Z) :=
  let* component_segs := mapM (segment_at g) component in
  let component_cutoff :=
    (get_median_read_depth g component_segs * relative_depth_cutoff)%Q in
  filterM (is_removed g component whole_graph_cutoff component_cutoff)
          component.

Definition segment_nums_to_remove (g : AssemblyGraph)
    (relative_depth_cutoff : Q) : result (list Z) :=
  let whole_graph_cutoff :=
    (get_median_read_depth g [] * relative_depth_cutoff)%Q in
  let* connected_components := get_connected_components g in
  let* removals :=
    mapM (component_removals g relative_depth_cutoff whole_graph_cutoff)
         connected_components in
  Ok (concat removals).

Definition filter_by_read_depth (g : AssemblyGraph)
    (relative_depth_cutoff : Q) : result AssemblyGraph :=
  let* nums := segment_nums_to_remove g relative_depth_cutoff in
  Ok (remove_segments g nums).

(** What [repair_four_way_junctions] does once it has "found a four-way
    junction": the bridge segment, the twelve link assignments and the
    paths. [end_1 > 0] compares a [Segment] with an [int], which in
    Python 2 is true of every object that is not a number, so the bridge
    sequence is always cut from the forward sequence. Of the eight
    assignments to [self.paths[name]], each computed from the same [segs],
    the last one stays. *)
Definition bridge_junction (g : AssemblyGraph)
    (start_num_1 start_num_2 end_num_1 end_num_2 : Z)
    : result AssemblyGraph :=
  let* start_1 := segment_at g (Z.abs start_num_1) in
  let* start_2 := segment_at g (Z.abs start_num_2) in
  let* end_1 := segment_at g (Z.abs end_num_1) in
  let* end_2 := segment_at g (Z.abs end_num_2) in
  let bridge_seq := str_slice_to (forward_sequence end_1) (overlap g) in
  let bridge_depth :=
    ((depth start_1 + depth start_2 + depth end_1 + depth end_2) / 2)%Q in
  let* bridge_num := get_next_available_seg_number g in
  let bridge_seg :=
    build_other_sequence_if_necessary
      (Segment_init bridge_num bridge_depth bridge_seq true) in
  let segs := dict_set (segments g) bridge_num bridge_seg in
  (* Now rebuild the links around the junction. *)
  let fwd := forward_links g in
  let rev := reverse_links g in
  let fwd := <[start_num_1 := [bridge_num]]> fwd in
  let fwd := <[start_num_2 := [bridge_num]]> fwd in
  let fwd := <[bridge_num := [end_num_1; end_num_2]]> fwd in
  let rev := <[bridge_num := [start_num_1; start_num_2]]> rev in
  let rev := <[end_num_1 := [bridge_num]]> rev in
  let rev := <[end_num_2 := [bridge_num]]> rev in
  let rev := <[- start_num_1 := [- bridge_num]]> rev in
  let rev := <[- start_num_2 := [- bridge_num]]> rev in
  let rev := <[- bridge_num := [- end_num_1; - end_num_2]]> rev in
  let fwd := <[- bridge_num := [- start_num_1; - start_num_2]]> fwd in
  let fwd := <[- end_num_1 := [- bridge_num]]> fwd in
  let fwd := <[- end_num_2 := [- bridge_num]]> fwd in
  let new_paths :=
    map (fun np =>
           (fst np,
            insert_num_in_list (snd np) (- end_num_2) (- start_num_2)
                               (- bridge_num)))
        (paths g) in
  Ok (mkGraph segs fwd rev (copy_depths g) new_paths (overlap g)).

(** One round of the loop of [repair_four_way_junctions]. The union with
    the starts of [end_num_2] is computed and dropped, as in the source:
    [starting_segs] holds the starts of [end_num_1] only. *)
Definition repair_at (g : AssemblyGraph) (seg_num : Z)
    : result AssemblyGraph :=
  match forward_links g !! seg_num with
  | Some [end_num_1; end_num_2] =>
      let* starts_1 := getitem (reverse_links g !! end_num_1) in
      if negb (length starts_1 =? 2)%nat then Ok g
      else
        let* starts_2 := getitem (reverse_links g !! end_num_2) in
        if negb (length starts_2 =? 2)%nat then Ok g
        else
          match list_of_set starts_1 with
          | [start_num_1; start_num_2] =>
              bridge_junction g start_num_1 start_num_2 end_num_1 end_num_2
          | _ => Ok g
          end
  | _ => Ok g
  end.

Definition repair_four_way_junctions (g : AssemblyGraph)
    : result AssemblyGraph :=
  let seg_nums :=
    dict_keys (segments g) ++ map Z.opp (dict_keys (segments g)) in
  fold_left (fun r seg_num => let* g := r in repair_at g seg_num)
            seg_nums (Ok g).
End SetOrder.

(** ** Copy depths *)

Definition all_have_copy_depths (g : AssemblyGraph)
    (segment_numbers : list Z) : bool :=
  forallb (fun num => bool_decide (is_Some (copy_depths g !! num)))
          segment_numbers.

(** Division by a zero sum is Python's [ZeroDivisionError]. *)
Definition scale_copy_depths (target_depth : Q) (source_depths : list Q)
    : result (list Q * xreal) :=
  let source_depth_sum := Qsum source_depths in
  if Qeq_bool source_depth_sum 0 then Raise ZeroDivisionError
  else
    let scaling_factor := (target_depth / source_depth_sum)%Q in
    let scaled_depths :=
      sorted_descending (map (fun x => (scaling_factor * x)%Q) source_depths) in
    let error := get_error source_depth_sum target_depth in
    Ok (scaled_depths, error).

Definition scale_copy_depths_from_source_segments (g : AssemblyGraph)
    (segment_number : Z) (source_segment_numbers : list Z)
    : result (list Q * xreal) :=
  let* source_depths :=
    mapM (fun num => getitem (copy_depths g !! num)) source_segment_numbers in
  let* segment := segment_at g segment_number in
  scale_copy_depths (depth segment) (concat source_depths).

Definition get_segments_without_copies (g : AssemblyGraph) : list Segment :=
  filter (fun x => copy_depths g !! number x = None)
         (dict_values (segments g)).

(** The three variables that the loop of [merge_copy_depths] updates. *)
Record best_so_far := mkBest {
  best_segment_num : option Z;
  best_new_depths : list Q;
  lowest_error : xreal
}.

(** [if possible: depths, error = ...; if error < lowest_error: ...] *)
Definition consider (g : AssemblyGraph) (num : Z) (possible : bool)
    (sources : list Z) (best : best_so_far) : result best_so_far :=
  if possible then
    let* (depths, error) :=
      scale_copy_depths_from_source_segments g num sources in
    if xlt error (lowest_error best) then Ok (mkBest (Some num) depths error)
    else Ok best
  else Ok best.

Definition merge_copy_depths_step (g : AssemblyGraph) (best : best_so_far)
    (segment : Segment) : result best_so_far :=
  let num := number segment in
  let exclusive_inputs := get_exclusive_inputs g num in
  let exclusive_outputs := get_exclusive_outputs g num in
  let in_depth_possible :=
    negb (bool_decide (exclusive_inputs = []))
    && all_have_copy_depths g exclusive_inputs in
  let out_depth_possible :=
    negb (bool_decide (exclusive_outputs = []))
    && all_have_copy_depths g exclusive_outputs in
  let* best := consider g num in_depth_possible exclusive_inputs best in
  consider g num out_depth_possible exclusive_outputs best.

Fixpoint merge_copy_depths_loop (g : AssemblyGraph) (best : best_so_far)
    (segments : list Segment) : result best_so_far :=
  match segments with
  | [] => Ok best
  | segment :: rest =>
      let* best := merge_copy_depths_step g best segment in
      merge_copy_depths_loop g best rest
  end.

Definition error_margin : xreal := Fin 1.

(** Returns the graph and the value ([1] or [0]) that Python returns.
    [best_segment_num] is tested for truth: [None] and [0] are false. *)
Definition merge_copy_depths (g : AssemblyGraph)
    : result (AssemblyGraph * Z) :=
  match get_segments_without_copies g with
  | [] => Ok (g, 0)
  | segments =>
      let* best := merge_copy_depths_loop g (mkBest None [] Inf) segments in
      match best_segment_num best with
      | Some num =>
          if negb (num =? 0) && xlt (lowest_error best) error_margin
          then Ok (set_copy_depths g
                     (<[num := best_new_depths best]> (copy_depths g)), 1)
          else Ok (g, 0)
      | None => Ok (g, 0)
      end
  end.

(** ** Building the link dictionaries *)

(** [if end not in reverse_links: reverse_links[end] = []] and
    [reverse_links[end].append(start)]: no membership test here. *)
Definition append_always (links : gmap Z (list Z)) (k x : Z)
    : gmap Z (list Z) :=
  let links1 :=
    match links !! k with
    | None => <[k := []]> links
    | Some _ => links
    end in
  <[k := default [] (links1 !! k) ++ [x]]> links1.

(** The order in which [iteritems] walks a dictionary is the interpreter's;
    it is a parameter here. *)
Section DictOrder.
Variable iterkeys : gmap Z (list Z) -> list Z.

(** The inner loop [for end in ends] for one [start]. *)
Definition rc_links_of (new_links : gmap Z (list Z)) (start : Z)
    (ends : list Z) : gmap Z (list Z) :=
  let rc_start := - start in
  fold_left (fun new_links end_ =>
               let rc_end := - end_ in
               append_if_missing new_links rc_end rc_start)
            ends new_links.

(** [links.copy()] is shallow: the lists of [links] are the lists of
    [new_links], and an [append] to one of them is seen when the outer loop
    reaches its key. So [ends] is read from [new_links] at that moment. The
    keys that the loop walks are those of [links], which gets no new key. *)
Definition build_rc_links_if_necessary (links : gmap Z (list Z))
    : gmap Z (list Z) :=
  fold_left (fun new_links start =>
               rc_links_of new_links start (default [] (new_links !! start)))
            (iterkeys links) links.

Definition build_reverse_links (links : gmap Z (list Z)) : gmap Z (list Z) :=
  fold_left (fun reverse_links start =>
               fold_left (fun reverse_links end_ =>
                            append_always reverse_links end_ start)
                         (default [] (links !! start)) reverse_links)
            (iterkeys links) ∅.

End DictOrder.

Definition is_link_positive (start end_ : Z) : bool :=
  if (0 <? start) && (0 <? end_) then true
  else if (start <? 0) && (end_ <? 0) then false
  else if start =? - end_ then true
  else Z.abs end_ <? Z.abs start.

(** ** Lengths and depths of the whole graph *)

Definition get_total_length (g : AssemblyGraph) : Z :=
  fold_left (fun total_length segment => total_length + get_length segment)
            (dict_values (segments g)) 0.

Definition get_total_length_no_overlaps (g : AssemblyGraph) : Z :=
  fold_left (fun total_length segment =>
               total_length + get_length_no_overlap segment (overlap g))
            (dict_values (segments g)) 0.

(** [self.depth /= divisor]: division by zero is Python's
    [ZeroDivisionError]. *)
Definition divide_depth (seg : Segment) (divisor : Q) : result Segment :=
  if Qeq_bool divisor 0 then Raise ZeroDivisionError
  else Ok (mkSegment (number seg) (depth seg / divisor)
                     (forward_sequence seg) (reverse_sequence seg)).

Definition normalise_read_depths (g : AssemblyGraph) : result AssemblyGraph :=
  let median_depth := get_median_read_depth g [] in
  let* new_segments :=
    mapM (fun entry : Z * Segment =>
            let* segment := divide_depth (snd entry) median_depth in
            Ok (fst entry, segment))
         (segments g) in
  Ok (set_segments g new_segments).

Definition total_dead_end_count (g : AssemblyGraph) : Z :=
  fold_left (fun dead_ends segment => dead_ends + dead_end_count g segment)
            (dict_values (segments g)) 0.

(** ** Redistributing copy depths *)

(** [all([not target or target == len(bins[i]) for i, target in
    enumerate(targets)])]: the list is built in full, and [bins[i]] is read
    only for a target that is neither [None] nor [0]. *)
Fixpoint targets_met {A} (bins : list (list A)) (i : Z)
    (targets : list (option Z)) : result (list bool) :=
  match targets with
  | [] => Ok []
  | target :: targets' =>
      let* met :=
        match target with
        | None => Ok true
        | Some t =>
            if t =? 0 then Ok true
            else let* bin := index bins i in
                 Ok (t =? Z.of_nat (length bin))
        end in
      let* rest := targets_met bins (i + 1) targets' in
      Ok (met :: rest)
  end.

Definition is_nonempty {A} (l : list A) : bool :=
  match l with
  | [] => false
  | _ :: _ => true
  end.

Fixpoint shuffle_into_bins {A} (items : list A) (bins : list (list A))
    (targets : list (option Z)) : result (list (list (list A))) :=
  match items with
  | item :: items' =>
      let* found :=
        mapM (fun i =>
                let bins_copy := alter (fun bin => bin ++ [item]) i bins in
                shuffle_into_bins items' bins_copy targets)
             (seq 0 (length bins)) in
      Ok (concat found)
  | [] =>
      if forallb is_nonempty bins then
        let* met := targets_met bins 0 targets in
        if forallb id met then Ok [bins] else Ok []
      else Ok []
  end.

(** [max(a, b)] returns [a] unless [b] is greater. *)
Definition xmax (a b : xreal) : xreal := if xlt a b then b else a.

Fixpoint max_error_from (g : AssemblyGraph) (i : Z) (max_error : xreal)
    (segment_numbers : list Z) (copy_depths : list (list Q)) : result xreal :=
  match segment_numbers with
  | [] => Ok max_error
  | num :: segment_numbers' =>
      let* segment := segment_at g num in
      let segment_depth := depth segment in
      let* depths := index copy_depths i in
      let depth_sum := Qsum depths in
      let max_error := xmax max_error (get_error depth_sum segment_depth) in
      max_error_from g (i + 1) max_error segment_numbers' copy_depths
  end.

Definition get_error_for_multiple_segments_and_depths (g : AssemblyGraph)
    (segment_numbers : list Z) (copy_depths : list (list Q)) : result xreal :=
  max_error_from g 0 (Fin 0) segment_numbers copy_depths.

(** The loop of [assign_copy_depths_where_needed], from index [i] on. *)
Fixpoint assign_from (g : AssemblyGraph) (i : Z) (success : bool)
    (segment_numbers : list Z) (new_depths : list (list Q))
    : result (AssemblyGraph * bool) :=
  match segment_numbers with
  | [] => Ok (g, success)
  | num :: segment_numbers' =>
      match copy_depths g !! num with
      | None =>
          let* segment := segment_at g num in
          let* depths := index new_depths i in
          let* (new_copy_depths, error) :=
            scale_copy_depths (depth segment) depths in
          if negb (xlt error_margin error) then
            assign_from
              (set_copy_depths g (<[num := new_copy_depths]> (copy_depths g)))
              (i + 1) true segment_numbers' new_depths
          else assign_from g (i + 1) success segment_numbers' new_depths
      | Some _ => assign_from g (i + 1) success segment_numbers' new_depths
      end
  end.

Definition assign_copy_depths_where_needed (g : AssemblyGraph)
    (segment_numbers : list Z) (new_depths : list (list Q))
    : result (AssemblyGraph * bool) :=
  assign_from g 0 false segment_numbers new_depths.

(** ** Single-copy segments *)

Definition at_most_one_link_per_end (g : AssemblyGraph) (segment : Segment)
    : bool :=
  let num := number segment in
  let more_than_one (links : gmap Z (list Z)) :=
    match links !! num with
    | Some l => 1 <? Z.of_nat (length l)
    | None => false
    end in
  if more_than_one (forward_links g) then false
  else if more_than_one (reverse_links g) then false
  else true.

(** [sorted(..., key=lambda x: x.get_length(), reverse=True)] *)
Definition sorted_by_length_descending (l : list Segment) : list Segment :=
  sorted (fun x y => get_length y <=? get_length x) l.

Fixpoint assign_first_single (g : AssemblyGraph) (minimum_auto_single : Z)
    (segments : list Segment) : AssemblyGraph * Z :=
  match segments with
  | [] => (g, 0)
  | segment :: segments' =>
      if (minimum_auto_single <=? get_length segment)
         && at_most_one_link_per_end g segment
      then (set_copy_depths g
              (<[number segment := [depth segment]]> (copy_depths g)), 1)
      else assign_first_single g minimum_auto_single segments'
  end.

Definition assign_single_copy_depth (g : AssemblyGraph)
    (minimum_auto_single : Z) : AssemblyGraph * Z :=
  let segments :=
    sorted_by_length_descending (get_segments_without_copies g) in
  assign_first_single g minimum_auto_single segments.

(** ** Homopolymer loops *)

(** [base.lower()] on one character: the letters [A] to [Z]. *)
Definition lower (base : ascii) : ascii :=
  let n := nat_of_ascii base in
  if (65 <=? n)%nat && (n <=? 90)%nat then ascii_of_nat (n + 32) else base.

Definition is_homopolymer (seg : Segment) : bool :=
  match chars (forward_sequence seg) with
  | [] => false
  | first :: rest =>
      let first_base := lower first in
      forallb (fun base => bool_decide (lower base = first_base)) rest
  end.

(** The loop of [all_segments_are_one_base]; [reverse_sequence[0]] is an
    [IndexError] on an empty reverse sequence. *)
Fixpoint one_base_from (base : ascii) (non_empty_segments : list Segment)
    : result bool :=
  match non_empty_segments with
  | [] => Ok true
  | segment :: rest =>
      if negb (is_homopolymer segment) then Ok false
      else
        let* forward_first := index (chars (forward_sequence segment)) 0 in
        let* reverse_first := index (chars (reverse_sequence segment)) 0 in
        let forward_base := lower forward_first in
        let reverse_base := lower reverse_first in
        if negb (bool_decide (forward_base = base))
           && negb (bool_decide (reverse_base = base))
        then Ok false
        else one_base_from base rest
  end.

Definition all_segments_are_one_base (segments : list Segment)
    : result bool :=
  let non_empty_segments := List.filter (fun x => 0 <? get_length x) segments in
  match non_empty_segments with
  | [] => Ok false
  | first :: _ =>
      let* first_base := index (chars (forward_sequence first)) 0 in
      one_base_from (lower first_base) non_empty_segments
  end.

(** [list_of_set] is the enumeration of sets that
    [get_connected_components] uses. *)
Definition filter_homopolymer_loops (list_of_set : list Z -> list Z)
    (g : AssemblyGraph) : result AssemblyGraph :=
  let* connected_components := get_connected_components list_of_set g in
  let* removals :=
    mapM (fun component_nums =>
            let* component_segments := mapM (segment_at g) component_nums in
            let* one_base := all_segments_are_one_base component_segments in
            Ok (if one_base then component_nums else []))
         connected_components in
  Ok (remove_segments g (concat removals)).

(** ** Writing sequences *)

(** [l[i:]] for any integer [i]. *)
Definition slice_from {A} (l : list A) (i : Z) : list A :=
  if i <? 0 then drop (Z.to_nat (Z.of_nat (length l) + i)) l
  else drop (Z.to_nat i) l.

Definition newline : ascii := ascii_of_nat 10.

(** The [while len(sequence) > length] loop; [fuel] bounds the number of
    lines it cuts off. *)
Fixpoint add_line_breaks_loop (fuel : nat)
    (seq_with_breaks sequence : list ascii) (length_ : Z)
    : result (list ascii * list ascii) :=
  if length_ <? Z.of_nat (length sequence) then
    match fuel with
    | O => Raise OutOfFuel
    | S fuel' =>
        add_line_breaks_loop fuel'
          (seq_with_breaks ++ slice_to sequence length_ ++ [newline])
          (slice_from sequence length_) length_
    end
  else Ok (seq_with_breaks, sequence).

Definition add_line_breaks_to_sequence (sequence : string) (length_ : Z)
    : result string :=
  let* (seq_with_breaks, sequence) :=
    add_line_breaks_loop (String.length sequence) [] (chars sequence)
                         length_ in
  if 0 <? Z.of_nat (length sequence)
  then Ok (str_of (seq_with_breaks ++ sequence ++ [newline]))
  else Ok (str_of seq_with_breaks).

(** ** The N50 and its kin *)

Fixpoint n_segment_scan (overlap : Z) (target_length : Q) (length_so_far : Z)
    (l : list Segment) : Z :=
  match l with
  | [] => 0
  | segment :: l' =>
      let seg_length := get_length_no_overlap segment overlap in
      let length_so_far := length_so_far + seg_length in
      if Qle_bool target_length (inject_Z length_so_far) then seg_length
      else n_segment_scan overlap target_length length_so_far l'
  end.

Definition get_n_segment_length (g : AssemblyGraph) (n_percent : Q) : Z :=
  let total_length := get_total_length_no_overlaps g in
  let target_length := (inject_Z total_length * (n_percent / 100))%Q in
  let sorted_segments :=
    sorted (fun x y => get_length_no_overlap y (overlap g)
                       <=? get_length_no_overlap x (overlap g))
           (dict_values (segments g)) in
  n_segment_scan (overlap g) target_length 0 sorted_segments.

(** * Specification vocabulary *)

(** A valid sequence is written in the extended alphabet. *)
Definition valid_sequence (s : string) : Prop :=
  Forall (fun c => c ∈ chars forward_bases) (chars s).

(** [v in links[u]] *)
Definition linked (links : gmap Z (list Z)) (u v : Z) : Prop :=
  v ∈ default [] (links !! u).

(** Every link has its reverse-complement twin. *)
Definition twin_symmetric (fwd : gmap Z (list Z)) : Prop :=
  map_Forall (fun u l => Forall (fun v => linked fwd (- v) (- u)) l) fwd.

(** The reverse view is the transpose of the forward view. *)
Definition transposed (fwd rev : gmap Z (list Z)) : Prop :=
  map_Forall (fun u l => Forall (fun v => linked rev v u) l) fwd /\
  map_Forall (fun v l => Forall (fun u => linked fwd u v) l) rev.

Definition link_symmetry (g : AssemblyGraph) : Prop :=
  twin_symmetric (forward_links g) /\
  transposed (forward_links g) (reverse_links g).

(** Every enumeration of a set lists each of its members once. *)
Definition set_enumeration (list_of_set : list Z -> list Z) : Prop :=
  forall l, list_of_set l ≡ₚ remove_dups l.

(** ** Example graphs *)

(** Three segments in a line, overlap 3: [1 -> 2 -> 3]. *)
Definition linear_graph : AssemblyGraph :=
  mkGraph [(1, mkSegment 1 10 "AAAAA" "TTTTT");
           (2, mkSegment 2 20 "AAATT" "AATTT");
           (3, mkSegment 3 30 "TTGGG" "CCCAA")]
          {[ 1 := [2]; 2 := [3]; -2 := [-1]; -3 := [-2] ]}
          {[ 2 := [1]; 3 := [2]; -1 := [-2]; -2 := [-3] ]}
          ∅ [] 3.

(** A long segment followed by a short one, overlap 1: [1 -> 2]. *)
Definition long_short_graph : AssemblyGraph :=
  mkGraph [(1, mkSegment 1 10 "AACC" "GGTT");
           (2, mkSegment 2 10 "CG" "CG")]
          {[ 1 := [2]; -2 := [-1] ]}
          {[ 2 := [1]; -1 := [-2] ]}
          ∅ [] 1.

(** Not a four-way junction: [1 -> 3], [1 -> 4], [2 -> 3], [5 -> 4]. The
    starts of [3] are [{1, 2}], the starts of [4] are [{1, 5}]. *)
Definition three_starts_graph : AssemblyGraph :=
  mkGraph [(1, mkSegment 1 10 "AAC" "GTT");
           (2, mkSegment 2 10 "GAC" "GTC");
           (3, mkSegment 3 10 "CA" "TG");
           (4, mkSegment 4 10 "CT" "AG");
           (5, mkSegment 5 10 "TTC" "GAA")]
          {[ 1 := [3; 4]; 2 := [3]; 5 := [4];
             -3 := [-1; -2]; -4 := [-1; -5] ]}
          {[ 3 := [1; 2]; 4 := [1; 5];
             -1 := [-3; -4]; -2 := [-3]; -5 := [-4] ]}
          ∅ [] 1.

(** The loop of [repair_four_way_junctions] passes over [seg_num] when
    [forward_links[seg_num]] is absent or does not hold two ends. *)
Definition no_two_ends (g : AssemblyGraph) (seg_num : Z) : bool :=
  match forward_links g !! seg_num with
  | Some [_; _] => false
  | _ => true
  end.

(** Deleting segment [s] would create a dead end when some forward
    neighbour has [s] as its sole reverse neighbour, or some reverse
    neighbour has [s] as its sole forward neighbour. *)
Definition would_create_dead_end (g : AssemblyGraph) (s : Z) : Prop :=
  (exists d, linked (forward_links g) s d /\ reverse_links g !! d = Some [s]) \/
  (exists u, linked (reverse_links g) s u /\ forward_links g !! u = Some [s]).

(** Every number at the end of a link is the number of a segment. *)
Definition links_closed (g : AssemblyGraph) : Prop :=
  map_Forall (fun _ l => Forall (fun v => Z.abs v ∈ dict_keys (segments g)) l)
             (forward_links g) /\
  map_Forall (fun _ l => Forall (fun v => Z.abs v ∈ dict_keys (segments g)) l)
             (reverse_links g).

(** Every segment is stored under its own number. *)
Definition segments_numbered (g : AssemblyGraph) : Prop :=
  Forall (fun ns => number (snd ns) = fst ns) (segments g).

(** The state of the breadth-first search: [done] lists the numbers already
    put into a component, [q] is the queue, and [visited] holds exactly the
    numbers of both; no number occurs twice and all are segment numbers. *)
Definition search_state (keys done : list Z) (visited : gset Z) (q : list Z)
    : Prop :=
  NoDup (done ++ q) /\
  (forall x, x ∈ visited <-> x ∈ done ++ q) /\
  (forall x, x ∈ done ++ q -> x ∈ keys).

(** A depth is below cutoff when it is under [r] times the median of the
    whole graph or under [r] times the median of its component. *)
Definition below_cutoff (d r M Mc : Q) : Prop :=
  (d < r * M)%Q \/ (d < r * Mc)%Q.

(** Every segment of the component has a depth under the cutoff. *)
Definition component_below (g : AssemblyGraph) (component : list Z)
    (cutoff : Q) : Prop :=
  forall x seg,
    x ∈ component -> dict_get (segments g) x = Some seg ->
    (depth seg < cutoff)%Q.

(** Four segments, overlap 1, linked [1 -> 2 -> 3]; segment 3 is shallow and
    ends the line, segment 4 stands alone. *)
Definition dead_end_graph : AssemblyGraph :=
  mkGraph [(1, mkSegment 1 100 "AAAAC" "GTTTT");
           (2, mkSegment 2 100 "CCCCG" "CGGGG");
           (3, mkSegment 3 5 "GGGGT" "ACCCC");
           (4, mkSegment 4 100 "TTTTA" "TAAAA")]
          {[ 1 := [2]; 2 := [3]; -2 := [-1]; -3 := [-2] ]}
          {[ 2 := [1]; 3 := [2]; -1 := [-2]; -2 := [-3] ]}
          ∅ [] 1.

(** The order of the extended reals, as the comparisons of the code give
    it. *)
Definition xreal_lt (a b : xreal) : Prop := xlt a b = true.
Definition xreal_le (a b : xreal) : Prop := xlt b a = false.

(** The segment dictionary has one entry per number, and the numbers are
    positive. *)
Definition segments_positive (g : AssemblyGraph) : Prop :=
  NoDup (dict_keys (segments g)) /\
  Forall (fun ns => 0 < fst ns) (segments g).

(** A copy-depth vector is a non-empty list of positive depths. *)
Definition copy_depths_positive (g : AssemblyGraph) : Prop :=
  map_Forall (fun _ l => l <> [] /\ Forall (fun x => Qltb 0 x = true) l)
             (copy_depths g).

(** The copy-depth vectors of the sources, end to end. *)
Definition source_depths (g : AssemblyGraph) (sources : list Z) : list Q :=
  concat (map (fun num => default [] (copy_depths g !! num)) sources).

(** [sources] can give [segment] its copy depths: they are its exclusive
    inputs, or its exclusive outputs, there is at least one, and they all
    have copy depths. *)
Definition sources_of (g : AssemblyGraph) (segment : Segment)
    (sources : list Z) : Prop :=
  (sources = get_exclusive_inputs g (number segment) \/
   sources = get_exclusive_outputs g (number segment)) /\
  sources <> [] /\
  (forall x, x ∈ sources -> is_Some (copy_depths g !! x)).

(** A candidate of [merge_copy_depths]: a segment without copy depths and
    sources that can give it some. *)
Definition candidate (g : AssemblyGraph) (segment : Segment)
    (sources : list Z) : Prop :=
  segment ∈ dict_values (segments g) /\
  copy_depths g !! number segment = None /\
  sources_of g segment sources.

(** [|sum(D) - depth(s)| / depth(s)], infinite when [depth(s)] is not
    positive. *)
Definition candidate_error (g : AssemblyGraph) (segment : Segment)
    (sources : list Z) : xreal :=
  get_error (Qsum (source_depths g sources)) (depth segment).

(** [D] scaled by [depth(s) / sum(D)]. *)
Definition scaled_depths (g : AssemblyGraph) (segment : Segment)
    (sources : list Z) : list Q :=
  let D := source_depths g sources in
  map (fun x => (depth segment / Qsum D * x)%Q) D.

(** Two segments with copy depths that lead only to a third, unassigned
    one: [1 -> 3] and [2 -> 3]. *)
Definition two_inputs_graph : AssemblyGraph :=
  mkGraph [(1, mkSegment 1 10 "AAAAC" "GTTTT");
           (2, mkSegment 2 20 "GGGGC" "GCCCC");
           (3, mkSegment 3 30 "CTTTT" "AAAAG")]
          {[ 1 := [3]; 2 := [3]; -3 := [-1; -2] ]}
          {[ 3 := [1; 2]; -1 := [-3]; -2 := [-3] ]}
          {[ 1 := [10%Q]; 2 := [20%Q] ]} [] 1.

(** What the loop of [merge_copy_depths] holds after it has considered the
    pairs in [covered]: no error among them is lower than [lowest_error],
    and the best pair, if any, is one of them. *)
Definition best_of (g : AssemblyGraph)
    (covered : Segment -> list Z -> Prop) (best : best_so_far) : Prop :=
  (forall segment sources,
      covered segment sources ->
      xreal_le (lowest_error best) (candidate_error g segment sources)) /\
  (best = mkBest None [] Inf \/
   exists segment sources,
     covered segment sources /\
     best = mkBest (Some (number segment))
                   (sorted_descending (scaled_depths g segment sources))
                   (candidate_error g segment sources)).

(** The three-segment line with a path along it. *)
Definition path_graph : AssemblyGraph :=
  set_paths linear_graph [("p"%string, [1; 2; 3])].

(** The neighbours of the members of a component are in that component or in
    one listed before it. *)
Definition neighbours_before (list_of_set : list Z -> list Z)
    (g : AssemblyGraph) (components : list (list Z)) : Prop :=
  forall l1 c l2 w k,
    components = l1 ++ c :: l2 -> w ∈ c ->
    k ∈ get_connected_segments list_of_set g w ->
    k ∈ concat l1 ++ c.

(** Every enumeration of a dictionary walks each of its keys once. *)
Definition dict_enumeration (iterkeys : gmap Z (list Z) -> list Z) : Prop :=
  forall m, iterkeys m ≡ₚ (map_to_list m).*1.

Definition keys_of (m : gmap Z (list Z)) : list Z := (map_to_list m).*1.

(** The bases of a list of segments, net of the overlap, as
    [get_median_read_depth] adds them up. *)
Definition bases (overlap : Z) (l : list Segment) : Z :=
  fold_left (fun t segment => t + get_length_no_overlap segment overlap) l 0.

(** A segment with its depth divided by [m]. *)
Definition with_depth_over (m : Q) (segment : Segment) : Segment :=
  mkSegment (number segment) (depth segment / m)
            (forward_sequence segment) (reverse_sequence segment).

(** One segment that no read covers. *)
Definition uncovered_graph : AssemblyGraph :=
  mkGraph [(1, mkSegment 1 0 "ACGT" "ACGT")] ∅ ∅ ∅ [] 0.

(** The bins after each item has been appended to the bin that [where_]
    names for it. *)
Definition place {A} (bins : list (list A)) (items : list A)
    (where_ : list nat) : list (list A) :=
  fold_left (fun bs p => alter (fun bin => bin ++ [fst p]) (snd p) bs)
            (zip items where_) bins.

(** [where_] names a bin for every item. *)
Definition placement {A} (bins : list (list A)) (items : list A)
    (where_ : list nat) : Prop :=
  length where_ = length items /\
  Forall (fun i => (i < length bins)%nat) where_.

(** Every target that is neither [None] nor [0] is the length of its bin. *)
Definition targets_hold {A} (targets : list (option Z))
    (bins : list (list A)) : Prop :=
  forall (j : nat) (t : Z),
    targets !! j = Some (Some t) -> t <> 0 ->
    exists bin, bins !! j = Some bin /\ Z.of_nat (length bin) = t.

(** A segment that [assign_single_copy_depth] may take: it has no copy
    depths, it is long enough and it has at most one link per end. *)
Definition single_copy_candidate (g : AssemblyGraph) (minimum_auto_single : Z)
    (segment : Segment) : Prop :=
  segment ∈ dict_values (segments g) /\
  copy_depths g !! number segment = None /\
  minimum_auto_single <= get_length segment /\
  at_most_one_link_per_end g segment = true.

(** Every segment has both of its sequences, of one length. *)
Definition strands_paired (g : AssemblyGraph) : Prop :=
  Forall (fun ns => String.length (reverse_sequence (snd ns))
                    = String.length (forward_sequence (snd ns)))
         (segments g).

(** A homopolymer loop: [1 -> 1] on a segment of nothing but [A]. *)
Definition homopolymer_graph : AssemblyGraph :=
  mkGraph [(1, mkSegment 1 10 "AAAA" "TTTT");
           (2, mkSegment 2 10 "ACGT" "ACGT")]
          {[ 1 := [1]; -1 := [-1] ]}
          {[ 1 := [1]; -1 := [-1] ]}
          ∅ [] 1.

(** A component that [filter_homopolymer_loops] takes out has a segment with
    bases, and each of its segments is empty or made of one base. *)
Definition one_base_component (g : AssemblyGraph) (component : list Z)
    : Prop :=
  (exists x segment,
      x ∈ component /\ dict_get (segments g) x = Some segment /\
      0 < get_length segment) /\
  (forall x segment,
      x ∈ component -> dict_get (segments g) x = Some segment ->
      get_length segment = 0 \/ is_homopolymer segment = true).

(** The text of some lines, each followed by a line break. *)
Definition broken_lines (lines : list (list ascii)) : list ascii :=
  concat (map (fun line => line ++ [newline]) lines).

(** No key is kept for an empty list of links. *)
Definition lists_nonempty (links : gmap Z (list Z)) : Prop :=
  map_Forall (fun _ l => l <> []) links.

(** * Properties *)

Lemma bind_Ok {A B} (m : result A) (f : A -> result B) b :
  bind m f = Ok b -> exists a, m = Ok a /\ f a = Ok b.
Proof. destruct m; simpl; [eauto | discriminate]. Qed.

(** ** Sequence utilities *)

Lemma chars_str_of l : chars (str_of l) = l.
Proof. apply list_ascii_of_string_of_list_ascii. Qed.

Lemma str_of_chars s : str_of (chars s) = s.
Proof. apply string_of_list_ascii_of_string. Qed.

Lemma complement_base_involutive_on_alphabet :
  Forall (fun c => complement_base (complement_base c) = c)
         (chars forward_bases).
Proof. repeat constructor. Qed.

(** C8. [reverse_complement] is an involution on valid sequences: on every
    string [s] written in the extended alphabet
    ['ATGCatgcRYSWKMryswkmBDHVbdhvNn.-?'],
    [reverse_complement (reverse_complement s) = s]. *)
Theorem reverse_complement_involutive (s : string) :
  valid_sequence s -> reverse_complement (reverse_complement s) = s.
Proof.
  unfold valid_sequence, reverse_complement. intros Hvalid.
  rewrite chars_str_of, <- map_rev, rev_involutive, map_map.
  rewrite <- (str_of_chars s) at 2. f_equal.
  induction Hvalid as [| c l Hc _ IH]; simpl; [reflexivity |].
  f_equal; [| exact IH].
  pose proof complement_base_involutive_on_alphabet as Hall.
  rewrite Forall_forall in Hall. apply Hall, Hc.
Qed.

Lemma reverse_complement_involutive_witness :
  valid_sequence "ACGTNryk-?" /\
  reverse_complement (reverse_complement "ACGTNryk-?") = "ACGTNryk-?"%string.
Proof.
  assert (H : valid_sequence "ACGTNryk-?").
  { unfold valid_sequence. apply (bool_decide_unpack _). vm_compute. exact I. }
  split; [exact H | exact (reverse_complement_involutive _ H)].
Defined.

(** ** Signed segment numbers *)

Lemma chars_append (a b : string) :
  chars (String.append a b) = chars a ++ chars b.
Proof. induction a as [| c a IH]; simpl; [reflexivity | now rewrite IH]. Qed.

Lemma index_last {A} (l : list A) (c : A) : index (l ++ [c]) (-1) = Ok c.
Proof.
  unfold index. change (-1 <? 0) with true. cbv iota.
  rewrite length_app, Nat.add_1_r.
  replace (Z.of_nat (S (length l)) + -1) with (Z.of_nat (length l)) by lia.
  destruct (Z.ltb_spec (Z.of_nat (length l)) 0) as [Hneg | _]; [lia |].
  rewrite Nat2Z.id, lookup_app_r, Nat.sub_diag by lia. reflexivity.
Qed.

Lemma slice_to_last {A} (l : list A) (c : A) : slice_to (l ++ [c]) (-1) = l.
Proof.
  unfold slice_to. change (-1 <? 0) with true. cbv iota.
  rewrite length_app, Nat.add_1_r.
  replace (Z.of_nat (S (length l)) + -1) with (Z.of_nat (length l)) by lia.
  rewrite Nat2Z.id. apply take_app_length.
Qed.

Lemma uint_of_string_plus (s : string) :
  NilEmpty.uint_of_string (String "+" s) = None.
Proof. simpl. now destruct (NilEmpty.uint_of_string s). Qed.

(** [int(str(m)) == m] for a natural number [m]. *)
Lemma py_int_py_str (m : Z) : 0 <= m -> py_int (py_str m) = Ok m.
Proof.
  intros Hm. unfold py_str.
  assert (Hparse : NilZero.int_of_string (NilZero.string_of_int (Z.to_int m))
                   = Some (Z.to_int m)).
  { apply NilZero.isi; destruct m as [| p | p]; simpl; try discriminate.
    - intros [= H]. now apply (Unsigned.to_uint_nonnil p).
    - lia. }
  destruct (NilZero.string_of_int (Z.to_int m)) as [| a s] eqn:Hs;
    [discriminate |].
  unfold py_int. destruct (Ascii.eqb_spec a "+") as [-> | _].
  - unfold NilZero.int_of_string in Hparse. simpl (Ascii.eqb "+" "-") in Hparse.
    cbv iota in Hparse. unfold NilZero.uint_of_string in Hparse.
    rewrite uint_of_string_plus in Hparse. discriminate.
  - rewrite Hparse. f_equal. apply DecimalZ.of_to.
Qed.

Lemma signed_string_round_trip (n : Z) :
  signed_string_to_int (int_to_signed_string n) = Ok n.
Proof.
  unfold signed_string_to_int, int_to_signed_string, get_sign_string.
  unfold str_slice_to. rewrite chars_append.
  destruct (Z.leb_spec 0 n) as [Hn | Hn].
  - change (chars "+") with ["+"%char].
    rewrite index_last, slice_to_last, str_of_chars. simpl.
    rewrite py_int_py_str by lia. simpl. f_equal. lia.
  - change (chars "-") with ["-"%char].
    rewrite index_last, slice_to_last, str_of_chars. simpl.
    rewrite py_int_py_str by lia. simpl. f_equal. lia.
Qed.

(** C9. For every non-zero integer [n],
    [signed_string_to_int (int_to_signed_string n)] returns [n]. *)
Theorem signed_string_to_int_of_int_to_signed_string (n : Z) :
  n <> 0 -> signed_string_to_int (int_to_signed_string n) = Ok n.
Proof. intros _. apply signed_string_round_trip. Qed.

Lemma signed_string_to_int_of_int_to_signed_string_witness :
  -6 <> 0 /\ signed_string_to_int (int_to_signed_string (-6)) = Ok (-6).
Proof.
  split; [lia |].
  apply (signed_string_to_int_of_int_to_signed_string (-6)). lia.
Defined.

(** ** The link store *)

Lemma linked_lookup (links : gmap Z (list Z)) (u v : Z) :
  linked links u v <-> exists l, links !! u = Some l /\ v ∈ l.
Proof.
  unfold linked. destruct (links !! u) as [l |]; simpl.
  - split; [eauto | now intros (? & [= <-] & ?)].
  - split; [intros H; inversion H | now intros (? & [=] & _)].
Qed.

Lemma linked_append_if_missing (links : gmap Z (list Z)) (k x u v : Z) :
  linked (append_if_missing links k x) u v <->
  linked links u v \/ (u = k /\ v = x).
Proof.
  unfold append_if_missing, linked.
  destruct (links !! k) as [l |] eqn:Hk; simpl.
  - rewrite Hk. simpl. case_bool_decide as Hx.
    + split; [auto | intros [H | [-> ->]]; [exact H | now rewrite Hk]].
    + destruct (decide (u = k)) as [-> | Hne].
      * rewrite lookup_insert_eq, Hk. simpl. rewrite elem_of_app, list_elem_of_singleton.
        tauto.
      * rewrite lookup_insert_ne by congruence. tauto.
  - rewrite lookup_insert_eq. simpl.
    destruct (decide (u = k)) as [-> | Hne].
    + rewrite lookup_insert_eq, Hk. simpl. rewrite list_elem_of_singleton.
      split; [auto | intros [H | [_ ->]]; [inversion H | reflexivity]].
    + rewrite !lookup_insert_ne by congruence. tauto.
Qed.

Lemma append_if_missing_id (links : gmap Z (list Z)) (k x : Z) :
  linked links k x -> append_if_missing links k x = links.
Proof.
  intros (l & Hl & Hx)%linked_lookup. unfold append_if_missing.
  rewrite Hl. simpl. rewrite Hl. simpl. now rewrite bool_decide_eq_true_2.
Qed.

Lemma linked_add_link_forward (g : AssemblyGraph) (s e u v : Z) :
  linked (forward_links (add_link g s e)) u v <->
  linked (forward_links g) u v \/ (u = s /\ v = e) \/ (u = - e /\ v = - s).
Proof. simpl. rewrite !linked_append_if_missing. tauto. Qed.

Lemma linked_add_link_reverse (g : AssemblyGraph) (s e u v : Z) :
  linked (reverse_links (add_link g s e)) u v <->
  linked (reverse_links g) u v \/ (u = e /\ v = s) \/ (u = - s /\ v = - e).
Proof. simpl. rewrite !linked_append_if_missing. tauto. Qed.

Lemma add_link_id (g : AssemblyGraph) (s e : Z) :
  linked (forward_links g) s e -> linked (forward_links g) (- e) (- s) ->
  linked (reverse_links g) e s -> linked (reverse_links g) (- s) (- e) ->
  add_link g s e = g.
Proof.
  intros Hf Hft Hr Hrt. destruct g as [segs fwd rev cd ps k].
  unfold add_link, set_reverse_links, set_forward_links. simpl in *.
  rewrite (append_if_missing_id fwd s e Hf), (append_if_missing_id rev e s Hr).
  now rewrite (append_if_missing_id rev _ _ Hrt), (append_if_missing_id fwd _ _ Hft).
Qed.

(** C7. [add_link u v] puts [v] into [forward_links[u]], [-u] into
    [forward_links[-v]], [u] into [reverse_links[v]] and [-v] into
    [reverse_links[-u]], and a second identical call changes nothing; on an
    empty link store [add_link 5 (-7)] gives
    [forward = {5: [-7], 7: [-5]}] and [reverse = {-7: [5], -5: [7]}].
    Nothing here needs [u] or [v] to be non-zero. *)
Theorem add_link_twins_and_idempotent :
  (forall (g : AssemblyGraph) (u v : Z),
      let g' := add_link g u v in
      linked (forward_links g') u v /\
      linked (forward_links g') (- v) (- u) /\
      linked (reverse_links g') v u /\
      linked (reverse_links g') (- u) (- v) /\
      add_link g' u v = g') /\
  (forall segs cd ps k,
      let g' := add_link (mkGraph segs ∅ ∅ cd ps k) 5 (-7) in
      forward_links g' = {[ 5 := [-7]; 7 := [-5] ]} /\
      reverse_links g' = {[ -7 := [5]; -5 := [7] ]}).
Proof.
  split.
  - intros g u v g'.
    assert (Hf : linked (forward_links g') u v)
      by (apply linked_add_link_forward; auto).
    assert (Hft : linked (forward_links g') (- v) (- u))
      by (apply linked_add_link_forward; auto).
    assert (Hr : linked (reverse_links g') v u)
      by (apply linked_add_link_reverse; auto).
    assert (Hrt : linked (reverse_links g') (- u) (- v))
      by (apply linked_add_link_reverse; auto).
    repeat split; try assumption. now apply add_link_id.
  - intros segs cd ps k. split; vm_compute; reflexivity.
Qed.

(** ** Merging: the linear example *)




(** ** Merging: the number of the merged segment *)

(** C2 at a failing input. Overlap 1, segment 1 ([AACC], overlap-compensated
    length 3) followed by segment 2 ([CG], overlap-compensated length 1),
    linked [1 -> 2] and nothing else, so the pair is merge-eligible. The
    first segment is the longer one, yet the merged segment is numbered 3,
    the fresh number, and not 1. *)
Theorem merge_two_segments_longer_first_is_renumbered :
  forward_links long_short_graph !! 1 = Some [2] /\
  reverse_links long_short_graph !! 2 = Some [1] /\
  (exists seg_1 seg_2,
      segment_at long_short_graph 1 = Ok seg_1 /\
      segment_at long_short_graph 2 = Ok seg_2 /\
      get_length_no_overlap seg_1 (overlap long_short_graph) = 3 /\
      get_length_no_overlap seg_2 (overlap long_short_graph) = 1) /\
  get_next_available_seg_number long_short_graph = Ok 3 /\
  (exists g' seg,
      merge_two_segments long_short_graph 1 2 = Ok g' /\
      try_to_merge_two_segments long_short_graph 1 2 = Ok (Some g') /\
      segments g' = [(3, seg)] /\ number seg = 3 /\
      forward_sequence seg = "AACCG"%string).
Proof.
  repeat split; try (vm_compute; reflexivity).
  - eexists _, _. repeat split; vm_compute; reflexivity.
  - eexists _, _. split; [vm_compute; reflexivity |].
    repeat split; vm_compute; reflexivity.
Qed.

(** ** Four-way junction repair *)

Lemma repair_at_junction (list_of_set : list Z -> list Z) (g : AssemblyGraph)
    (seg_num end_num_1 end_num_2 start_num_1 start_num_2 : Z)
    (starts_1 starts_2 : list Z) :
  forward_links g !! seg_num = Some [end_num_1; end_num_2] ->
  reverse_links g !! end_num_1 = Some starts_1 -> length starts_1 = 2%nat ->
  reverse_links g !! end_num_2 = Some starts_2 -> length starts_2 = 2%nat ->
  list_of_set starts_1 = [start_num_1; start_num_2] ->
  repair_at list_of_set g seg_num
  = bridge_junction g start_num_1 start_num_2 end_num_1 end_num_2.
Proof.
  intros Hf Hr1 Hl1 Hr2 Hl2 Hset. unfold repair_at.
  rewrite Hf, Hr1. simpl. rewrite Hl1. simpl.
  rewrite Hr2. simpl. rewrite Hl2. simpl. now rewrite Hset.
Qed.

Lemma repair_at_no_two_ends (list_of_set : list Z -> list Z)
    (g : AssemblyGraph) (seg_num : Z) :
  no_two_ends g seg_num = true -> repair_at list_of_set g seg_num = Ok g.
Proof.
  unfold no_two_ends, repair_at.
  destruct (forward_links g !! seg_num) as [[| ? [| ? [| ? ?]]] |];
    (reflexivity || discriminate).
Qed.

Lemma repair_loop_no_two_ends (list_of_set : list Z -> list Z)
    (g : AssemblyGraph) (seg_nums : list Z) :
  forallb (no_two_ends g) seg_nums = true ->
  fold_left (fun r seg_num => bind r (fun g => repair_at list_of_set g seg_num))
            seg_nums (Ok g) = Ok g.
Proof.
  induction seg_nums as [| n seg_nums IH]; simpl; [reflexivity |].
  intros [Hn Hrest]%andb_prop.
  rewrite (repair_at_no_two_ends _ _ _ Hn). exact (IH Hrest).
Qed.

Lemma repair_loop_cons (list_of_set : list Z -> list Z) (g : AssemblyGraph)
    (seg_num : Z) (seg_nums : list Z) :
  fold_left (fun r seg_num => bind r (fun g => repair_at list_of_set g seg_num))
            (seg_num :: seg_nums) (Ok g)
  = fold_left (fun r seg_num =>
                 bind r (fun g => repair_at list_of_set g seg_num))
              seg_nums (repair_at list_of_set g seg_num).
Proof. reflexivity. Qed.

Lemma enumeration_of_two (list_of_set : list Z -> list Z) (a b : Z) :
  set_enumeration list_of_set -> a <> b ->
  list_of_set [a; b] = [a; b] \/ list_of_set [a; b] = [b; a].
Proof.
  intros Henum Hne. specialize (Henum [a; b]).
  assert (Hdups : remove_dups [a; b] = [a; b]).
  { simpl. case_decide as Hin; [| reflexivity].
    apply list_elem_of_singleton in Hin. contradiction. }
  rewrite Hdups in Henum. symmetry in Henum.
  now apply Permutation_length_2_inv in Henum.
Qed.

(** On [three_starts_graph] the repair bridges the starts of segment 3,
    whichever of them is listed first, and then finds nothing else. *)
Lemma repair_three_starts (list_of_set : list Z -> list Z) :
  set_enumeration list_of_set ->
  exists start_num_1 start_num_2,
    (start_num_1 = 1 /\ start_num_2 = 2 \/ start_num_1 = 2 /\ start_num_2 = 1) /\
    repair_four_way_junctions list_of_set three_starts_graph
    = bridge_junction three_starts_graph start_num_1 start_num_2 3 4.
Proof.
  intros Henum.
  assert (Hfirst : exists s1 s2,
             (s1 = 1 /\ s2 = 2 \/ s1 = 2 /\ s2 = 1) /\
             repair_at list_of_set three_starts_graph 1
             = bridge_junction three_starts_graph s1 s2 3 4).
  { destruct (enumeration_of_two list_of_set 1 2 Henum) as [H | H]; [lia | |].
    - exists 1, 2. split; [auto |].
      now apply (repair_at_junction _ _ 1 3 4 1 2 [1; 2] [1; 5]).
    - exists 2, 1. split; [auto |].
      now apply (repair_at_junction _ _ 1 3 4 2 1 [1; 2] [1; 5]). }
  destruct Hfirst as (s1 & s2 & Hs & Hstep). exists s1, s2. split; [exact Hs |].
  unfold repair_four_way_junctions.
  change (dict_keys (segments three_starts_graph)
          ++ map Z.opp (dict_keys (segments three_starts_graph)))
    with (1 :: [2; 3; 4; 5; -1; -2; -3; -4; -5]).
  rewrite repair_loop_cons, Hstep.
  destruct Hs as [[-> ->] | [-> ->]].
  - destruct (bridge_junction three_starts_graph 1 2 3 4) as [g1 |] eqn:Hg1;
      [| discriminate Hg1].
    apply repair_loop_no_two_ends.
    vm_compute in Hg1. injection Hg1 as <-. vm_compute. reflexivity.
  - destruct (bridge_junction three_starts_graph 2 1 3 4) as [g1 |] eqn:Hg1;
      [| discriminate Hg1].
    apply repair_loop_no_two_ends.
    vm_compute in Hg1. injection Hg1 as <-. vm_compute. reflexivity.
Qed.

(** C4 at a failing input. In [three_starts_graph] segment 1 leads to 3 and
    4, the starts of 3 are [{1, 2}] and the starts of 4 are [{1, 5}]: the two
    sets differ, this is no four-way junction. Whatever the enumeration of
    sets, [repair_four_way_junctions] still adds the bridge segment 6 with
    [forward_links[6] = [3, 4]] and rewires [3] and [4] to it. *)
Theorem repair_four_way_junctions_bridges_unequal_starts
    (list_of_set : list Z -> list Z) :
  set_enumeration list_of_set ->
  forward_links three_starts_graph !! 1 = Some [3; 4] /\
  reverse_links three_starts_graph !! 3 = Some [1; 2] /\
  reverse_links three_starts_graph !! 4 = Some [1; 5] /\
  exists g',
    repair_four_way_junctions list_of_set three_starts_graph = Ok g' /\
    dict_keys (segments g') = [1; 2; 3; 4; 5; 6] /\
    forward_links g' !! 6 = Some [3; 4] /\
    reverse_links g' !! 3 = Some [6] /\
    reverse_links g' !! 4 = Some [6] /\
    forward_links g' !! 1 = Some [6] /\
    forward_links g' !! 2 = Some [6].
Proof.
  intros Henum. repeat split; try (vm_compute; reflexivity).
  destruct (repair_three_starts list_of_set Henum)
    as (s1 & s2 & [[-> ->] | [-> ->]] & ->);
    (eexists; split; [vm_compute; reflexivity |]);
    repeat split; vm_compute; reflexivity.
Qed.

Lemma repair_four_way_junctions_bridges_unequal_starts_witness :
  set_enumeration remove_dups /\
  exists g',
    repair_four_way_junctions remove_dups three_starts_graph = Ok g' /\
    dict_keys (segments g') = [1; 2; 3; 4; 5; 6] /\
    forward_links g' !! 6 = Some [3; 4] /\
    reverse_links g' !! 3 = Some [6] /\
    reverse_links g' !! 4 = Some [6] /\
    forward_links g' !! 1 = Some [6] /\
    forward_links g' !! 2 = Some [6].
Proof.
  assert (H : set_enumeration remove_dups) by (intros l; reflexivity).
  split; [exact H |].
  apply (repair_four_way_junctions_bridges_unequal_starts remove_dups H).
Defined.

(** ** Link symmetry *)

Lemma map_Forall_linked (P : Z -> Z -> Prop) (links : gmap Z (list Z)) :
  map_Forall (fun u l => Forall (fun v => P u v) l) links <->
  forall u v, linked links u v -> P u v.
Proof.
  split.
  - intros Hall u v (l & Hl & Hv)%linked_lookup.
    specialize (Hall u l Hl). rewrite Forall_forall in Hall. auto.
  - intros Hall u l Hl. apply Forall_forall. intros v Hv.
    apply Hall, linked_lookup. eauto.
Qed.

Lemma twin_symmetric_spec (fwd : gmap Z (list Z)) :
  twin_symmetric fwd <->
  forall u v, linked fwd u v -> linked fwd (- v) (- u).
Proof. apply (map_Forall_linked (fun u v => linked fwd (- v) (- u))). Qed.

Lemma transposed_spec (fwd rev : gmap Z (list Z)) :
  transposed fwd rev <-> forall u v, linked fwd u v <-> linked rev v u.
Proof.
  unfold transposed.
  rewrite (map_Forall_linked (fun u v => linked rev v u)).
  rewrite (map_Forall_linked (fun v u => linked fwd u v)).
  split; [intros [H1 H2] u v; split; auto | intros H; split; intros; now apply H].
Qed.

(** C1 at a failing input. [three_starts_graph] has twin-link symmetry, and
    its reverse view is the transpose of its forward view. After
    [repair_four_way_junctions], whatever the enumeration of sets, the link
    [5 -> 4] is still in the forward view, but [5] is no longer in
    [reverse_links[4]] and [-5] is no longer in [forward_links[-4]]: both
    halves of the symmetry are lost. *)
Theorem repair_four_way_junctions_breaks_link_symmetry
    (list_of_set : list Z -> list Z) :
  set_enumeration list_of_set ->
  link_symmetry three_starts_graph /\
  exists g',
    repair_four_way_junctions list_of_set three_starts_graph = Ok g' /\
    linked (forward_links g') 5 4 /\
    ~ linked (reverse_links g') 4 5 /\
    ~ linked (forward_links g') (-4) (-5) /\
    ~ twin_symmetric (forward_links g') /\
    ~ transposed (forward_links g') (reverse_links g').
Proof.
  intros Henum. split.
  { unfold link_symmetry, twin_symmetric, transposed, linked.
    apply (bool_decide_unpack _). vm_compute. exact I. }
  destruct (repair_three_starts list_of_set Henum)
    as (s1 & s2 & Hs & ->).
  assert (Hrun : exists g',
             bridge_junction three_starts_graph s1 s2 3 4 = Ok g' /\
             linked (forward_links g') 5 4 /\
             ~ linked (reverse_links g') 4 5 /\
             ~ linked (forward_links g') (-4) (-5)).
  { destruct Hs as [[-> ->] | [-> ->]];
      (eexists; split; [vm_compute; reflexivity |]);
      unfold linked; repeat split;
      apply (bool_decide_unpack _); vm_compute; exact I. }
  destruct Hrun as (g' & Hg' & H54 & Hrev & Htwin).
  exists g'. repeat split; try assumption.
  - intros Hsym. rewrite twin_symmetric_spec in Hsym. exact (Htwin (Hsym 5 4 H54)).
  - intros Htr. rewrite transposed_spec in Htr. apply Hrev, Htr, H54.
Qed.

Lemma repair_four_way_junctions_breaks_link_symmetry_witness :
  set_enumeration remove_dups /\
  link_symmetry three_starts_graph /\
  exists g',
    repair_four_way_junctions remove_dups three_starts_graph = Ok g' /\
    linked (forward_links g') 5 4 /\
    ~ linked (reverse_links g') 4 5 /\
    ~ linked (forward_links g') (-4) (-5) /\
    ~ twin_symmetric (forward_links g') /\
    ~ transposed (forward_links g') (reverse_links g').
Proof.
  assert (H : set_enumeration remove_dups) by (intros l; reflexivity).
  split; [exact H |].
  apply (repair_four_way_junctions_breaks_link_symmetry remove_dups H).
Defined.

(** ** Dead ends *)

Lemma dead_end_count_zero (g : AssemblyGraph) (segment : Segment) :
  dead_end_count g segment = 0 <->
  is_Some (forward_links g !! number segment) /\
  is_Some (reverse_links g !! number segment).
Proof.
  unfold dead_end_count.
  destruct (forward_links g !! number segment),
           (reverse_links g !! number segment); simpl;
    split; try lia; try (intros _; split; eauto);
    intros [[? [=]] [? [=]]] || intros [[? [=]] _] || intros [_ [? [=]]].
Qed.

Lemma dead_end_count_range (g : AssemblyGraph) (segment : Segment) :
  0 <= dead_end_count g segment <= 2.
Proof.
  unfold dead_end_count.
  destruct (forward_links g !! number segment),
           (reverse_links g !! number segment); lia.
Qed.

(** The scan of [deleting_would_create_dead_end] over neighbours whose keys
    are all present: it returns, and says whether some neighbour has a single
    link. *)
Lemma any_single_link_present (links : gmap Z (list Z)) (xs : list Z) :
  (forall x, x ∈ xs -> is_Some (links !! x)) ->
  exists b,
    any_single_link links xs = Ok b /\
    (b = true <->
     exists x l, x ∈ xs /\ links !! x = Some l /\ length l = 1%nat).
Proof.
  induction xs as [| x xs IH]; intros Hkeys; simpl.
  - exists false. split; [reflexivity |].
    split; [discriminate | intros (x & l & Hx & _); inversion Hx].
  - destruct (Hkeys x) as [l Hl]; [left |]. rewrite Hl. simpl.
    destruct (Nat.eqb_spec (length l) 1) as [Hone | Hmany].
    + exists true. split; [reflexivity |]. split; [| reflexivity].
      intros _. exists x, l. split; [left | auto].
    + destruct IH as (b & Hb & Hspec).
      { intros y Hy. apply Hkeys. now right. }
      exists b. split; [exact Hb |]. rewrite Hspec. split.
      * intros (y & l' & Hy & Hl' & Hlen). exists y, l'.
        split; [now right | auto].
      * intros (y & l' & Hy & Hl' & Hlen). exists y, l'.
        apply elem_of_cons in Hy as [-> | Hy]; [| auto].
        rewrite Hl in Hl'. injection Hl' as <-. contradiction.
Qed.

Lemma linked_is_Some (links : gmap Z (list Z)) (u v : Z) :
  linked links u v -> is_Some (links !! u).
Proof. intros (l & Hl & _)%linked_lookup. eauto. Qed.

Lemma sole_link (links : gmap Z (list Z)) (u v : Z) :
  linked links u v ->
  (links !! u = Some [v] <->
   exists l, links !! u = Some l /\ length l = 1%nat).
Proof.
  intros (l & Hl & Hv)%linked_lookup. split.
  - intros H. exists [v]. auto.
  - intros (l' & Hl' & Hlen). rewrite Hl in Hl'. injection Hl' as <-.
    destruct l as [| x [| ? ?]]; try discriminate.
    apply list_elem_of_singleton in Hv as ->. exact Hl.
Qed.

(** With both adjacency lists of the segment present and the reverse view
    the transpose of the forward view, [deleting_would_create_dead_end]
    returns, and returns what its docstring says. *)
Lemma deleting_would_create_dead_end_spec (g : AssemblyGraph)
    (segment : Segment) :
  transposed (forward_links g) (reverse_links g) ->
  dead_end_count g segment = 0 ->
  exists b,
    deleting_would_create_dead_end g segment = Ok b /\
    (b = true <-> would_create_dead_end g (number segment)).
Proof.
  intros Htr [[ds Hds] [us Hus]]%dead_end_count_zero.
  rewrite transposed_spec in Htr.
  unfold deleting_would_create_dead_end, would_create_dead_end.
  rewrite Hds, Hus. simpl.
  assert (Hdown : forall d, d ∈ ds -> linked (reverse_links g) d (number segment)).
  { intros d Hd. apply Htr, linked_lookup. eauto. }
  assert (Hup : forall u, u ∈ us -> linked (forward_links g) u (number segment)).
  { intros u Hu. apply Htr, linked_lookup. eauto. }
  destruct (any_single_link_present (reverse_links g) ds) as (b1 & Hb1 & Hs1).
  { intros d Hd. eapply linked_is_Some, Hdown, Hd. }
  destruct (any_single_link_present (forward_links g) us) as (b2 & Hb2 & Hs2).
  { intros u Hu. eapply linked_is_Some, Hup, Hu. }
  rewrite Hb1. simpl.
  assert (Hleft : b1 = true <->
                  exists d, linked (forward_links g) (number segment) d /\
                            reverse_links g !! d = Some [number segment]).
  { rewrite Hs1. split.
    - intros (d & l & Hd & Hl & Hlen). exists d. split.
      + apply linked_lookup. eauto.
      + apply sole_link; [now apply Hdown | eauto].
    - intros (d & (l & Hl & Hd)%linked_lookup & Hsole).
      rewrite Hds in Hl. injection Hl as <-.
      exists d, [number segment]. auto. }
  assert (Hright : b2 = true <->
                   exists u, linked (reverse_links g) (number segment) u /\
                             forward_links g !! u = Some [number segment]).
  { rewrite Hs2. split.
    - intros (u & l & Hu & Hl & Hlen). exists u. split.
      + apply linked_lookup. eauto.
      + apply sole_link; [now apply Hup | eauto].
    - intros (u & (l & Hl & Hu)%linked_lookup & Hsole).
      rewrite Hus in Hl. injection Hl as <-.
      exists u, [number segment]. auto. }
  destruct b1.
  - exists true. split; [reflexivity |]. split; [| reflexivity].
    intros _. left. now apply Hleft.
  - exists b2. split; [exact Hb2 |]. rewrite Hright. split; [auto |].
    intros [H | H]; [| exact H]. apply Hleft in H. discriminate.
Qed.

(** C10. [deleting_would_create_dead_end] looks up [forward_links] and
    [reverse_links] without a guard. In the test of [filter_by_read_depth] it
    runs only on a segment without dead ends: for a segment with a dead end
    the test is decided before it. Without dead ends, and with the reverse
    view the transpose of the forward view, every lookup succeeds and the
    function returns; so an exception of the test is never its [KeyError],
    but one of the lookups made before it. *)
Theorem deleting_would_create_dead_end_lookups_succeed (g : AssemblyGraph)
    (component : list Z) (whole_graph_cutoff component_cutoff : Q)
    (num : Z) (segment : Segment) :
  transposed (forward_links g) (reverse_links g) ->
  segment_at g num = Ok segment ->
  (dead_end_count g segment = 0 ->
   exists b, deleting_would_create_dead_end g segment = Ok b) /\
  (dead_end_count g segment <> 0 ->
   is_removed g component whole_graph_cutoff component_cutoff num
   = Ok (Qltb (depth segment) whole_graph_cutoff
         || Qltb (depth segment) component_cutoff)) /\
  (forall e,
      is_removed g component whole_graph_cutoff component_cutoff num = Raise e ->
      all_segments_below_depth g component whole_graph_cutoff = Raise e).
Proof.
  intros Htr Hseg. split; [| split].
  - intros Hdead.
    destruct (deleting_would_create_dead_end_spec g segment Htr Hdead)
      as (b & Hb & _). eauto.
  - intros Hdead. unfold is_removed. rewrite Hseg. simpl.
    pose proof (dead_end_count_range g segment) as Hrange.
    destruct (Z.ltb_spec 0 (dead_end_count g segment)); [| lia].
    now destruct (_ || _).
  - intros e. unfold is_removed. rewrite Hseg. simpl.
    destruct (_ || _); [| discriminate].
    destruct (Z.ltb_spec 0 (dead_end_count g segment)) as [| Hzero];
      [discriminate |].
    destruct (all_segments_below_depth g component whole_graph_cutoff)
      as [[|] |]; simpl; try discriminate; [| auto].
    pose proof (dead_end_count_range g segment) as Hrange.
    destruct (deleting_would_create_dead_end_spec g segment Htr)
      as (b & -> & _); [lia | discriminate].
Qed.

Lemma deleting_would_create_dead_end_lookups_succeed_witness :
  let segment := mkSegment 2 20 "AAATT" "AATTT" in
  transposed (forward_links linear_graph) (reverse_links linear_graph) /\
  segment_at linear_graph 2 = Ok segment /\
  (dead_end_count linear_graph segment = 0 ->
   exists b, deleting_would_create_dead_end linear_graph segment = Ok b) /\
  (dead_end_count linear_graph segment <> 0 ->
   is_removed linear_graph [1; 2; 3] 25 25 2
   = Ok (Qltb (depth segment) 25 || Qltb (depth segment) 25)) /\
  (forall e,
      is_removed linear_graph [1; 2; 3] 25 25 2 = Raise e ->
      all_segments_below_depth linear_graph [1; 2; 3] 25 = Raise e).
Proof.
  intros segment.
  assert (Htr : transposed (forward_links linear_graph)
                           (reverse_links linear_graph)).
  { unfold transposed, linked. apply (bool_decide_unpack _). vm_compute.
    exact I. }
  assert (Hseg : segment_at linear_graph 2 = Ok segment) by reflexivity.
  split; [exact Htr |]. split; [exact Hseg |].
  exact (deleting_would_create_dead_end_lookups_succeed
           linear_graph [1; 2; 3] 25 25 2 segment Htr Hseg).
Defined.

(** ** Connected components *)

Section Components.
Variable list_of_set : list Z -> list Z.
Hypothesis Henum : set_enumeration list_of_set.
Variable g : AssemblyGraph.
Hypothesis Hclosed : links_closed g.

Lemma connected_segments_are_segments (w k : Z) :
  k ∈ get_connected_segments list_of_set g w -> k ∈ dict_keys (segments g).
Proof.
  unfold get_connected_segments. rewrite (Henum _), elem_of_remove_dups.
  destruct Hclosed as [Hfwd Hrev].
  intros [Hk | Hk]%elem_of_app.
  - destruct (forward_links g !! w) as [l |] eqn:Hl; [| inversion Hk].
    apply list_elem_of_In, in_map_iff in Hk as (v & <- & Hv%list_elem_of_In).
    specialize (Hfwd w l Hl). rewrite Forall_forall in Hfwd. auto.
  - destruct (reverse_links g !! w) as [l |] eqn:Hl; [| inversion Hk].
    apply list_elem_of_In, in_map_iff in Hk as (v & <- & Hv%list_elem_of_In).
    specialize (Hrev w l Hl). rewrite Forall_forall in Hrev. auto.
Qed.

Lemma visit_search_state (done : list Z) (visited : gset Z) (q : list Z)
    (k : Z) :
  k ∈ dict_keys (segments g) ->
  search_state (dict_keys (segments g)) done visited q ->
  search_state (dict_keys (segments g)) done
               (fst (visit (visited, q) k)) (snd (visit (visited, q) k)) /\
  exists new, snd (visit (visited, q) k) = q ++ new.
Proof.
  intros Hk (Hnodup & Hvis & Hkeys). unfold visit.
  case_bool_decide as Hin; simpl.
  - split; [repeat split; auto; apply Hvis |]. exists []. now rewrite app_nil_r.
  - split; [| eauto]. unfold search_state. rewrite app_assoc. repeat split.
    + apply NoDup_app. split; [exact Hnodup |]. split; [| apply NoDup_singleton].
      intros x Hx ->%list_elem_of_singleton. apply Hin, Hvis, Hx.
    + rewrite elem_of_union, elem_of_singleton, elem_of_app,
        list_elem_of_singleton, Hvis. tauto.
    + rewrite elem_of_union, elem_of_singleton, elem_of_app,
        list_elem_of_singleton, Hvis. tauto.
    + intros x [Hx | ->%list_elem_of_singleton]%elem_of_app; auto.
Qed.

Lemma fold_visit_search_state (done ks : list Z) :
  (forall k, k ∈ ks -> k ∈ dict_keys (segments g)) ->
  forall (visited : gset Z) (q : list Z),
    search_state (dict_keys (segments g)) done visited q ->
    search_state (dict_keys (segments g)) done
                 (fst (fold_left visit ks (visited, q)))
                 (snd (fold_left visit ks (visited, q))) /\
    exists new, snd (fold_left visit ks (visited, q)) = q ++ new.
Proof.
  induction ks as [| k ks IH]; intros Hks visited q Hstate; cbn [fold_left].
  - split; [exact Hstate |]. exists []. simpl. now rewrite app_nil_r.
  - destruct (visit_search_state done visited q k) as (Hstep & new1 & Hq1);
      [apply Hks; left | exact Hstate |].
    destruct (visit (visited, q) k) as [visited1 q1] eqn:Hvisit.
    simpl in Hstep, Hq1.
    destruct (IH (fun k' Hk' => Hks k' (list_elem_of_further _ _ _ Hk'))
                 visited1 q1 Hstep) as (Hrest & new2 & Hq2).
    split; [exact Hrest |]. exists (new1 ++ new2).
    now rewrite Hq2, Hq1, app_assoc.
Qed.

Lemma search_state_length (done : list Z) (visited : gset Z) (q : list Z) :
  search_state (dict_keys (segments g)) done visited q ->
  (length done + length q <= length (segments g))%nat.
Proof.
  intros (Hnodup & _ & Hkeys).
  rewrite <- length_app, <- (length_map fst (segments g)).
  apply submseteq_length, NoDup_submseteq; assumption.
Qed.

(** The search from a queue ends within the fuel, and extends [done] by one
    component that takes in the whole queue. *)
Lemma component_from_spec (old : list Z) (fuel : nat) :
  forall (visited : gset Z) (q component : list Z),
    search_state (dict_keys (segments g)) (old ++ component) visited q ->
    (length (segments g) <= fuel + length (old ++ component))%nat ->
    exists visited' component',
      component_from list_of_set fuel g visited q component
      = Ok (visited', component') /\
      search_state (dict_keys (segments g)) (old ++ component') visited' [] /\
      (forall x, x ∈ component ++ q -> x ∈ component').
Proof.
  induction fuel as [| fuel IH]; intros visited q component Hstate Hfuel.
  - destruct q as [| w q].
    + simpl. exists visited, component. rewrite app_nil_r. auto.
    + apply search_state_length in Hstate. simpl in Hstate. lia.
  - destruct q as [| w q].
    + simpl. exists visited, component. rewrite app_nil_r. auto.
    + simpl.
      assert (Hpop : search_state (dict_keys (segments g))
                                  (old ++ component ++ [w]) visited q).
      { rewrite app_assoc.
        destruct Hstate as (Hnodup & Hvis & Hkeys).
        repeat split; rewrite <- ?(assoc_L app _ [w] q); simpl; auto;
          apply Hvis. }
      destruct (fold_visit_search_state (old ++ component ++ [w])
                  (get_connected_segments list_of_set g w)
                  (connected_segments_are_segments w) visited q Hpop)
        as (Hnext & new & Hq).
      destruct (fold_left visit _ (visited, q)) as [visited1 q1].
      simpl in Hnext, Hq. subst q1.
      destruct (IH visited1 (q ++ new) (component ++ [w]) Hnext)
        as (visited' & component' & Hrun & Hend & Hsub).
      { rewrite !length_app in *. simpl. lia. }
      exists visited', component'. split; [exact Hrun |].
      split; [exact Hend |]. intros x Hx. apply Hsub.
      rewrite !elem_of_app in *. rewrite list_elem_of_singleton.
      rewrite elem_of_cons in Hx. tauto.
Qed.

Lemma component_fuel_enough :
  (length (segments g) <= component_fuel g)%nat.
Proof. unfold component_fuel. lia. Qed.

Lemma components_over_spec (nums : list Z) :
  forall (visited : gset Z) (components : list (list Z)),
    search_state (dict_keys (segments g)) (concat components) visited [] ->
    (forall v, v ∈ nums -> v ∈ dict_keys (segments g)) ->
    exists components',
      components_over list_of_set g nums visited components = Ok components' /\
      NoDup (concat components') /\
      (forall x, x ∈ concat components' -> x ∈ dict_keys (segments g)) /\
      (forall x, x ∈ nums \/ x ∈ concat components -> x ∈ concat components').
Proof.
  induction nums as [| v nums IH]; intros visited components Hstate Hnums.
  - simpl. exists components. destruct Hstate as (Hnodup & _ & Hkeys).
    rewrite app_nil_r in *. repeat split; auto.
    intros x [Hx | Hx]; [inversion Hx | exact Hx].
  - simpl. case_bool_decide as Hseen.
    + destruct (IH visited components Hstate) as (components' & Hrun & Hrest).
      { intros v' Hv'. apply Hnums. now right. }
      exists components'. split; [exact Hrun |].
      destruct Hrest as (Hnodup & Hkeys & Hcover). repeat split; auto.
      intros x [[-> | Hx]%elem_of_cons | Hx]; auto.
      apply Hcover. right. destruct Hstate as (_ & Hvis & _).
      apply Hvis in Hseen. now rewrite app_nil_r in Hseen.
    + destruct (component_from_spec (concat components)
                  (component_fuel g) ({[v]} ∪ visited) [v] [])
        as (visited' & component & Hrun & Hend & Hsub).
      { rewrite app_nil_r. destruct Hstate as (Hnodup & Hvis & Hkeys).
        rewrite app_nil_r in *. repeat split.
        - apply NoDup_app. split; [exact Hnodup |].
          split; [| apply NoDup_singleton].
          intros x Hx ->%list_elem_of_singleton. apply Hseen, Hvis, Hx.
        - rewrite elem_of_union, elem_of_singleton, elem_of_app,
            list_elem_of_singleton, Hvis. tauto.
        - rewrite elem_of_union, elem_of_singleton, elem_of_app,
            list_elem_of_singleton, Hvis. tauto.
        - intros x [Hx | ->%list_elem_of_singleton]%elem_of_app; auto.
          apply Hnums. left. }
      { pose proof component_fuel_enough. lia. }
      rewrite Hrun. simpl.
      assert (Hconcat : concat (components ++ [component])
                        = concat components ++ component).
      { rewrite concat_app. simpl. now rewrite app_nil_r. }
      destruct (IH visited' (components ++ [component]))
        as (components' & Hrun' & Hnodup & Hkeys & Hcover).
      { now rewrite Hconcat. }
      { intros v' Hv'. apply Hnums. now right. }
      exists components'. split; [exact Hrun' |]. repeat split; auto.
      intros x Hx. apply Hcover. rewrite Hconcat, elem_of_app.
      destruct Hx as [[-> | Hx]%elem_of_cons | Hx]; auto.
      right. right. apply Hsub. left.
Qed.

(** [get_connected_components] returns, and its components partition the
    segment numbers. *)
Lemma get_connected_components_spec :
  exists components,
    get_connected_components list_of_set g = Ok components /\
    NoDup (concat components) /\
    (forall x, x ∈ concat components <-> x ∈ dict_keys (segments g)).
Proof.
  destruct (components_over_spec (dict_keys (segments g)) ∅ [])
    as (components & Hrun & Hnodup & Hkeys & Hcover).
  { repeat split; simpl; try apply NoDup_nil_2; try set_solver. }
  { auto. }
  exists components. split; [exact Hrun |]. split; [exact Hnodup |].
  intros x. split; auto.
Qed.

End Components.

(** ** The depth filter *)

Lemma Qltb_lt (x y : Q) : Qltb x y = true <-> (x < y)%Q.
Proof.
  unfold Qltb. rewrite negb_true_iff, <- not_true_iff_false, Qle_bool_iff.
  split; [apply Qnot_le_lt | apply Qlt_not_le].
Qed.

Lemma Qltb_or (x a b : Q) :
  Qltb x a || Qltb x b = true <-> (x < a)%Q \/ (x < b)%Q.
Proof. now rewrite orb_true_iff, !Qltb_lt. Qed.

Lemma mapM_Ok {A B} (f : A -> result B) (l : list A) :
  (forall x, x ∈ l -> exists y, f x = Ok y) ->
  exists ys, mapM f l = Ok ys /\ Forall2 (fun x y => f x = Ok y) l ys.
Proof.
  induction l as [| x l IH]; intros Hall; simpl.
  - exists []. split; [reflexivity | constructor].
  - destruct (Hall x) as [y Hy]; [left |].
    destruct IH as (ys & Hys & Hrel); [intros; apply Hall; now right |].
    rewrite Hy, Hys. simpl. exists (y :: ys). split; [reflexivity |].
    now constructor.
Qed.

Lemma filterM_Ok {A} (f : A -> result bool) (l : list A) :
  (forall x, x ∈ l -> exists b, f x = Ok b) ->
  exists r, filterM f l = Ok r /\ forall x, x ∈ r <-> x ∈ l /\ f x = Ok true.
Proof.
  induction l as [| x l IH]; intros Hall; simpl.
  - exists []. split; [reflexivity |]. intros x. split.
    + intros H. inversion H.
    + intros [H _]. inversion H.
  - destruct (Hall x) as [b Hb]; [left |].
    destruct IH as (r & Hr & Hspec); [intros; apply Hall; now right |].
    rewrite Hb, Hr. simpl. destruct b.
    + exists (x :: r). split; [reflexivity |]. intros y.
      rewrite !elem_of_cons, Hspec. split; [| tauto].
      intros [-> | [? ?]]; auto.
    + exists r. split; [reflexivity |]. intros y.
      rewrite elem_of_cons, Hspec. split; [tauto |].
      intros [[-> | ?] Hy]; [congruence | auto].
Qed.

Lemma elem_of_concat_mapM {A B} (f : A -> result (list B)) (l : list A)
    (ys : list (list B)) (y : B) :
  Forall2 (fun x r => f x = Ok r) l ys ->
  y ∈ concat ys <-> exists x r, x ∈ l /\ f x = Ok r /\ y ∈ r.
Proof.
  induction 1 as [| x r l ys Hx _ IH]; simpl.
  - split; [intros H; inversion H | intros (? & ? & H & _); inversion H].
  - rewrite elem_of_app, IH. split.
    + intros [Hy | (x' & r' & Hx' & Hr' & Hy)].
      * exists x, r. split; [left | auto].
      * exists x', r'. split; [now right | auto].
    + intros (x' & r' & [-> | Hx']%elem_of_cons & Hr' & Hy).
      * left. rewrite Hx in Hr'. now injection Hr' as <-.
      * right. eauto.
Qed.

Lemma dict_keys_get {V} (d : list (Z * V)) (k : Z) :
  k ∈ dict_keys d <-> is_Some (dict_get d k).
Proof.
  induction d as [| [k' v] d IH]; simpl.
  - split; [intros H; inversion H | intros [? [=]]].
  - rewrite elem_of_cons, IH. case_decide as Heq; split; eauto.
    intros [-> | H]; [contradiction | exact H].
Qed.

Lemma dict_get_elem_of {V} (d : list (Z * V)) (k : Z) (v : V) :
  dict_get d k = Some v -> (k, v) ∈ d.
Proof.
  induction d as [| [k' v'] d IH]; simpl; [discriminate |].
  case_decide as Heq.
  - intros [= <-]. subst. left.
  - intros H. right. auto.
Qed.

Lemma segment_at_Ok (g : AssemblyGraph) (num : Z) (seg : Segment) :
  segment_at g num = Ok seg <-> dict_get (segments g) num = Some seg.
Proof.
  unfold segment_at, getitem. destruct (dict_get (segments g) num);
    split; congruence.
Qed.

Lemma segment_at_key (g : AssemblyGraph) (num : Z) :
  num ∈ dict_keys (segments g) -> exists seg, segment_at g num = Ok seg.
Proof.
  intros [seg Hseg]%dict_keys_get. exists seg. now apply segment_at_Ok.
Qed.

Lemma numbered_segment (g : AssemblyGraph) (num : Z) (seg : Segment) :
  segments_numbered g -> dict_get (segments g) num = Some seg ->
  number seg = num.
Proof.
  intros Hnum Hseg%dict_get_elem_of. unfold segments_numbered in Hnum.
  rewrite Forall_forall in Hnum. exact (Hnum _ Hseg).
Qed.

Lemma all_segments_below_depth_spec (g : AssemblyGraph) (nums : list Z)
    (cutoff : Q) :
  (forall x, x ∈ nums -> x ∈ dict_keys (segments g)) ->
  exists b,
    all_segments_below_depth g nums cutoff = Ok b /\
    (b = true <-> component_below g nums cutoff).
Proof.
  unfold all_segments_below_depth, component_below.
  induction nums as [| num nums IH]; intros Hkeys.
  - exists true. split; [reflexivity |]. split; [| reflexivity].
    intros _ x seg Hx. inversion Hx.
  - destruct (segment_at_key g num) as [seg Hseg]; [apply Hkeys; left |].
    rewrite Hseg. simpl. pose proof Hseg as Hget%segment_at_Ok.
    destruct (Qltb (depth seg) cutoff) eqn:Hlt.
    + destruct IH as (b & Hb & Hspec); [intros; apply Hkeys; now right |].
      exists b. split; [exact Hb |]. rewrite Hspec. split.
      * intros Hrest x seg' [-> | Hx]%elem_of_cons Hseg'; [| eauto].
        rewrite Hget in Hseg'. injection Hseg' as <-. now apply Qltb_lt.
      * intros Hall x seg' Hx. apply Hall. now right.
    + exists false. split; [reflexivity |]. split; [discriminate |].
      intros Hall. specialize (Hall num seg (list_elem_of_here _ _) Hget).
      apply Qltb_lt in Hall. congruence.
Qed.

(** What the test of [filter_by_read_depth] returns on a segment of a
    component whose numbers are all segment numbers. *)
Lemma is_removed_spec (g : AssemblyGraph) (component : list Z)
    (whole_graph_cutoff component_cutoff : Q) (num : Z) (segment : Segment) :
  transposed (forward_links g) (reverse_links g) ->
  segments_numbered g ->
  (forall x, x ∈ component -> x ∈ dict_keys (segments g)) ->
  dict_get (segments g) num = Some segment ->
  exists b,
    is_removed g component whole_graph_cutoff component_cutoff num = Ok b /\
    (b = true <->
     ((depth segment < whole_graph_cutoff)%Q \/
      (depth segment < component_cutoff)%Q) /\
     (1 <= dead_end_count g segment \/
      component_below g component whole_graph_cutoff \/
      ~ would_create_dead_end g num)).
Proof.
  intros Htr Hnum Hkeys Hseg. unfold is_removed.
  rewrite (proj2 (segment_at_Ok g num segment) Hseg). simpl.
  destruct (Qltb (depth segment) whole_graph_cutoff
            || Qltb (depth segment) component_cutoff) eqn:Hbelow.
  2: { exists false. split; [reflexivity |]. split; [discriminate |].
       intros [Hlt%Qltb_or _]. congruence. }
  apply Qltb_or in Hbelow.
  destruct (Z.ltb_spec 0 (dead_end_count g segment)) as [Hdead | Hdead].
  { exists true. split; [reflexivity |]. split; [| reflexivity].
    intros _. split; [exact Hbelow | left; lia]. }
  pose proof (dead_end_count_range g segment) as Hrange.
  destruct (all_segments_below_depth_spec g component whole_graph_cutoff Hkeys)
    as (all_below & -> & Hall). simpl.
  destruct all_below.
  { exists true. split; [reflexivity |]. split; [| reflexivity].
    intros _. split; [exact Hbelow | right; left; now apply Hall]. }
  destruct (deleting_would_create_dead_end_spec g segment Htr)
    as (dead_end & -> & Hspec); [lia |]. simpl.
  rewrite (numbered_segment g num segment Hnum Hseg) in Hspec.
  exists (negb dead_end). split; [reflexivity |].
  rewrite negb_true_iff, <- not_true_iff_false, Hspec. split.
  - intros Hno. split; [exact Hbelow | auto].
  - intros [_ [Hd | [Hc | Hno]]]; [lia | | exact Hno].
    apply Hall in Hc. discriminate.
Qed.

Lemma elem_of_concat {A} (ls : list (list A)) (x : A) :
  x ∈ concat ls <-> exists l, l ∈ ls /\ x ∈ l.
Proof.
  rewrite list_elem_of_In, in_concat. split; intros (l & Hl & Hx); exists l.
  - now rewrite !list_elem_of_In.
  - now rewrite <- !list_elem_of_In.
Qed.

(** In a partition a number belongs to one part only. *)
Lemma NoDup_concat_unique {A} (ls : list (list A)) (l1 l2 : list A) (x : A) :
  NoDup (concat ls) -> l1 ∈ ls -> l2 ∈ ls -> x ∈ l1 -> x ∈ l2 -> l1 = l2.
Proof.
  induction ls as [| l ls IH]; simpl; intros Hnodup H1 H2 Hx1 Hx2.
  - inversion H1.
  - apply NoDup_app in Hnodup as (_ & Hdisj & Hrest).
    apply elem_of_cons in H1 as [-> | H1], H2 as [-> | H2]; auto.
    + exfalso. apply (Hdisj x Hx1), elem_of_concat. eauto.
    + exfalso. apply (Hdisj x Hx2), elem_of_concat. eauto.
Qed.

Lemma dict_keys_filter {V} (d : list (Z * V)) (nums : list Z) (k : Z) :
  k ∈ dict_keys (filter (fun kv => fst kv ∉ nums) d) <->
  k ∈ dict_keys d /\ k ∉ nums.
Proof.
  unfold dict_keys. induction d as [| [k' v] d IH].
  - simpl. split; [intros H; inversion H | intros [H _]; inversion H].
  - rewrite filter_cons. simpl. case_decide as Hkeep; simpl in *.
    + rewrite !elem_of_cons, IH. split; [| tauto].
      intros [-> | [? ?]]; auto.
    + rewrite elem_of_cons, IH. split; [tauto |].
      intros [[-> | ?] Hnot]; [| auto]. exfalso. tauto.
Qed.

Lemma component_removals_spec (g : AssemblyGraph) (r whole_graph_cutoff : Q)
    (component : list Z) :
  transposed (forward_links g) (reverse_links g) ->
  segments_numbered g ->
  (forall x, x ∈ component -> x ∈ dict_keys (segments g)) ->
  exists component_segs removals,
    mapM (segment_at g) component = Ok component_segs /\
    component_removals g r whole_graph_cutoff component = Ok removals /\
    forall x,
      x ∈ removals <->
      x ∈ component /\
      is_removed g component whole_graph_cutoff
                 (get_median_read_depth g component_segs * r)%Q x = Ok true.
Proof.
  intros Htr Hnum Hkeys.
  destruct (mapM_Ok (segment_at g) component) as (segs & Hsegs & _).
  { intros x Hx. apply segment_at_key, Hkeys, Hx. }
  unfold component_removals. rewrite Hsegs. simpl.
  destruct (filterM_Ok
              (is_removed g component whole_graph_cutoff
                          (get_median_read_depth g segs * r)%Q) component)
    as (removals & Hrun & Hspec).
  { intros x Hx. destruct (proj1 (dict_keys_get _ _) (Hkeys x Hx)) as [seg Hseg].
    destruct (is_removed_spec g component whole_graph_cutoff
                (get_median_read_depth g segs * r)%Q x seg Htr Hnum Hkeys Hseg)
      as (b & Hb & _). eauto. }
  exists segs, removals. auto.
Qed.

Section DepthFilter.
Variable list_of_set : list Z -> list Z.
Hypothesis Henum : set_enumeration list_of_set.


End DepthFilter.

(** The depth-filter scenario: with cutoff [0.1] the shallow segment 3, which
    has a dead end, is the one segment removed. *)
Example filter_by_read_depth_dead_end :
  exists g',
    filter_by_read_depth remove_dups dead_end_graph (1 # 10) = Ok g' /\
    dict_keys (segments g') = [1; 2; 4].
Proof. eexists. split; vm_compute; reflexivity. Qed.


(** ** Sorting *)

Section SortingFacts.
Context {A : Type} (leb : A -> A -> bool) (R : A -> A -> Prop).
Hypothesis leb_true : forall x y, leb x y = true -> R x y.
Hypothesis leb_false : forall x y, leb x y = false -> R y x.

Lemma insert_sorted_perm (x : A) (l : list A) :
  insert_sorted leb x l ≡ₚ x :: l.
Proof.
  induction l as [| y l IH]; simpl; [reflexivity |].
  destruct (leb x y); [reflexivity |].
  rewrite IH. apply Permutation_swap.
Qed.

Lemma sorted_perm (l : list A) : sorted leb l ≡ₚ l.
Proof.
  induction l as [| x l IH]; simpl; [reflexivity |].
  now rewrite insert_sorted_perm, IH.
Qed.

Lemma insert_sorted_Sorted (x : A) (l : list A) :
  Sorted R l -> Sorted R (insert_sorted leb x l).
Proof.
  induction 1 as [| y l Hsorted IH Hhd]; simpl.
  - repeat constructor.
  - destruct (leb x y) eqn:Hxy.
    + constructor; [now constructor | constructor; auto].
    + constructor; [exact IH |].
      destruct l as [| z l]; simpl.
      * constructor. auto.
      * destruct (leb x z); constructor; auto. now inversion Hhd.
Qed.

Lemma sorted_Sorted (l : list A) : Sorted R (sorted leb l).
Proof.
  induction l as [| x l IH]; simpl; [constructor |].
  now apply insert_sorted_Sorted.
Qed.
End SortingFacts.

Lemma sorted_descending_spec (l : list Q) :
  Sorted (fun a b => (b <= a)%Q) (sorted_descending l) /\
  sorted_descending l ≡ₚ l.
Proof.
  split; [| apply sorted_perm].
  apply sorted_Sorted.
  - intros x y Hxy. now apply Qle_bool_iff.
  - intros x y Hxy.
    destruct (Qlt_le_dec x y) as [Hlt | Hle]; [apply Qlt_le_weak, Hlt |].
    apply Qle_bool_iff in Hle. congruence.
Qed.

(** ** Extended reals *)

Lemma xlt_irrefl (a : xreal) : xlt a a = false.
Proof.
  destruct a as [x |]; simpl; [| reflexivity].
  apply not_true_iff_false. rewrite Qltb_lt. apply Qlt_irrefl.
Qed.

(** [a < b] and [b <= c] give [a <= c]. *)
Lemma xreal_lt_le (a b c : xreal) :
  xreal_lt a b -> xreal_le b c -> xreal_le a c.
Proof.
  unfold xreal_lt, xreal_le.
  destruct a as [x |], b as [y |], c as [z |]; simpl; try congruence.
  rewrite <- !not_true_iff_false, !Qltb_lt.
  intros Hxy Hyz Hzx. apply Hyz. eapply Qlt_trans; eassumption.
Qed.

(** [a <= b] and [b <= c] give [a <= c]. *)
Lemma xreal_le_trans (a b c : xreal) :
  xreal_le a b -> xreal_le b c -> xreal_le a c.
Proof.
  unfold xreal_le.
  destruct a as [x |], b as [y |], c as [z |]; simpl; try congruence.
  rewrite <- !not_true_iff_false, !Qltb_lt.
  intros Hyx Hzy Hzx. apply Qnot_lt_le in Hyx, Hzy.
  apply (Qlt_irrefl z). eapply Qlt_le_trans; [exact Hzx |].
  eapply Qle_trans; eassumption.
Qed.

Lemma xreal_le_Inf (a : xreal) : xreal_le Inf a -> a = Inf.
Proof. unfold xreal_le. now destruct a. Qed.

(** ** Copy depths *)

Lemma fold_Qplus_pos (l : list Q) :
  Forall (fun x => Qltb 0 x = true) l ->
  forall a, (0 <= a)%Q -> (l <> [] \/ (0 < a)%Q) ->
  (0 < fold_left Qplus l a)%Q.
Proof.
  induction 1 as [| x l Hx _ IH]; intros a Ha Hne; simpl.
  - destruct Hne as [Hne | Hpos]; [congruence | exact Hpos].
  - apply Qltb_lt in Hx.
    assert (Hpos : (0 < a + x)%Q).
    { apply Qlt_le_trans with (y := x); [exact Hx |].
      rewrite <- (Qplus_0_l x) at 1. apply Qplus_le_l. exact Ha. }
    apply IH; [apply Qlt_le_weak, Hpos | right; exact Hpos].
Qed.

Lemma Qsum_pos (l : list Q) :
  Forall (fun x => Qltb 0 x = true) l -> l <> [] -> (0 < Qsum l)%Q.
Proof.
  intros Hall Hne. apply fold_Qplus_pos; [exact Hall | apply Qle_refl | auto].
Qed.

Lemma dict_get_NoDup {V} (d : list (Z * V)) (k : Z) (v : V) :
  NoDup (dict_keys d) -> (k, v) ∈ d -> dict_get d k = Some v.
Proof.
  induction d as [| [k' v'] d IH]; simpl; intros Hnodup Hin.
  - inversion Hin.
  - apply NoDup_cons in Hnodup as [Hfresh Hnodup].
    apply elem_of_cons in Hin as [[= -> ->] | Hin].
    + now rewrite decide_True.
    + rewrite decide_False; [auto |]. intros ->. apply Hfresh.
      apply list_elem_of_In, in_map_iff. exists (k, v).
      split; [reflexivity | now apply list_elem_of_In].
Qed.

Section MergeCopyDepths.
Variable g : AssemblyGraph.
Hypothesis Hpositive : segments_positive g.
Hypothesis Hnumbered : segments_numbered g.
Hypothesis Hdepths : copy_depths_positive g.

Lemma segment_at_value (segment : Segment) :
  segment ∈ dict_values (segments g) ->
  segment_at g (number segment) = Ok segment /\ 0 < number segment.
Proof.
  intros Hin. apply list_elem_of_In, in_map_iff in Hin as ([k seg] & Heq & Hin).
  simpl in Heq. subst seg. apply list_elem_of_In in Hin.
  destruct Hpositive as [Hnodup Hpos].
  unfold segments_numbered in Hnumbered.
  rewrite Forall_forall in Hnumbered, Hpos.
  pose proof (Hnumbered _ Hin) as Hk. pose proof (Hpos _ Hin) as Hk0.
  simpl in Hk, Hk0. subst k. split; [| exact Hk0].
  apply segment_at_Ok, dict_get_NoDup; assumption.
Qed.

Lemma source_depths_mapM (sources : list Z) :
  (forall x, x ∈ sources -> is_Some (copy_depths g !! x)) ->
  mapM (fun num => getitem (copy_depths g !! num)) sources
  = Ok (map (fun num => default [] (copy_depths g !! num)) sources).
Proof.
  induction sources as [| x sources IH]; intros Hall; simpl; [reflexivity |].
  destruct (Hall x) as [l Hl]; [left |]. rewrite Hl. simpl.
  rewrite IH; [reflexivity |]. intros y Hy. apply Hall. now right.
Qed.

Lemma source_depths_positive (sources : list Z) :
  sources <> [] ->
  (forall x, x ∈ sources -> is_Some (copy_depths g !! x)) ->
  (0 < Qsum (source_depths g sources))%Q.
Proof.
  intros Hne Hall. apply Qsum_pos; unfold source_depths.
  - induction sources as [| x sources IH]; simpl; [constructor |].
    apply Forall_app. split.
    + destruct (Hall x) as [l Hl]; [left |]. rewrite Hl. simpl.
      exact (proj2 (Hdepths x l Hl)).
    + destruct sources as [| y sources]; [constructor |].
      apply IH; [discriminate |]. intros z Hz. apply Hall. now right.
  - destruct sources as [| x sources]; [congruence |]. simpl.
    destruct (Hall x) as [l Hl]; [left |]. rewrite Hl. simpl.
    pose proof (proj1 (Hdepths x l Hl)) as Hl_ne.
    destruct l; [congruence | discriminate].
Qed.

(** On a candidate the scaling returns: the scaled vector in descending
    order, and the candidate's error. *)
Lemma scale_copy_depths_from_source_segments_spec (segment : Segment)
    (sources : list Z) :
  segment ∈ dict_values (segments g) ->
  sources <> [] ->
  (forall x, x ∈ sources -> is_Some (copy_depths g !! x)) ->
  scale_copy_depths_from_source_segments g (number segment) sources
  = Ok (sorted_descending (scaled_depths g segment sources),
        candidate_error g segment sources).
Proof.
  intros Hin Hne Hall. unfold scale_copy_depths_from_source_segments.
  rewrite (source_depths_mapM sources Hall). simpl.
  rewrite (proj1 (segment_at_value segment Hin)). simpl.
  unfold scale_copy_depths. fold (source_depths g sources).
  pose proof (source_depths_positive sources Hne Hall) as Hsum.
  destruct (Qeq_bool (Qsum (source_depths g sources)) 0) eqn:Hzero;
    [| reflexivity].
  apply Qeq_bool_iff in Hzero. rewrite Hzero in Hsum.
  now apply Qlt_irrefl in Hsum.
Qed.

Lemma possible_spec (sources : list Z) :
  negb (bool_decide (sources = [])) && all_have_copy_depths g sources = true
  <-> sources <> [] /\ (forall x, x ∈ sources -> is_Some (copy_depths g !! x)).
Proof.
  unfold all_have_copy_depths.
  rewrite andb_true_iff, negb_true_iff, bool_decide_eq_false, forallb_forall.
  split; intros [Hne Hall]; (split; [exact Hne |]).
  - intros x Hx%list_elem_of_In. exact (bool_decide_eq_true_1 _ (Hall x Hx)).
  - intros x Hx%list_elem_of_In. apply bool_decide_eq_true_2, Hall, Hx.
Qed.

Lemma consider_spec (covered : Segment -> list Z -> Prop)
    (segment : Segment) (possible : bool) (sources : list Z)
    (best : best_so_far) :
  segment ∈ dict_values (segments g) ->
  (possible = true ->
   sources <> [] /\ forall x, x ∈ sources -> is_Some (copy_depths g !! x)) ->
  best_of g covered best ->
  exists best',
    consider g (number segment) possible sources best = Ok best' /\
    best_of g (fun s l => covered s l \/
                          (possible = true /\ s = segment /\ l = sources))
            best'.
Proof.
  intros Hin Hposs [Hlow Hbest]. unfold consider. destruct possible.
  2: { exists best. split; [reflexivity |]. split.
       - intros s l [Hc | (Hf & _)]; [auto | discriminate].
       - destruct Hbest as [-> | (s & l & Hc & ->)]; [now left |].
         right. exists s, l. auto. }
  destruct (Hposs eq_refl) as [Hne Hall].
  rewrite (scale_copy_depths_from_source_segments_spec segment sources Hin Hne Hall).
  simpl.
  destruct (xlt (candidate_error g segment sources) (lowest_error best)) eqn:Hlt.
  - eexists. split; [reflexivity |]. split; simpl.
    + intros s l [Hc | (_ & -> & ->)].
      * eapply xreal_lt_le; [exact Hlt | auto].
      * apply xlt_irrefl.
    + right. exists segment, sources. auto.
  - exists best. split; [reflexivity |]. split.
    + intros s l [Hc | (_ & -> & ->)]; [auto | exact Hlt].
    + destruct Hbest as [-> | (s & l & Hc & ->)]; [now left |].
      right. exists s, l. auto.
Qed.

Lemma best_of_ext (covered covered' : Segment -> list Z -> Prop)
    (best : best_so_far) :
  (forall s l, covered s l <-> covered' s l) ->
  best_of g covered best -> best_of g covered' best.
Proof.
  intros Hext [Hlow Hbest]. split.
  - intros s l Hc. apply Hlow, Hext, Hc.
  - destruct Hbest as [-> | (s & l & Hc & ->)]; [now left |].
    right. exists s, l. split; [now apply Hext | reflexivity].
Qed.

Lemma merge_copy_depths_step_spec (done : list Segment) (segment : Segment)
    (best : best_so_far) :
  segment ∈ dict_values (segments g) ->
  best_of g (fun s l => s ∈ done /\ sources_of g s l) best ->
  exists best',
    merge_copy_depths_step g best segment = Ok best' /\
    best_of g (fun s l => s ∈ done ++ [segment] /\ sources_of g s l) best'.
Proof.
  intros Hin Hbest. unfold merge_copy_depths_step.
  destruct (consider_spec _ segment _ (get_exclusive_inputs g (number segment))
              best Hin (proj1 (possible_spec _)) Hbest)
    as (best1 & -> & Hbest1). simpl.
  destruct (consider_spec _ segment _ (get_exclusive_outputs g (number segment))
              best1 Hin (proj1 (possible_spec _)) Hbest1)
    as (best2 & -> & Hbest2).
  exists best2. split; [reflexivity |].
  eapply best_of_ext; [| exact Hbest2]. intros s l. simpl.
  rewrite elem_of_app, list_elem_of_singleton, !possible_spec.
  unfold sources_of. split.
  - intros [[[Hs Hsrc] | (Hposs & -> & ->)] | (Hposs & -> & ->)]; tauto.
  - intros [[Hs | ->] ([-> | ->] & Hne & Hall)]; tauto.
Qed.

Lemma merge_copy_depths_loop_spec (todo : list Segment) :
  forall (done : list Segment) (best : best_so_far),
    (forall s, s ∈ todo -> s ∈ dict_values (segments g)) ->
    best_of g (fun s l => s ∈ done /\ sources_of g s l) best ->
    exists best',
      merge_copy_depths_loop g best todo = Ok best' /\
      best_of g (fun s l => s ∈ done ++ todo /\ sources_of g s l) best'.
Proof.
  induction todo as [| segment todo IH]; intros done best Hin Hbest; simpl.
  - exists best. split; [reflexivity |]. now rewrite app_nil_r.
  - destruct (merge_copy_depths_step_spec done segment best)
      as (best1 & -> & Hbest1); [apply Hin; left | exact Hbest |]. simpl.
    destruct (IH (done ++ [segment]) best1) as (best' & Hrun & Hbest').
    { intros s Hs. apply Hin. now right. }
    { exact Hbest1. }
    exists best'. split; [exact Hrun |].
    now rewrite <- app_assoc in Hbest'.
Qed.

End MergeCopyDepths.

Lemma candidate_unassigned (g : AssemblyGraph) (segment : Segment)
    (sources : list Z) :
  candidate g segment sources <->
  segment ∈ get_segments_without_copies g /\ sources_of g segment sources.
Proof.
  unfold candidate, get_segments_without_copies.
  rewrite list_elem_of_filter. tauto.
Qed.


(** The copy-depth scenario: segments 1 and 2, with copy depths [10] and
    [20], are the exclusive inputs of segment 3 of depth 30, which is
    assigned [20, 10]. *)
Example merge_copy_depths_two_inputs :
  exists g' assigned,
    merge_copy_depths two_inputs_graph = Ok (g', 1) /\
    copy_depths g' !! 3 = Some assigned /\
    Forall2 Qeq assigned [20%Q; 10%Q].
Proof.
  eexists _, _. split; [vm_compute; reflexivity |].
  split; [vm_compute; reflexivity |].
  repeat constructor.
Qed.


(** ** Link symmetry under the other mutators *)

Lemma link_symmetry_spec (g : AssemblyGraph) :
  link_symmetry g <->
  (forall u v, linked (forward_links g) u v ->
               linked (forward_links g) (- v) (- u)) /\
  (forall u v, linked (forward_links g) u v <-> linked (reverse_links g) v u).
Proof. unfold link_symmetry. now rewrite twin_symmetric_spec, transposed_spec. Qed.

Lemma add_link_link_symmetry (g : AssemblyGraph) (start end_ : Z) :
  link_symmetry g -> link_symmetry (add_link g start end_).
Proof.
  rewrite !link_symmetry_spec. intros [Htwin Htr]. split.
  - intros u v. rewrite !linked_add_link_forward.
    intros [H | [[-> ->] | [-> ->]]]; auto.
    right; left. split; lia.
  - intros u v. rewrite linked_add_link_forward, linked_add_link_reverse, Htr.
    split; intros [H | [[-> ->] | [-> ->]]]; auto.
Qed.

Lemma linked_remove_nums_from_links (links : gmap Z (list Z))
    (nums_to_remove : list Z) (u v : Z) :
  linked (remove_nums_from_links links nums_to_remove) u v <->
  linked links u v /\ (Z.abs u ∉ nums_to_remove) /\ (Z.abs v ∉ nums_to_remove).
Proof.
  unfold linked, remove_nums_from_links. rewrite map_lookup_imap.
  destruct (links !! u) as [l |]; simpl.
  - case_bool_decide as Hu; simpl.
    + split; [intros H; inversion H | tauto].
    + assert (Hdefault :
          default [] (match filter (fun x => Z.abs x ∉ nums_to_remove) l with
                      | [] => None
                      | y :: l' => Some (y :: l')
                      end)
          = filter (fun x => Z.abs x ∉ nums_to_remove) l)
        by now destruct (filter _ l).
      rewrite Hdefault, list_elem_of_filter. tauto.
  - split; [intros H; inversion H | intros [H _]; inversion H].
Qed.

Lemma remove_segments_link_symmetry (g : AssemblyGraph)
    (nums_to_remove : list Z) :
  link_symmetry g -> link_symmetry (remove_segments g nums_to_remove).
Proof.
  rewrite !link_symmetry_spec. intros [Htwin Htr]. simpl. split.
  - intros u v. rewrite !linked_remove_nums_from_links, !Z.abs_opp.
    intros (H & Hu & Hv). auto.
  - intros u v. rewrite !linked_remove_nums_from_links, Htr. tauto.
Qed.

Lemma fold_add_link_link_symmetry (f : AssemblyGraph -> Z -> AssemblyGraph)
    (links : list Z) :
  (forall g link, link_symmetry g -> link_symmetry (f g link)) ->
  forall g, link_symmetry g -> link_symmetry (fold_left f links g).
Proof.
  intros Hstep. induction links as [| link links IH]; simpl; auto.
Qed.

(** [merge_two_segments] changes the links through [remove_segments] and
    [add_link] only. *)
Lemma merge_two_segments_link_symmetry (g g' : AssemblyGraph)
    (seg_num_1 seg_num_2 : Z) :
  link_symmetry g -> merge_two_segments g seg_num_1 seg_num_2 = Ok g' ->
  link_symmetry g'.
Proof.
  intros Hsym. unfold merge_two_segments.
  intros (seg_1 & _ & H)%bind_Ok. apply bind_Ok in H as (seg_2 & _ & H).
  apply bind_Ok in H as (seg_1_seq & _ & H).
  apply bind_Ok in H as (seg_2_seq & _ & H).
  apply bind_Ok in H as (fresh & _ & H).
  apply bind_Ok in H as (paths_copy & _ & H). injection H as <-.
  set (new_seg_num := if _ <? _ then _ else _).
  change (link_symmetry (set_paths ?g0 ?p)) with (link_symmetry g0).
  apply fold_add_link_link_symmetry;
    [intros; now apply add_link_link_symmetry |].
  apply fold_add_link_link_symmetry;
    [intros; now apply add_link_link_symmetry |].
  change (link_symmetry (set_segments ?g0 ?s)) with (link_symmetry g0).
  now apply remove_segments_link_symmetry.
Qed.

Lemma filter_by_read_depth_link_symmetry (list_of_set : list Z -> list Z)
    (g g' : AssemblyGraph) (r : Q) :
  link_symmetry g -> filter_by_read_depth list_of_set g r = Ok g' ->
  link_symmetry g'.
Proof.
  intros Hsym. unfold filter_by_read_depth.
  intros (nums & _ & [= <-])%bind_Ok. now apply remove_segments_link_symmetry.
Qed.

(** ** Further facts *)

(** The error of a candidate, spelled out. *)
Lemma candidate_error_formula (g : AssemblyGraph) (segment : Segment)
    (sources : list Z) :
  ((0 < depth segment)%Q ->
   candidate_error g segment sources
   = Fin (Qabs (Qsum (source_depths g sources) - depth segment)
          / depth segment)) /\
  (~ (0 < depth segment)%Q -> candidate_error g segment sources = Inf).
Proof.
  unfold candidate_error, get_error.
  destruct (Qltb 0 (depth segment)) eqn:Hpos.
  - apply Qltb_lt in Hpos. split; [reflexivity | contradiction].
  - split; [| reflexivity]. intros H%Qltb_lt. congruence.
Qed.

Lemma dict_get_set {V} (d : list (Z * V)) (k : Z) (v : V) :
  dict_get (dict_set d k v) k = Some v.
Proof.
  induction d as [| [k' v'] d IH]; simpl.
  - now rewrite decide_True.
  - case_decide as Heq; simpl.
    + now rewrite decide_True.
    + now rewrite decide_False.
Qed.

Lemma segments_fold_add_link (f : AssemblyGraph -> Z -> AssemblyGraph)
    (links : list Z) :
  (forall g link, segments (f g link) = segments g) ->
  forall g, segments (fold_left f links g) = segments g.
Proof.
  intros Hstep. induction links as [| link links IH]; simpl; [reflexivity |].
  intros g. now rewrite IH, Hstep.
Qed.

(** The number that [merge_two_segments] gives the merged segment: that of
    the second segment when it is strictly the longer one, and the fresh
    number in every other case, also when the first segment is the longer
    one. *)
Lemma merge_two_segments_number (g g' : AssemblyGraph)
    (seg_num_1 seg_num_2 : Z) :
  merge_two_segments g seg_num_1 seg_num_2 = Ok g' ->
  exists seg_1 seg_2 fresh merged,
    segment_at g (Z.abs seg_num_1) = Ok seg_1 /\
    segment_at g (Z.abs seg_num_2) = Ok seg_2 /\
    get_next_available_seg_number g = Ok fresh /\
    let new_seg_num :=
      if get_length_no_overlap seg_1 (overlap g)
         <? get_length_no_overlap seg_2 (overlap g)
      then Z.abs seg_num_2 else fresh in
    dict_get (segments g') new_seg_num = Some merged /\
    number merged = new_seg_num.
Proof.
  unfold merge_two_segments.
  intros (seg_1 & Hseg_1 & H)%bind_Ok. apply bind_Ok in H as (seg_2 & Hseg_2 & H).
  apply bind_Ok in H as (seg_1_seq & _ & H).
  apply bind_Ok in H as (seg_2_seq & _ & H).
  apply bind_Ok in H as (fresh & Hfresh & H).
  apply bind_Ok in H as (paths_copy & _ & H). injection H as <-.
  eexists seg_1, seg_2, fresh, _. repeat split; try assumption.
  - unfold set_paths. cbn [segments].
    rewrite !segments_fold_add_link by reflexivity.
    cbn [set_segments segments]. apply dict_get_set.
  - reflexivity.
Qed.

(** * Further properties of the module *)

(** ** Adding and removing links *)

(** X1. [add_link] adds the link and its reverse-complement twin to the
    forward view, the two transposed entries to the reverse view, and nothing
    else; on a graph with link symmetry the result has link symmetry. *)
Theorem add_link_adds_twin_pair (g : AssemblyGraph) (start end_ : Z) :
  link_symmetry g ->
  link_symmetry (add_link g start end_) /\
  (forall u v,
      linked (forward_links (add_link g start end_)) u v <->
      linked (forward_links g) u v \/
      (u = start /\ v = end_) \/ (u = - end_ /\ v = - start)) /\
  (forall u v,
      linked (reverse_links (add_link g start end_)) u v <->
      linked (reverse_links g) u v \/
      (u = end_ /\ v = start) \/ (u = - start /\ v = - end_)) /\
  segments (add_link g start end_) = segments g /\
  paths (add_link g start end_) = paths g.
Proof.
  intros Hsym. split; [now apply add_link_link_symmetry |].
  split; [intros; apply linked_add_link_forward |].
  split; [intros; apply linked_add_link_reverse |]. split; reflexivity.
Qed.

Lemma link_symmetry_linear_graph : link_symmetry linear_graph.
Proof.
  unfold link_symmetry, twin_symmetric, transposed, linked.
  apply (bool_decide_unpack _). vm_compute. exact I.
Defined.

Lemma add_link_adds_twin_pair_witness :
  link_symmetry linear_graph /\
  link_symmetry (add_link linear_graph 3 1).
Proof.
  split; [exact link_symmetry_linear_graph |].
  exact (proj1 (add_link_adds_twin_pair linear_graph 3 1
                  link_symmetry_linear_graph)).
Defined.

Lemma remove_nums_from_links_nonempty (links : gmap Z (list Z))
    (nums_to_remove : list Z) (u : Z) (l : list Z) :
  remove_nums_from_links links nums_to_remove !! u = Some l -> l <> [].
Proof.
  unfold remove_nums_from_links. rewrite map_lookup_imap.
  destruct (links !! u) as [l0 |]; simpl; [| discriminate].
  case_bool_decide; [discriminate |].
  destruct (filter _ l0); [discriminate |]. now intros [= <-].
Qed.

Lemma path_touches_spec (nums path_nums : list Z) :
  path_touches nums path_nums = true <->
  exists n, n ∈ nums /\ n ∈ path_nums.
Proof.
  unfold path_touches. rewrite existsb_exists. split.
  - intros (n & Hn%list_elem_of_In & Hp%bool_decide_eq_true_1). eauto.
  - intros (n & Hn & Hp). exists n. split; [now apply list_elem_of_In |].
    now apply bool_decide_eq_true_2.
Qed.

(** X2. After [remove_segments] no segment has a removed number, a link is
    left exactly when it was there and neither end is a removed number on
    either strand, no adjacency list is left empty, and a path is left
    exactly when it was there and holds no removed number on either strand.
    The segments and paths that are left are unchanged. *)
Theorem remove_segments_removes (g : AssemblyGraph) (nums_to_remove : list Z) :
  let g' := remove_segments g nums_to_remove in
  (forall k, k ∈ dict_keys (segments g') <->
             k ∈ dict_keys (segments g) /\ k ∉ nums_to_remove) /\
  sublist (segments g') (segments g) /\
  (forall u v,
      linked (forward_links g') u v <->
      linked (forward_links g) u v /\
      (Z.abs u ∉ nums_to_remove) /\ (Z.abs v ∉ nums_to_remove)) /\
  (forall u v,
      linked (reverse_links g') u v <->
      linked (reverse_links g) u v /\
      (Z.abs u ∉ nums_to_remove) /\ (Z.abs v ∉ nums_to_remove)) /\
  (forall u l, forward_links g' !! u = Some l -> l <> []) /\
  (forall u l, reverse_links g' !! u = Some l -> l <> []) /\
  (forall np,
      np ∈ paths g' <->
      np ∈ paths g /\
      forall n, n ∈ nums_to_remove -> (n ∉ snd np) /\ (- n ∉ snd np)) /\
  copy_depths g' = copy_depths g.
Proof.
  intros g'. subst g'. simpl.
  split; [intros; apply dict_keys_filter |].
  split; [apply sublist_filter |].
  split; [intros; apply linked_remove_nums_from_links |].
  split; [intros; apply linked_remove_nums_from_links |].
  split; [intros u l; apply remove_nums_from_links_nonempty |].
  split; [intros u l; apply remove_nums_from_links_nonempty |].
  split; [| reflexivity].
  intros np. rewrite list_elem_of_filter.
  rewrite orb_True, !Is_true_true, !path_touches_spec.
  split.
  - intros [Htouch Hin]. split; [exact Hin |].
    intros n Hn. split; intros Hp; apply Htouch.
    + left. eauto.
    + right. exists (- n). split; [| exact Hp].
      apply list_elem_of_In, in_map, list_elem_of_In, Hn.
  - intros [Hin Hall]. split; [| exact Hin].
    intros [(n & Hn & Hp) | (n & Hn & Hp)].
    + destruct (Hall n Hn) as [H1 _]. exact (H1 Hp).
    + apply list_elem_of_In, in_map_iff in Hn as (m & <- & Hm%list_elem_of_In).
      destruct (Hall m Hm) as [_ H2]. exact (H2 Hp).
Qed.

Lemma filter_idempotent {A} (P : A -> Prop) `{forall x, Decision (P x)}
    (l : list A) :
  filter P (filter P l) = filter P l.
Proof.
  induction l as [| x l IH]; [reflexivity |].
  rewrite (filter_cons P x l). case_decide as Hx; [| exact IH].
  rewrite filter_cons, decide_True by exact Hx. now rewrite IH.
Qed.

Lemma remove_nums_from_links_idempotent (links : gmap Z (list Z))
    (nums_to_remove : list Z) :
  remove_nums_from_links (remove_nums_from_links links nums_to_remove)
                         nums_to_remove
  = remove_nums_from_links links nums_to_remove.
Proof.
  apply map_eq. intros u. unfold remove_nums_from_links.
  rewrite !map_lookup_imap.
  destruct (links !! u) as [l |]; simpl; [| reflexivity].
  case_bool_decide as Hu; simpl; [reflexivity |].
  destruct (filter (fun x => Z.abs x ∉ nums_to_remove) l) as [| y l'] eqn:Hl;
    simpl; [reflexivity |].
  now rewrite <- Hl, filter_idempotent, Hl.
Qed.

(** X3. [remove_segments] keeps link symmetry, and removing the same numbers
    a second time changes nothing. *)
Theorem remove_segments_symmetry_idempotent (g : AssemblyGraph)
    (nums_to_remove : list Z) :
  (link_symmetry g -> link_symmetry (remove_segments g nums_to_remove)) /\
  remove_segments (remove_segments g nums_to_remove) nums_to_remove
  = remove_segments g nums_to_remove.
Proof.
  split; [apply remove_segments_link_symmetry |].
  unfold remove_segments. cbn [segments forward_links reverse_links
                                copy_depths paths overlap].
  now rewrite !remove_nums_from_links_idempotent, !filter_idempotent.
Qed.

Lemma remove_segments_symmetry_idempotent_witness :
  link_symmetry linear_graph /\
  link_symmetry (remove_segments linear_graph [2]).
Proof.
  split; [exact link_symmetry_linear_graph |].
  exact (proj1 (remove_segments_symmetry_idempotent linear_graph [2])
               link_symmetry_linear_graph).
Defined.

(** ** Merging two segments *)

(** The segment dictionary after [merge_two_segments]: the two segments are
    taken out and the merged one is put in. *)
Lemma merge_two_segments_segments (g g' : AssemblyGraph)
    (seg_num_1 seg_num_2 : Z) :
  merge_two_segments g seg_num_1 seg_num_2 = Ok g' ->
  exists seg_1 seg_2 seg_1_seq seg_2_seq fresh,
    segment_at g (Z.abs seg_num_1) = Ok seg_1 /\
    segment_at g (Z.abs seg_num_2) = Ok seg_2 /\
    get_seq_from_signed_seg_num g seg_num_1 = Ok seg_1_seq /\
    get_seq_from_signed_seg_num g seg_num_2 = Ok seg_2_seq /\
    get_next_available_seg_number g = Ok fresh /\
    let seg_1_len := get_length seg_1 - overlap g in
    let seg_2_len := get_length seg_2 - overlap g in
    let new_seg_num :=
      if seg_1_len <? seg_2_len then Z.abs seg_num_2 else fresh in
    let merged_forward_seq :=
      String.append (str_slice_to seg_1_seq (- overlap g)) seg_2_seq in
    let mean_depth :=
      if 0 <? seg_1_len + seg_2_len
      then (depth seg_1 * (inject_Z seg_1_len / inject_Z (seg_1_len + seg_2_len))
            + depth seg_2
              * (inject_Z seg_2_len / inject_Z (seg_1_len + seg_2_len)))%Q
      else 1%Q in
    segments g'
    = dict_set (filter (fun ns => fst ns ∉ [Z.abs seg_num_1; Z.abs seg_num_2])
                       (segments g))
               new_seg_num
               (mkSegment new_seg_num mean_depth merged_forward_seq
                          (reverse_complement merged_forward_seq)) /\
    overlap g' = overlap g /\ copy_depths g' = copy_depths g.
Proof.
  unfold merge_two_segments.
  intros (seg_1 & Hseg_1 & H)%bind_Ok. apply bind_Ok in H as (seg_2 & Hseg_2 & H).
  apply bind_Ok in H as (seg_1_seq & Hseq_1 & H).
  apply bind_Ok in H as (seg_2_seq & Hseq_2 & H).
  apply bind_Ok in H as (fresh & Hfresh & H).
  apply bind_Ok in H as (paths_copy & _ & H). injection H as <-.
  exists seg_1, seg_2, seg_1_seq, seg_2_seq, fresh.
  repeat split; try assumption.
  - unfold set_paths. cbn [segments].
    rewrite !segments_fold_add_link by reflexivity. reflexivity.
  - unfold set_paths. cbn [overlap].
    assert (Hfold : forall (f : AssemblyGraph -> Z -> AssemblyGraph) links g0,
               (forall g1 link, overlap (f g1 link) = overlap g1) ->
               overlap (fold_left f links g0) = overlap g0).
    { intros f links. induction links as [| x links IH]; simpl; [reflexivity |].
      intros g0 Hf. now rewrite IH, Hf. }
    now rewrite !Hfold by reflexivity.
  - unfold set_paths. cbn [copy_depths].
    assert (Hfold : forall (f : AssemblyGraph -> Z -> AssemblyGraph) links g0,
               (forall g1 link, copy_depths (f g1 link) = copy_depths g1) ->
               copy_depths (fold_left f links g0) = copy_depths g0).
    { intros f links. induction links as [| x links IH]; simpl; [reflexivity |].
      intros g0 Hf. now rewrite IH, Hf. }
    now rewrite !Hfold by reflexivity.
Qed.

Lemma fold_max_ge (ks : list Z) :
  forall k x, (x = k \/ x ∈ ks) -> x <= fold_left Z.max ks k.
Proof.
  induction ks as [| y ks IH]; simpl; intros k x Hx.
  - destruct Hx as [-> | Hx]; [lia | inversion Hx].
  - destruct Hx as [-> | [-> | Hx]%elem_of_cons].
    + transitivity (Z.max k y); [lia | apply IH; now left].
    + transitivity (Z.max k y); [lia | apply IH; now left].
    + apply IH. now right.
Qed.

(** The fresh number is above every segment number. *)
Lemma get_next_available_seg_number_fresh (g : AssemblyGraph) (fresh : Z) :
  get_next_available_seg_number g = Ok fresh ->
  forall k, k ∈ dict_keys (segments g) -> k < fresh.
Proof.
  unfold get_next_available_seg_number.
  destruct (dict_keys (segments g)) as [| k0 ks]; [discriminate |].
  intros [= <-] k Hk. apply elem_of_cons in Hk.
  pose proof (fold_max_ge ks k0 k Hk). lia.
Qed.

Lemma dict_set_new {V} (d : list (Z * V)) (k : Z) (v : V) :
  k ∉ dict_keys d -> dict_set d k v = d ++ [(k, v)].
Proof.
  induction d as [| [k' v'] d IH]; simpl; intros Hk; [reflexivity |].
  rewrite decide_False by (intros ->; apply Hk; left).
  rewrite IH; [reflexivity |]. intros H. apply Hk. now right.
Qed.

Lemma filter_ext_elem_of {A} (P Q : A -> Prop) `{forall x, Decision (P x)}
    `{forall x, Decision (Q x)} (l : list A) :
  (forall x, x ∈ l -> P x <-> Q x) -> filter P l = filter Q l.
Proof.
  induction l as [| x l IH]; intros Hext; [reflexivity |].
  rewrite !filter_cons.
  rewrite IH by (intros y Hy; apply Hext; now right).
  pose proof (Hext x (list_elem_of_here _ _)) as Hx.
  repeat case_decide; tauto || reflexivity.
Qed.

Lemma filter_keys_length {V} (d : list (Z * V)) (nums : list Z) :
  NoDup (dict_keys d) -> NoDup nums ->
  (forall n, n ∈ nums -> n ∈ dict_keys d) ->
  (length (filter (fun kv => fst kv ∉ nums) d) + length nums = length d)%nat.
Proof.
  revert nums. induction d as [| [k v] d IH]; intros nums Hd Hnums Hsub.
  - destruct nums as [| n nums]; [reflexivity |].
    specialize (Hsub n (list_elem_of_here _ _)). inversion Hsub.
  - simpl in Hd. apply NoDup_cons in Hd as [Hk Hd].
    rewrite filter_cons. simpl. case_decide as Hin.
    + simpl. rewrite IH; auto. intros n Hn.
      specialize (Hsub n Hn). simpl in Hsub.
      apply elem_of_cons in Hsub as [-> | Hsub]; [contradiction | exact Hsub].
    + assert (Hk_in : k ∈ nums) by (destruct (decide (k ∈ nums)); tauto).
      apply list_elem_of_split in Hk_in as (l1 & l2 & ->).
      assert (Hrest : NoDup (l1 ++ l2)).
      { apply NoDup_app in Hnums as (H1 & H12 & H2).
        apply NoDup_cons in H2 as [Hk2 H2]. apply NoDup_app.
        repeat split; auto. intros x Hx Hx2. apply (H12 x Hx). now right. }
      assert (Hsame : filter (fun kv : Z * V => fst kv ∉ l1 ++ k :: l2) d
                      = filter (fun kv : Z * V => fst kv ∉ l1 ++ l2) d).
      { apply filter_ext_elem_of. intros [k' v'] Hin'. simpl.
        rewrite !elem_of_app, elem_of_cons.
        assert (k' <> k).
        { intros ->. apply Hk, list_elem_of_In, in_map_iff.
          exists (k, v'). split; [reflexivity | now apply list_elem_of_In]. }
        tauto. }
      rewrite Hsame, length_app. simpl.
      rewrite <- (IH (l1 ++ l2) Hd Hrest), length_app; [lia |].
      intros n Hn. assert (Hn' : n ∈ l1 ++ k :: l2).
      { rewrite elem_of_app, elem_of_cons. apply elem_of_app in Hn. tauto. }
      specialize (Hsub n Hn'). simpl in Hsub.
      apply elem_of_cons in Hsub as [-> | Hsub]; [| exact Hsub].
      exfalso. apply NoDup_app in Hnums as (H1 & H12 & H2).
      apply NoDup_cons in H2 as [Hk2 H2]. apply elem_of_app in Hn as [Hn | Hn].
      * apply (H12 k Hn). left.
      * contradiction.
Qed.

Lemma length_chars (s : string) : length (chars s) = String.length s.
Proof. induction s as [| c s IH]; simpl; [reflexivity | now rewrite IH]. Qed.

Lemma length_str_of (l : list ascii) : String.length (str_of l) = length l.
Proof. now rewrite <- length_chars, chars_str_of. Qed.

Lemma length_append (a b : string) :
  String.length (String.append a b) = (String.length a + String.length b)%nat.
Proof. now rewrite <- !length_chars, chars_append, length_app. Qed.

(** X5. When [merge_two_segments] returns on a graph with one entry per
    segment number and two different segments, the merged graph has one
    segment less: the two are gone and one is new. Its number is that of the
    second segment when the second is strictly the longer one (lengths net of
    the overlap), and otherwise the fresh number, one above every number in
    use; the segment is stored under this number. *)
Theorem merge_two_segments_number_and_count (g g' : AssemblyGraph)
    (seg_num_1 seg_num_2 : Z) :
  NoDup (dict_keys (segments g)) ->
  Z.abs seg_num_1 <> Z.abs seg_num_2 ->
  merge_two_segments g seg_num_1 seg_num_2 = Ok g' ->
  exists seg_1 seg_2 fresh merged,
    segment_at g (Z.abs seg_num_1) = Ok seg_1 /\
    segment_at g (Z.abs seg_num_2) = Ok seg_2 /\
    get_next_available_seg_number g = Ok fresh /\
    (forall k, k ∈ dict_keys (segments g) -> k < fresh) /\
    let new_seg_num :=
      if get_length_no_overlap seg_1 (overlap g)
         <? get_length_no_overlap seg_2 (overlap g)
      then Z.abs seg_num_2 else fresh in
    dict_get (segments g') new_seg_num = Some merged /\
    number merged = new_seg_num /\
    (forall k, k ∈ dict_keys (segments g') <->
               (k ∈ dict_keys (segments g) /\
                k <> Z.abs seg_num_1 /\ k <> Z.abs seg_num_2) \/
               k = new_seg_num) /\
    NoDup (dict_keys (segments g')) /\
    (length (segments g') + 1 = length (segments g))%nat.
Proof.
  intros Hnodup Hne Hrun.
  destruct (merge_two_segments_segments g g' seg_num_1 seg_num_2 Hrun)
    as (seg_1 & seg_2 & seq_1 & seq_2 & fresh
        & Hseg_1 & Hseg_2 & _ & _ & Hfresh & Hsegs & _).
  pose proof (get_next_available_seg_number_fresh g fresh Hfresh) as Habove.
  cbv zeta in Hsegs. unfold get_length in Hsegs.
  fold (get_length_no_overlap seg_1 (overlap g)) in Hsegs.
  fold (get_length_no_overlap seg_2 (overlap g)) in Hsegs.
  set (new_seg_num := if _ <? _ then _ else _) in Hsegs.
  set (merged := mkSegment new_seg_num _ _ _) in Hsegs.
  exists seg_1, seg_2, fresh, merged.
  split; [exact Hseg_1 |]. split; [exact Hseg_2 |]. split; [exact Hfresh |].
  split; [exact Habove |]. cbv zeta. fold new_seg_num.
  assert (Hkey_1 : Z.abs seg_num_1 ∈ dict_keys (segments g)).
  { apply dict_keys_get. apply segment_at_Ok in Hseg_1. eauto. }
  assert (Hkey_2 : Z.abs seg_num_2 ∈ dict_keys (segments g)).
  { apply dict_keys_get. apply segment_at_Ok in Hseg_2. eauto. }
  set (kept := filter (fun ns : Z * Segment =>
                         fst ns ∉ [Z.abs seg_num_1; Z.abs seg_num_2])
                      (segments g)) in *.
  assert (Hkept : forall k, k ∈ dict_keys kept <->
                            k ∈ dict_keys (segments g) /\
                            k <> Z.abs seg_num_1 /\ k <> Z.abs seg_num_2).
  { intros k. unfold kept. rewrite dict_keys_filter.
    rewrite !elem_of_cons, elem_of_nil. tauto. }
  assert (Hnew : new_seg_num ∉ dict_keys kept).
  { rewrite Hkept. unfold new_seg_num. destruct (_ <? _).
    - tauto.
    - intros [Hin _]. specialize (Habove fresh Hin). lia. }
  rewrite (dict_set_new kept new_seg_num merged Hnew) in Hsegs.
  rewrite Hsegs. split; [| split; [reflexivity |]].
  { rewrite <- (dict_get_set kept new_seg_num merged).
    now rewrite (dict_set_new kept new_seg_num merged Hnew). }
  assert (Hkeys : dict_keys (kept ++ [(new_seg_num, merged)])
                  = dict_keys kept ++ [new_seg_num]).
  { unfold dict_keys. now rewrite map_app. }
  split; [| split].
  - intros k. rewrite Hkeys, elem_of_app, list_elem_of_singleton, Hkept.
    reflexivity.
  - rewrite Hkeys. apply NoDup_app. split; [| split].
    + unfold kept, dict_keys.
      eapply NoDup_fmap_1 with (f := id).
      rewrite list_fmap_id. clear -Hnodup.
      induction (segments g) as [| [k v] d IH]; simpl; [constructor |].
      simpl in Hnodup. apply NoDup_cons in Hnodup as [Hk Hd].
      rewrite filter_cons. case_decide; simpl; [| auto].
      apply NoDup_cons. split; [| auto]. intros Hin. apply Hk.
      apply list_elem_of_In, in_map_iff in Hin as ([k' v'] & Heq & Hin).
      simpl in Heq. subst k'. apply list_elem_of_In, in_map_iff.
      exists (k, v'). split; [reflexivity |].
      apply list_elem_of_In, list_elem_of_filter in Hin as [_ Hin].
      now apply list_elem_of_In.
    + intros k Hk ->%list_elem_of_singleton. contradiction.
    + apply NoDup_singleton.
  - rewrite length_app. simpl.
    pose proof (filter_keys_length (segments g)
                  [Z.abs seg_num_1; Z.abs seg_num_2] Hnodup) as Hlen.
    fold kept in Hlen. simpl in Hlen. rewrite <- Hlen; [lia | |].
    + apply NoDup_cons. split; [| apply NoDup_singleton].
      rewrite list_elem_of_singleton. exact Hne.
    + intros n [-> | [-> | Hn]%elem_of_cons]%elem_of_cons; auto.
      inversion Hn.
Qed.

Lemma merge_two_segments_number_and_count_witness :
  NoDup (dict_keys (segments linear_graph)) /\
  Z.abs 1 <> Z.abs 2 /\
  exists g',
    merge_two_segments linear_graph 1 2 = Ok g' /\
    NoDup (dict_keys (segments g')) /\
    (length (segments g') + 1 = length (segments linear_graph))%nat.
Proof.
  assert (Hnodup : NoDup (dict_keys (segments linear_graph))).
  { apply (bool_decide_unpack _). vm_compute. exact I. }
  assert (Hne : Z.abs 1 <> Z.abs 2) by (simpl; lia).
  split; [exact Hnodup |]. split; [exact Hne |].
  destruct (merge_two_segments linear_graph 1 2) as [g' |] eqn:Hrun;
    [| vm_compute in Hrun; discriminate Hrun].
  exists g'. split; [reflexivity |].
  destruct (merge_two_segments_number_and_count linear_graph g' 1 2
              Hnodup Hne Hrun)
    as (seg_1 & seg_2 & fresh & merged & _ & _ & _ & _ & H).
  cbv zeta in H. destruct H as (_ & _ & _ & Hnd & Hlen). auto.
Defined.

Lemma slice_to_zero {A} (l : list A) : slice_to l (- 0) = [].
Proof. reflexivity. Qed.

Lemma length_slice_to_overlap {A} (l : list A) (k : Z) :
  0 < k <= Z.of_nat (length l) ->
  Z.of_nat (length (slice_to l (- k))) = Z.of_nat (length l) - k.
Proof.
  intros Hk. unfold slice_to.
  destruct (Z.ltb_spec (- k) 0) as [_ | Hneg]; [| lia].
  rewrite length_take. lia.
Qed.

(** X6. The sequences of the merged segment. Its forward sequence is the
    first sequence without its last [overlap] bases, followed by the second
    sequence, and its reverse sequence is the reverse complement of that. For
    an overlap from 1 to the length of the first sequence, the length is the
    sum of the two lengths less the overlap. For overlap 0 the slice
    [seq[:-0]] is empty: the merged sequence is the second sequence alone.
    The overlap and the copy depths of the graph are not changed. *)
Theorem merge_two_segments_sequence (g g' : AssemblyGraph)
    (seg_num_1 seg_num_2 : Z) :
  merge_two_segments g seg_num_1 seg_num_2 = Ok g' ->
  exists seg_1_seq seg_2_seq new_seg_num merged,
    get_seq_from_signed_seg_num g seg_num_1 = Ok seg_1_seq /\
    get_seq_from_signed_seg_num g seg_num_2 = Ok seg_2_seq /\
    dict_get (segments g') new_seg_num = Some merged /\
    forward_sequence merged
    = String.append (str_slice_to seg_1_seq (- overlap g)) seg_2_seq /\
    reverse_sequence merged = reverse_complement (forward_sequence merged) /\
    (0 < overlap g <= Z.of_nat (String.length seg_1_seq) ->
     get_length merged
     = Z.of_nat (String.length seg_1_seq) + Z.of_nat (String.length seg_2_seq)
       - overlap g) /\
    (overlap g = 0 -> forward_sequence merged = seg_2_seq) /\
    overlap g' = overlap g /\ copy_depths g' = copy_depths g.
Proof.
  intros Hrun.
  destruct (merge_two_segments_segments g g' seg_num_1 seg_num_2 Hrun)
    as (seg_1 & seg_2 & seq_1 & seq_2 & fresh
        & _ & _ & Hseq_1 & Hseq_2 & _ & Hsegs & Hoverlap & Hcopy).
  cbv zeta in Hsegs.
  set (new_seg_num := if _ <? _ then _ else _) in Hsegs.
  set (merged := mkSegment new_seg_num _ _ _) in Hsegs.
  exists seq_1, seq_2, new_seg_num, merged.
  split; [exact Hseq_1 |]. split; [exact Hseq_2 |].
  split; [rewrite Hsegs; apply dict_get_set |].
  split; [reflexivity |]. split; [reflexivity |].
  split; [| split; [| auto]].
  - intros Hk. unfold get_length. simpl.
    rewrite length_append. unfold str_slice_to. rewrite length_str_of.
    rewrite Nat2Z.inj_add, length_slice_to_overlap;
      rewrite length_chars; lia.
  - intros Hzero. simpl. rewrite Hzero. unfold str_slice_to.
    now rewrite slice_to_zero.
Qed.

Lemma merge_two_segments_sequence_witness :
  exists g' seg_1_seq seg_2_seq new_seg_num merged,
    merge_two_segments linear_graph 1 2 = Ok g' /\
    get_seq_from_signed_seg_num linear_graph 1 = Ok seg_1_seq /\
    get_seq_from_signed_seg_num linear_graph 2 = Ok seg_2_seq /\
    dict_get (segments g') new_seg_num = Some merged /\
    reverse_sequence merged = reverse_complement (forward_sequence merged).
Proof.
  destruct (merge_two_segments linear_graph 1 2) as [g' |] eqn:Hrun;
    [| vm_compute in Hrun; discriminate Hrun].
  destruct (merge_two_segments_sequence linear_graph g' 1 2 Hrun)
    as (seq_1 & seq_2 & new_seg_num & merged & H1 & H2 & H3 & _ & H5 & _).
  exists g', seq_1, seq_2, new_seg_num, merged. auto.
Defined.

(** ** Paths *)

Lemma split_at_pieces (path : list Z) (seg : Z) (piece : list Z) :
  piece ∈ split_at path seg ->
  (seg ∉ piece) /\ forall x, x ∈ piece -> x ∈ path.
Proof.
  revert piece. induction path as [| x path IH]; simpl; intros piece Hin.
  - apply list_elem_of_singleton in Hin as ->.
    split; [apply not_elem_of_nil | auto].
  - destruct (Z.eqb_spec x seg) as [-> | Hne].
    + apply elem_of_cons in Hin as [-> | Hin].
      * split; [apply not_elem_of_nil | intros y Hy; inversion Hy].
      * destruct (IH piece Hin) as [Hfree Hsub]. split; [exact Hfree |].
        intros y Hy. right. auto.
    + destruct (split_at path seg) as [| first rest] eqn:Hsplit.
      * apply list_elem_of_singleton in Hin as ->. split.
        -- rewrite list_elem_of_singleton. congruence.
        -- intros y ->%list_elem_of_singleton. left.
      * apply elem_of_cons in Hin as [-> | Hin].
        -- destruct (IH first (list_elem_of_here _ _)) as [Hfree Hsub]. split.
           ++ rewrite elem_of_cons. intros [Heq | Hin]; [congruence | auto].
           ++ intros y [-> | Hy]%elem_of_cons; [left | right; auto].
        -- destruct (IH piece (list_elem_of_further _ _ _ Hin)) as [Hfree Hsub].
           split; [exact Hfree |]. intros y Hy. right. auto.
Qed.

Lemma split_path_pieces (path : list Z) (seg : Z) (piece : list Z) :
  piece ∈ split_path path seg ->
  (1 < length piece)%nat /\ (seg ∉ piece) /\ forall x, x ∈ piece -> x ∈ path.
Proof.
  unfold split_path. intros [Hlen Hin]%list_elem_of_filter.
  split; [exact Hlen |]. now apply split_at_pieces.
Qed.

Lemma split_path_fold_pieces (path segs : list Z) :
  forall (done : list Z) (parts : list (list Z)) (piece : list Z),
    (forall part, part ∈ parts ->
                  (forall s, s ∈ done -> s ∉ part) /\
                  (forall x, x ∈ part -> x ∈ path) /\
                  (done <> [] -> (1 < length part)%nat)) ->
    piece ∈ fold_left (fun path_parts seg =>
                         concat (map (fun part => split_path part seg)
                                     path_parts))
                      segs parts ->
    (forall s, s ∈ done ++ segs -> s ∉ piece) /\
    (forall x, x ∈ piece -> x ∈ path) /\
    (done ++ segs <> [] -> (1 < length piece)%nat).
Proof.
  induction segs as [| seg segs IH]; simpl; intros done parts piece Hparts Hin.
  - rewrite app_nil_r. now apply Hparts.
  - replace (done ++ seg :: segs) with ((done ++ [seg]) ++ segs)
      by now rewrite <- app_assoc.
    refine (IH (done ++ [seg]) _ piece _ Hin).
    intros part (whole & Hwhole & Hpart)%elem_of_concat.
    apply list_elem_of_In, in_map_iff in Hwhole as (src & <- & Hsrc).
    apply list_elem_of_In in Hsrc.
    apply split_path_pieces in Hpart as (Hlen & Hfree & Hinc).
    destruct (Hparts src Hsrc) as (Hdone & Hpath & _).
    split; [| split; [auto | auto]].
    intros s [Hs | ->%list_elem_of_singleton]%elem_of_app; [| exact Hfree].
    intros Hs'. exact (Hdone s Hs (Hinc s Hs')).
Qed.

Lemma split_path_multiple_pieces (path segs piece : list Z) :
  piece ∈ split_path_multiple path segs ->
  (forall s, s ∈ segs -> s ∉ piece) /\
  (forall x, x ∈ piece -> x ∈ path) /\
  (segs <> [] -> (1 < length piece)%nat).
Proof.
  unfold split_path_multiple. intros Hin.
  refine (split_path_fold_pieces path segs [] [path] piece _ Hin).
  intros part ->%list_elem_of_singleton.
  split; [intros s Hs; inversion Hs |]. split; [auto | congruence].
Qed.

(** X7. Every piece that [split_path_multiple] returns holds none of the
    numbers it splits at and only numbers of the path; when there is a number
    to split at, every piece has at least two entries. *)
Theorem split_path_multiple_free (path segs piece : list Z) :
  piece ∈ split_path_multiple path segs ->
  (forall s, s ∈ segs -> s ∉ piece) /\
  (forall x, x ∈ piece -> x ∈ path) /\
  (segs <> [] -> (1 < length piece)%nat).
Proof. apply split_path_multiple_pieces. Qed.

Lemma split_path_multiple_free_witness :
  [1; 2] ∈ split_path_multiple [1; 2; 3; 4] [3; 4] /\
  (forall s, s ∈ [3; 4] -> s ∉ [1; 2]).
Proof.
  assert (H : [1; 2] ∈ split_path_multiple [1; 2; 3; 4] [3; 4])
    by (vm_compute; left).
  split; [exact H |].
  exact (proj1 (split_path_multiple_free [1; 2; 3; 4] [3; 4] [1; 2] H)).
Defined.

Lemma dict_set_elem_of {K V} `{EqDecision K} (d : list (K * V)) (k k' : K)
    (v v' : V) :
  (k, v) ∈ dict_set d k' v' -> (k, v) ∈ d \/ v = v'.
Proof.
  induction d as [| [k0 v0] d IH]; simpl.
  - intros [= _ ->]%list_elem_of_singleton. now right.
  - case_decide.
    + intros [[= _ ->] | Hin]%elem_of_cons; [now right |]. left. now right.
    + intros [-> | Hin]%elem_of_cons; [left; left |].
      destruct (IH Hin); [left; now right | now right].
Qed.

Lemma number_paths_elem_of (split_paths : list (list Z)) :
  forall (new_paths : list (string * list Z)) (path_name : string) (i : Z)
         (k : string) (v : list Z),
    (k, v) ∈ number_paths new_paths path_name i split_paths ->
    (k, v) ∈ new_paths \/ v ∈ split_paths.
Proof.
  induction split_paths as [| path rest IH]; simpl; intros d name i k v Hin.
  - now left.
  - apply IH in Hin as [Hin | Hin]; [| right; now right].
    apply dict_set_elem_of in Hin as [Hin | ->]; [now left | right; left].
Qed.

Lemma split_paths_into_elem_of (new_paths : list (string * list Z))
    (path_name : string) (split_paths : list (list Z)) (k : string)
    (v : list Z) :
  (k, v) ∈ split_paths_into new_paths path_name split_paths ->
  (k, v) ∈ new_paths \/ v ∈ split_paths.
Proof.
  unfold split_paths_into. destruct split_paths as [| p [| p' rest]].
  - now left.
  - intros [Hin | ->]%dict_set_elem_of; [now left | right; left].
  - apply number_paths_elem_of.
Qed.

(** X8. After [merge_two_segments] every path has at least two entries and
    none of them is one of the two merged numbers, on either strand. This
    holds also when the merged segment takes over the number of the second
    segment: the paths are then cut at the merged segment itself. *)
Theorem merge_two_segments_paths_free (g g' : AssemblyGraph)
    (seg_num_1 seg_num_2 : Z) (name : string) (path : list Z) :
  merge_two_segments g seg_num_1 seg_num_2 = Ok g' ->
  (name, path) ∈ paths g' ->
  (1 < length path)%nat /\
  (seg_num_1 ∉ path) /\ (seg_num_2 ∉ path) /\
  (- seg_num_1 ∉ path) /\ (- seg_num_2 ∉ path).
Proof.
  unfold merge_two_segments.
  intros (seg_1 & _ & H)%bind_Ok. apply bind_Ok in H as (seg_2 & _ & H).
  apply bind_Ok in H as (seg_1_seq & _ & H).
  apply bind_Ok in H as (seg_2_seq & _ & H).
  apply bind_Ok in H as (fresh & _ & H).
  apply bind_Ok in H as (paths_copy & _ & H). injection H as <-.
  unfold set_paths. cbn [paths].
  set (segs := [seg_num_1; seg_num_2; - seg_num_1; - seg_num_2]).
  assert (Hfold : forall (ps acc : list (string * list Z)),
             (name, path)
             ∈ fold_left (fun new_paths np =>
                            split_paths_into new_paths (fst np)
                              (split_path_multiple (snd np) segs)) ps acc ->
             (name, path) ∈ acc \/
             exists whole, path ∈ split_path_multiple whole segs).
  { induction ps as [| np ps IH]; simpl; intros acc Hin; [now left |].
    apply IH in Hin as [Hin | Hin]; [| now right].
    apply split_paths_into_elem_of in Hin as [Hin | Hin]; [now left |].
    right. eauto. }
  intros [Hin | (whole & Hpiece)]%Hfold; [inversion Hin |].
  apply split_path_multiple_pieces in Hpiece as (Hfree & _ & Hlen).
  split; [apply Hlen; discriminate |].
  repeat split; apply Hfree; unfold segs; set_solver.
Qed.

Lemma merge_two_segments_paths_free_witness :
  exists g',
    merge_two_segments path_graph 1 2 = Ok g' /\
    ("p"%string, [4; 3]) ∈ paths g' /\
    (1 < length [4; 3])%nat /\
    (1 ∉ [4; 3]) /\ (2 ∉ [4; 3]) /\ (- 1 ∉ [4; 3]) /\ (- 2 ∉ [4; 3]).
Proof.
  destruct (merge_two_segments path_graph 1 2) as [g' |] eqn:Hrun;
    [| vm_compute in Hrun; discriminate Hrun].
  assert (Hin : ("p"%string, [4; 3]) ∈ paths g').
  { vm_compute in Hrun. injection Hrun as <-. left. }
  exists g'. split; [reflexivity |]. split; [exact Hin |].
  exact (merge_two_segments_paths_free path_graph g' 1 2 "p" [4; 3] Hrun Hin).
Defined.

Lemma replace_first_shortens (lst : list Z) (a b replacement : Z)
    (lst' : list Z) :
  replace_first lst [a; b] replacement = Some lst' ->
  (length lst' + 1 = length lst)%nat.
Proof.
  revert lst'. induction lst as [| x lst IH]; simpl; intros lst'; [discriminate |].
  destruct (match lst with
            | [] => false
            | x0 :: lst'0 => (x0 =? b) && true
            end) eqn:Hnext.
  - destruct (x =? a); simpl.
    + intros [= <-]. destruct lst as [| y lst]; [discriminate |]. simpl.
      rewrite drop_0. lia.
    + destruct (replace_first lst [a; b] replacement) as [r |] eqn:Hr;
        simpl; [| discriminate].
      intros [= <-]. simpl. now rewrite (IH r eq_refl).
  - rewrite andb_false_r.
    destruct (replace_first lst [a; b] replacement) as [r |] eqn:Hr;
      simpl; [| discriminate].
    intros [= <-]. simpl. now rewrite (IH r eq_refl).
Qed.

Lemma replace_first_None (lst : list Z) (a b replacement : Z) :
  replace_first lst [a; b] replacement = None ->
  forall l1 l2, lst <> l1 ++ a :: b :: l2.
Proof.
  induction lst as [| x lst IH]; simpl; intros Hnone l1 l2 Heq.
  - now destruct l1.
  - destruct l1 as [| y l1]; simpl in Heq.
    + injection Heq as -> ->. now rewrite !Z.eqb_refl in Hnone.
    + injection Heq as -> ->.
      destruct ((y =? a) && _); [discriminate |].
      destruct (replace_first (l1 ++ a :: b :: l2) [a; b] replacement) eqn:Hr;
        [discriminate |].
      exact (IH eq_refl l1 l2 eq_refl).
Qed.

Lemma find_replace_loop_enough (fuel : nat) (a b replacement : Z) :
  forall lst,
    (length lst <= fuel)%nat ->
    exists lst',
      find_replace_loop fuel lst [a; b] replacement = Ok lst' /\
      replace_first lst' [a; b] replacement = None /\
      (length lst' <= length lst)%nat.
Proof.
  induction fuel as [| fuel IH]; intros lst Hlen.
  - destruct lst; [| simpl in Hlen; lia]. exists []. auto.
  - cbn [find_replace_loop].
    destruct (replace_first lst [a; b] replacement) as [next |] eqn:Hstep.
    + pose proof (replace_first_shortens _ _ _ _ _ Hstep) as Hshort.
      destruct (IH next) as (lst' & Hrun & Hnone & Hle); [lia |].
      exists lst'. split; [exact Hrun |]. split; [exact Hnone | lia].
    + exists lst. auto.
Qed.

(** X9. With a two-element pattern [find_replace_in_list] returns: every
    replacement shortens the list by one, so the loop ends within the length
    of the list. In the list it returns the pattern no longer occurs, and the
    list has not grown. *)
Theorem find_replace_in_list_pair (lst : list Z) (a b replacement : Z) :
  exists lst',
    find_replace_in_list lst [a; b] replacement = Ok lst' /\
    (forall l1 l2, lst' <> l1 ++ a :: b :: l2) /\
    (length lst' <= length lst)%nat.
Proof.
  destruct (find_replace_loop_enough (length lst) a b replacement lst)
    as (lst' & Hrun & Hnone & Hle); [lia |].
  exists lst'. split; [exact Hrun |]. split; [| exact Hle].
  now apply (replace_first_None lst' a b replacement).
Qed.

Lemma insert_num_in_list_head (x : Z) (lst : list Z) (a b ins : Z) :
  exists rest, insert_num_in_list (x :: lst) a b ins = x :: rest.
Proof. destruct lst as [| y lst]; simpl; eauto. Qed.

Lemma insert_num_in_list_cons (x y : Z) (lst : list Z) (a b ins : Z) :
  insert_num_in_list (x :: y :: lst) a b ins
  = x :: (if (x =? a) && (y =? b) then [ins] else [])
      ++ insert_num_in_list (y :: lst) a b ins.
Proof. reflexivity. Qed.

(** X10. [insert_num_in_list] puts the new value between every first value
    that is followed at once by the second value; the list it was given is
    left in place around the new values, and a list without such a pair is
    returned as it is. *)
Theorem insert_num_in_list_inserts (lst : list Z) (a b ins : Z) :
  sublist lst (insert_num_in_list lst a b ins) /\
  ((forall l1 l2, lst <> l1 ++ a :: b :: l2) ->
   insert_num_in_list lst a b ins = lst) /\
  (forall l1 l2,
      lst = l1 ++ a :: b :: l2 ->
      exists r1 r2,
        insert_num_in_list lst a b ins = r1 ++ a :: ins :: b :: r2).
Proof.
  split; [| split].
  - induction lst as [| x [| y lst] IH]; simpl; try constructor;
      [constructor |].
    destruct ((x =? a) && (y =? b)); simpl.
    + constructor. exact IH.
    + exact IH.
  - induction lst as [| x [| y lst] IH]; simpl; intros Hfree; try reflexivity.
    destruct (Z.eqb_spec x a) as [-> | Hx], (Z.eqb_spec y b) as [-> | Hy];
      simpl.
    + exfalso. exact (Hfree [] lst eq_refl).
    + f_equal. apply IH. intros l1 l2 Heq.
      apply (Hfree (a :: l1) l2). simpl. now rewrite Heq.
    + f_equal. apply IH. intros l1 l2 Heq.
      apply (Hfree (x :: l1) l2). simpl. now rewrite Heq.
    + f_equal. apply IH. intros l1 l2 Heq.
      apply (Hfree (x :: l1) l2). simpl. now rewrite Heq.
  - intros l1. revert lst. induction l1 as [| x l1 IH]; intros lst l2 ->.
    + cbn [app]. rewrite insert_num_in_list_cons, !Z.eqb_refl.
      destruct (insert_num_in_list_head b l2 a b ins) as [rest ->].
      exists [], rest. reflexivity.
    + destruct (IH (l1 ++ a :: b :: l2) l2 eq_refl) as (r1 & r2 & Hrest).
      cbn [app].
      destruct (l1 ++ a :: b :: l2) as [| y tail] eqn:Htail;
        [now destruct l1 |].
      rewrite insert_num_in_list_cons, Hrest.
      exists (x :: (if (x =? a) && (y =? b) then [ins] else []) ++ r1), r2.
      cbn [app]. now rewrite <- app_assoc.
Qed.

Lemma insert_num_in_list_inserts_witness :
  (forall l1 l2, [1; 5; 8; 3] <> l1 ++ 2 :: 4 :: l2) /\
  insert_num_in_list [1; 5; 8; 3] 2 4 9 = [1; 5; 8; 3].
Proof.
  assert (H : forall l1 l2, [1; 5; 8; 3] <> l1 ++ 2 :: 4 :: l2).
  { intros l1 l2 Heq.
    destruct l1 as [| ? [| ? [| ? [| ? [| ? l1]]]]]; discriminate Heq. }
  split; [exact H |].
  exact (proj1 (proj2 (insert_num_in_list_inserts [1; 5; 8; 3] 2 4 9)) H).
Defined.

(** ** Merging all unbranching paths *)

Lemma try_to_merge_two_segments_Some (g g' : AssemblyGraph)
    (seg_num_1 seg_num_2 : Z) :
  try_to_merge_two_segments g seg_num_1 seg_num_2 = Ok (Some g') ->
  merge_two_segments g seg_num_1 seg_num_2 = Ok g' /\
  seg_num_1 <> seg_num_2 /\
  forward_links g !! seg_num_1 = Some [seg_num_2] /\
  reverse_links g !! seg_num_2 = Some [seg_num_1].
Proof.
  unfold try_to_merge_two_segments.
  destruct (Z.eqb_spec seg_num_1 seg_num_2) as [| Hne]; [discriminate |].
  destruct (forward_links g !! seg_num_1) as [[| f0 [| ? ?]] |];
    try discriminate;
    destruct (reverse_links g !! seg_num_2) as [[| r0 [| ? ?]] |];
    try discriminate.
  destruct (Z.eqb_spec f0 seg_num_2) as [-> |]; [| discriminate].
  destruct (Z.eqb_spec r0 seg_num_1) as [-> |]; [| discriminate]. simpl.
  destruct (merge_two_segments g seg_num_1 seg_num_2); [| discriminate].
  intros [= <-]. auto.
Qed.

Lemma try_to_merge_two_segments_None (g : AssemblyGraph)
    (seg_num_1 seg_num_2 : Z) :
  try_to_merge_two_segments g seg_num_1 seg_num_2 = Ok None ->
  forward_links g !! seg_num_1 = Some [seg_num_2] ->
  reverse_links g !! seg_num_2 = Some [seg_num_1] ->
  seg_num_1 = seg_num_2.
Proof.
  unfold try_to_merge_two_segments. intros Hrun Hf Hr.
  destruct (Z.eqb_spec seg_num_1 seg_num_2) as [| Hne]; [assumption |].
  rewrite Hf, Hr, !Z.eqb_refl in Hrun. simpl in Hrun.
  destruct (merge_two_segments g seg_num_1 seg_num_2); discriminate.
Qed.

Lemma merge_first_Some (g g' : AssemblyGraph) (nums : list Z) :
  merge_first g nums = Ok (Some g') ->
  exists seg_num_1 seg_num_2,
    try_to_merge_two_segments g seg_num_1 seg_num_2 = Ok (Some g').
Proof.
  induction nums as [| num nums IH]; simpl; [discriminate |].
  intros (m1 & Hm1 & H)%bind_Ok. destruct m1 as [g1 |].
  - injection H as <-.
    destruct (forward_links g !! num) as [[| next [| ? ?]] |];
      try discriminate. eauto.
  - apply bind_Ok in H as (m2 & Hm2 & H). destruct m2 as [g2 |]; [| auto].
    injection H as <-.
    destruct (forward_links g !! (- num)) as [[| next [| ? ?]] |];
      try discriminate. eauto.
Qed.

Lemma merge_first_None (g : AssemblyGraph) (nums : list Z) :
  merge_first g nums = Ok None ->
  forall num u v,
    num ∈ nums -> u = num \/ u = - num ->
    forward_links g !! u = Some [v] ->
    try_to_merge_two_segments g u v = Ok None.
Proof.
  induction nums as [| n nums IH]; simpl; intros Hrun num u v Hnum Hu Hf.
  - inversion Hnum.
  - apply bind_Ok in Hrun as (m1 & Hm1 & Hrun). destruct m1; [discriminate |].
    apply bind_Ok in Hrun as (m2 & Hm2 & Hrun). destruct m2; [discriminate |].
    apply elem_of_cons in Hnum as [-> | Hnum]; [| eauto].
    destruct Hu as [-> | ->].
    + now rewrite Hf in Hm1.
    + now rewrite Hf in Hm2.
Qed.

Lemma merge_all_possible_loop_end (fuel : nat) :
  forall g g',
    merge_all_possible_loop fuel g = Ok g' ->
    merge_first g' (dict_keys (segments g')) = Ok None /\
    (link_symmetry g -> link_symmetry g').
Proof.
  induction fuel as [| fuel IH]; intros g g'; cbn [merge_all_possible_loop];
    intros (merged & Hfirst & Hrun)%bind_Ok.
  - destruct merged; [discriminate |]. injection Hrun as <-. auto.
  - destruct merged as [g1 |].
    + destruct (IH g1 g' Hrun) as [Hend Hsym]. split; [exact Hend |].
      intros Hg. apply Hsym.
      apply merge_first_Some in Hfirst as (s1 & s2 & Htry).
      apply try_to_merge_two_segments_Some in Htry as (Hmerge & _).
      exact (merge_two_segments_link_symmetry g g1 s1 s2 Hg Hmerge).
    + injection Hrun as <-. auto.
Qed.

(** X11. When [merge_all_possible] returns, nothing is left to merge: no
    strand [u] of a segment leads to a single strand [v], other than itself,
    that has [u] as its single start. Link symmetry is kept. *)
Theorem merge_all_possible_fixed_point (g g' : AssemblyGraph) :
  merge_all_possible g = Ok g' ->
  (forall u v,
      Z.abs u ∈ dict_keys (segments g') ->
      forward_links g' !! u = Some [v] ->
      reverse_links g' !! v = Some [u] ->
      u = v) /\
  (link_symmetry g -> link_symmetry g').
Proof.
  unfold merge_all_possible. intros [Hend Hsym]%merge_all_possible_loop_end.
  split; [| exact Hsym]. intros u v Hkey Hf Hr.
  apply (try_to_merge_two_segments_None g' u v); [| exact Hf | exact Hr].
  apply (merge_first_None g' _ Hend (Z.abs u) u v Hkey); [lia | exact Hf].
Qed.

Lemma merge_all_possible_fixed_point_witness :
  exists g',
    merge_all_possible linear_graph = Ok g' /\
    (link_symmetry linear_graph -> link_symmetry g').
Proof.
  destruct (merge_all_possible linear_graph) as [g' |] eqn:Hrun;
    [| vm_compute in Hrun; discriminate Hrun].
  exists g'. split; [reflexivity |].
  exact (proj2 (merge_all_possible_fixed_point linear_graph g' Hrun)).
Defined.

(** X12. [filter_by_read_depth] keeps link symmetry, and changes neither the
    overlap nor the copy depths; the segments it leaves are segments of the
    graph, unchanged and in their order. *)
Theorem filter_by_read_depth_keeps (list_of_set : list Z -> list Z)
    (g g' : AssemblyGraph) (r : Q) :
  filter_by_read_depth list_of_set g r = Ok g' ->
  (link_symmetry g -> link_symmetry g') /\
  sublist (segments g') (segments g) /\
  overlap g' = overlap g /\ copy_depths g' = copy_depths g.
Proof.
  unfold filter_by_read_depth. intros (nums & _ & [= <-])%bind_Ok.
  split; [apply remove_segments_link_symmetry |].
  split; [apply sublist_filter |]. split; reflexivity.
Qed.

Lemma filter_by_read_depth_keeps_witness :
  exists g',
    filter_by_read_depth remove_dups dead_end_graph (1 # 10) = Ok g' /\
    sublist (segments g') (segments dead_end_graph).
Proof.
  destruct (filter_by_read_depth remove_dups dead_end_graph (1 # 10))
    as [g' |] eqn:Hrun; [| vm_compute in Hrun; discriminate Hrun].
  exists g'. split; [reflexivity |].
  exact (proj1 (proj2 (filter_by_read_depth_keeps remove_dups dead_end_graph
                         g' (1 # 10) Hrun))).
Defined.

(** ** Connected components, continued *)

Lemma fold_visit_grows (ks : list Z) :
  forall (visited visited' : gset Z) (q q' : list Z),
    fold_left visit ks (visited, q) = (visited', q') ->
    (forall x, x ∈ visited -> x ∈ visited') /\
    (forall k, k ∈ ks -> k ∈ visited').
Proof.
  induction ks as [| k ks IH]; cbn [fold_left]; intros visited visited' q q'.
  - intros [= <- <-]. split; [auto | intros k Hk; inversion Hk].
  - intros Hrun. unfold visit at 2 in Hrun.
    case_bool_decide as Hseen.
    + destruct (IH _ _ _ _ Hrun) as [Hmono Hks]. split; [exact Hmono |].
      intros k' [-> | Hk']%elem_of_cons; auto.
    + destruct (IH _ _ _ _ Hrun) as [Hmono Hks]. split.
      * intros x Hx. apply Hmono, elem_of_union. now right.
      * intros k' [-> | Hk']%elem_of_cons; [| auto].
        apply Hmono, elem_of_union. left. now apply elem_of_singleton.
Qed.

Section ComponentsClosed.
Variable list_of_set : list Z -> list Z.
Variable g : AssemblyGraph.

Lemma component_from_neighbours (fuel : nat) :
  forall (visited visited' : gset Z) (q component component' : list Z),
    component_from list_of_set fuel g visited q component
    = Ok (visited', component') ->
    (forall w k, w ∈ component ->
                 k ∈ get_connected_segments list_of_set g w -> k ∈ visited) ->
    forall w k, w ∈ component' ->
                k ∈ get_connected_segments list_of_set g w -> k ∈ visited'.
Proof.
  induction fuel as [| fuel IH];
    intros visited visited' q component component' Hrun Hnb.
  - destruct q; [| discriminate]. injection Hrun as <- <-. exact Hnb.
  - destruct q as [| w0 q]; [injection Hrun as <- <-; exact Hnb |].
    cbn [component_from] in Hrun.
    destruct (fold_left visit (get_connected_segments list_of_set g w0)
                        (visited, q)) as [visited1 q1] eqn:Hfold.
    destruct (fold_visit_grows _ _ _ _ _ Hfold) as [Hmono Hks].
    apply (IH _ _ _ _ _ Hrun).
    intros w k [Hw | ->%list_elem_of_singleton]%elem_of_app Hk; eauto.
Qed.

Hypothesis Henum : set_enumeration list_of_set.
Hypothesis Hclosed : links_closed g.

Lemma neighbours_before_snoc (components : list (list Z)) (c : list Z) :
  neighbours_before list_of_set g components ->
  (forall w k, w ∈ c -> k ∈ get_connected_segments list_of_set g w ->
               k ∈ concat components ++ c) ->
  neighbours_before list_of_set g (components ++ [c]).
Proof.
  intros Hold Hnew l1 c0 l2 w k Heq Hw Hk.
  destruct l2 as [| c1 l2] using rev_ind.
  - apply app_inj_tail in Heq as [-> ->]. exact (Hnew w k Hw Hk).
  - clear IHl2. rewrite app_comm_cons, app_assoc in Heq.
    apply app_inj_tail in Heq as [Heq _]. exact (Hold _ _ _ w k Heq Hw Hk).
Qed.

Lemma components_over_neighbours (nums : list Z) :
  forall (visited : gset Z) (components components' : list (list Z)),
    search_state (dict_keys (segments g)) (concat components) visited [] ->
    (forall v, v ∈ nums -> v ∈ dict_keys (segments g)) ->
    neighbours_before list_of_set g components ->
    (forall c, c ∈ components -> c <> []) ->
    components_over list_of_set g nums visited components = Ok components' ->
    neighbours_before list_of_set g components' /\
    (forall c, c ∈ components' -> c <> []).
Proof.
  induction nums as [| v nums IH];
    intros visited components components' Hstate Hnums Hnb Hne; simpl.
  - intros [= <-]. auto.
  - case_bool_decide as Hseen.
    + apply IH; auto. intros v' Hv'. apply Hnums. now right.
    + destruct (component_from_spec list_of_set Henum g Hclosed
                  (concat components) (component_fuel g)
                  ({[v]} ∪ visited) [v] [])
        as (visited' & component & Hrun & Hend & Hsub).
      { rewrite app_nil_r. destruct Hstate as (Hnodup & Hvis & Hkeys).
        rewrite app_nil_r in *. repeat split.
        - apply NoDup_app. split; [exact Hnodup |].
          split; [| apply NoDup_singleton].
          intros x Hx ->%list_elem_of_singleton. apply Hseen, Hvis, Hx.
        - rewrite elem_of_union, elem_of_singleton, elem_of_app,
            list_elem_of_singleton, Hvis. tauto.
        - rewrite elem_of_union, elem_of_singleton, elem_of_app,
            list_elem_of_singleton, Hvis. tauto.
        - intros x [Hx | ->%list_elem_of_singleton]%elem_of_app; auto.
          apply Hnums. left. }
      { pose proof (component_fuel_enough g). lia. }
      rewrite Hrun. simpl.
      assert (Hconcat : concat (components ++ [component])
                        = concat components ++ component).
      { rewrite concat_app. simpl. now rewrite app_nil_r. }
      apply IH.
      * now rewrite Hconcat.
      * intros v' Hv'. apply Hnums. now right.
      * apply neighbours_before_snoc; [exact Hnb |].
        intros w k Hw Hk. destruct Hend as (_ & Hvis & _).
        rewrite app_nil_r in Hvis. apply Hvis.
        refine (component_from_neighbours _ _ _ _ _ _ Hrun _ w k Hw Hk).
        intros w' k' Hw'. inversion Hw'.
      * intros c [Hc | ->%list_elem_of_singleton]%elem_of_app; [auto |].
        intros ->. specialize (Hsub v). simpl in Hsub.
        specialize (Hsub (list_elem_of_here _ _)). inversion Hsub.
Qed.

End ComponentsClosed.

Lemma elem_of_map_abs (l : list Z) (k : Z) :
  k ∈ map Z.abs l <-> exists x, Z.abs x = k /\ x ∈ l.
Proof.
  rewrite list_elem_of_In, in_map_iff.
  split; intros (x & Hx & Hin); exists x; split; try exact Hx;
    now apply list_elem_of_In.
Qed.

Lemma elem_of_linked_abs (links : gmap Z (list Z)) (w k : Z) :
  k ∈ match links !! w with
      | Some linked_segments => map Z.abs linked_segments
      | None => []
      end <->
  exists x, Z.abs x = k /\ linked links w x.
Proof.
  unfold linked. destruct (links !! w) as [l |]; simpl.
  - apply elem_of_map_abs.
  - split; [intros H; inversion H | intros (x & _ & H); inversion H].
Qed.

Lemma connected_segments_spec (list_of_set : list Z -> list Z)
    (g : AssemblyGraph) (w k : Z) :
  set_enumeration list_of_set ->
  k ∈ get_connected_segments list_of_set g w <->
  exists x, Z.abs x = k /\
            (linked (forward_links g) w x \/ linked (reverse_links g) w x).
Proof.
  intros Henum. unfold get_connected_segments.
  rewrite (Henum _), elem_of_remove_dups, elem_of_app, !elem_of_linked_abs.
  split.
  - intros [(x & Hx & Hin) | (x & Hx & Hin)]; eauto.
  - intros (x & Hx & [Hin | Hin]); eauto.
Qed.

Lemma connected_segments_symmetric (list_of_set : list Z -> list Z)
    (g : AssemblyGraph) (w k : Z) :
  set_enumeration list_of_set -> link_symmetry g -> 0 <= w ->
  k ∈ get_connected_segments list_of_set g w ->
  w ∈ get_connected_segments list_of_set g k.
Proof.
  intros Henum [Htwin Htr]%link_symmetry_spec Hw.
  rewrite !(connected_segments_spec _ _ _ _ Henum).
  intros (x & Hx & Hlink).
  assert (Hcases : x = k \/ x = - k) by lia.
  destruct Hlink as [Hf | Hr], Hcases as [-> | ->].
  - exists w. split; [lia |]. right. now apply Htr.
  - exists (- w). split; [lia |]. left.
    apply Htwin in Hf. now rewrite Z.opp_involutive in Hf.
  - exists w. split; [lia |]. left. now apply Htr.
  - exists (- w). split; [lia |]. right.
    apply Htr, Htwin in Hr. rewrite Z.opp_involutive in Hr. now apply Htr.
Qed.

(** X13. On a graph whose links end at segments, [get_connected_components]
    returns a partition of the segment numbers: every segment number is in
    one component, no number occurs twice, and no component is empty. *)
Theorem get_connected_components_partition (list_of_set : list Z -> list Z)
    (g : AssemblyGraph) :
  set_enumeration list_of_set ->
  links_closed g ->
  exists components,
    get_connected_components list_of_set g = Ok components /\
    NoDup (concat components) /\
    (forall x, x ∈ concat components <-> x ∈ dict_keys (segments g)) /\
    (forall c, c ∈ components -> c <> []).
Proof.
  intros Henum Hclosed.
  destruct (get_connected_components_spec list_of_set Henum g Hclosed)
    as (components & Hrun & Hnodup & Hcover).
  exists components. split; [exact Hrun |]. split; [exact Hnodup |].
  split; [exact Hcover |].
  refine (proj2 (components_over_neighbours list_of_set g Henum Hclosed
                   (dict_keys (segments g)) ∅ [] components _ _ _ _ Hrun)).
  - repeat split; simpl; try apply NoDup_nil_2; try set_solver.
  - auto.
  - intros l1 c l2 w k Heq. now destruct l1.
  - intros c Hc. inversion Hc.
Qed.

Lemma dead_end_graph_closed : links_closed dead_end_graph.
Proof.
  unfold links_closed. apply (bool_decide_unpack _). vm_compute. exact I.
Defined.

Lemma set_enumeration_remove_dups : set_enumeration remove_dups.
Proof. intros l. reflexivity. Defined.

Lemma get_connected_components_partition_witness :
  set_enumeration remove_dups /\
  links_closed dead_end_graph /\
  exists components,
    get_connected_components remove_dups dead_end_graph = Ok components /\
    NoDup (concat components) /\
    (forall x, x ∈ concat components
               <-> x ∈ dict_keys (segments dead_end_graph)) /\
    (forall c, c ∈ components -> c <> []).
Proof.
  split; [exact set_enumeration_remove_dups |].
  split; [exact dead_end_graph_closed |].
  exact (get_connected_components_partition remove_dups dead_end_graph
           set_enumeration_remove_dups dead_end_graph_closed).
Defined.

(** X14. On a graph with link symmetry whose links end at segments and whose
    segment numbers are positive, the two ends of a link are in the same
    component, whatever their strands. *)
Theorem get_connected_components_closed (list_of_set : list Z -> list Z)
    (g : AssemblyGraph) (components : list (list Z)) :
  set_enumeration list_of_set ->
  links_closed g ->
  link_symmetry g ->
  Forall (fun ns => 0 < fst ns) (segments g) ->
  get_connected_components list_of_set g = Ok components ->
  forall c u v,
    c ∈ components -> linked (forward_links g) u v ->
    Z.abs u ∈ c -> Z.abs v ∈ c.
Proof.
  intros Henum Hclosed Hsym Hpos Hrun c u v Hc Hlink Hu.
  destruct (get_connected_components_spec list_of_set Henum g Hclosed)
    as (components0 & Hrun0 & Hnodup & Hcover).
  rewrite Hrun in Hrun0. injection Hrun0 as <-.
  assert (Hnb : neighbours_before list_of_set g components).
  { refine (proj1 (components_over_neighbours list_of_set g Henum Hclosed
                     (dict_keys (segments g)) ∅ [] components _ _ _ _ Hrun)).
    - repeat split; simpl; try apply NoDup_nil_2; try set_solver.
    - auto.
    - intros l1 c0 l2 w k Heq. now destruct l1.
    - intros c0 Hc0. inversion Hc0. }
  assert (Hkeys_pos : forall x, x ∈ dict_keys (segments g) -> 0 < x).
  { intros x Hx. apply list_elem_of_In, in_map_iff in Hx as (ns & <- & Hns).
    rewrite Forall_forall in Hpos. apply Hpos, list_elem_of_In, Hns. }
  assert (Hneighbour : Z.abs v ∈ get_connected_segments list_of_set g (Z.abs u)).
  { apply (connected_segments_spec _ _ _ _ Henum).
    apply link_symmetry_spec in Hsym as [Htwin Htr].
    destruct (Z.le_gt_cases 0 u) as [Hu0 | Hu0].
    - exists v. split; [reflexivity |]. left. now rewrite Z.abs_eq.
    - exists (- v). split; [lia |]. right.
      rewrite Z.abs_neq by lia. now apply Htr, Htwin. }
  set (w := Z.abs u) in *. set (k := Z.abs v) in *.
  apply list_elem_of_split in Hc as (l1 & l2 & ->).
  pose proof (Hnb l1 c l2 w k eq_refl Hu Hneighbour) as Hk.
  apply elem_of_app in Hk as [Hk | Hk]; [| exact Hk]. exfalso.
  apply elem_of_concat in Hk as (c0 & Hc0 & Hk).
  apply list_elem_of_split in Hc0 as (a & b & ->).
  assert (Hw0 : 0 <= w).
  { apply Z.lt_le_incl, Hkeys_pos, Hcover, elem_of_concat.
    exists c. split; [| exact Hu]. rewrite elem_of_app, elem_of_cons. auto. }
  pose proof (connected_segments_symmetric list_of_set g w k Henum Hsym Hw0
                Hneighbour) as Hback.
  assert (Heq : (a ++ c0 :: b) ++ c :: l2 = a ++ c0 :: (b ++ c :: l2))
    by now rewrite <- app_assoc.
  pose proof (Hnb a c0 (b ++ c :: l2) k w Heq Hk Hback) as Hw.
  rewrite concat_app in Hnodup. simpl in Hnodup.
  apply NoDup_app in Hnodup as (_ & Hdisj & _).
  apply (Hdisj w).
  - rewrite concat_app. simpl. rewrite !elem_of_app in *. tauto.
  - apply elem_of_app. now left.
Qed.

Lemma linear_graph_closed : links_closed linear_graph.
Proof.
  unfold links_closed. apply (bool_decide_unpack _). vm_compute. exact I.
Defined.

Lemma linear_graph_positive :
  Forall (fun ns => 0 < fst ns) (segments linear_graph).
Proof. apply (bool_decide_unpack _). vm_compute. exact I. Defined.

Lemma get_connected_components_closed_witness :
  set_enumeration remove_dups /\
  links_closed linear_graph /\
  link_symmetry linear_graph /\
  Forall (fun ns => 0 < fst ns) (segments linear_graph) /\
  get_connected_components remove_dups linear_graph = Ok [[1; 2; 3]] /\
  [1; 2; 3] ∈ [[1; 2; 3]] /\
  linked (forward_links linear_graph) (-2) (-1) /\
  Z.abs (-2) ∈ [1; 2; 3] /\
  Z.abs (-1) ∈ [1; 2; 3].
Proof.
  assert (Hrun : get_connected_components remove_dups linear_graph
                 = Ok [[1; 2; 3]]) by (vm_compute; reflexivity).
  assert (Hc : [1; 2; 3] ∈ [[1; 2; 3]])
    by (apply (bool_decide_unpack _); vm_compute; exact I).
  assert (Hlink : linked (forward_links linear_graph) (-2) (-1))
    by (unfold linked; apply (bool_decide_unpack _); vm_compute; exact I).
  assert (Hu : Z.abs (-2) ∈ [1; 2; 3])
    by (apply (bool_decide_unpack _); vm_compute; exact I).
  repeat (split; [first [ exact set_enumeration_remove_dups
                        | exact linear_graph_closed
                        | exact link_symmetry_linear_graph
                        | exact linear_graph_positive
                        | assumption ] |]).
  exact (get_connected_components_closed remove_dups linear_graph [[1; 2; 3]]
           set_enumeration_remove_dups linear_graph_closed
           link_symmetry_linear_graph linear_graph_positive Hrun
           [1; 2; 3] (-2) (-1) Hc Hlink Hu).
Defined.

(** ** Building the link dictionaries *)

Lemma linked_append_always (links : gmap Z (list Z)) (k x u v : Z) :
  linked (append_always links k x) u v <->
  linked links u v \/ (u = k /\ v = x).
Proof.
  unfold append_always, linked.
  destruct (links !! k) as [l |] eqn:Hk; simpl.
  - rewrite Hk. simpl. destruct (decide (u = k)) as [-> | Hne].
    + rewrite lookup_insert_eq, Hk. simpl.
      rewrite elem_of_app, list_elem_of_singleton. tauto.
    + rewrite lookup_insert_ne by congruence. tauto.
  - rewrite lookup_insert_eq. simpl. destruct (decide (u = k)) as [-> | Hne].
    + rewrite lookup_insert_eq, Hk. simpl.
      rewrite list_elem_of_singleton. split; [auto |].
      intros [H | [_ ->]]; [inversion H | reflexivity].
    + rewrite !lookup_insert_ne by congruence. tauto.
Qed.

Lemma linked_rc_links_of (ends : list Z) :
  forall (new_links : gmap Z (list Z)) (start u v : Z),
    linked (rc_links_of new_links start ends) u v <->
    linked new_links u v \/ (- u ∈ ends /\ v = - start).
Proof.
  unfold rc_links_of.
  induction ends as [| e ends IH]; intros new_links start u v; simpl.
  - split; [auto | intros [H | [H _]]; [exact H | inversion H]].
  - rewrite IH, linked_append_if_missing, elem_of_cons.
    split.
    + intros [[H | [-> ->]] | [H ->]]; auto.
      right. split; [left; lia | reflexivity].
    + intros [H | [[H | H] ->]]; auto.
      left. right. split; [lia | reflexivity].
Qed.

(** The inner loop does not touch the list it walks. *)
Lemma rc_links_of_start (ends : list Z) :
  forall (new_links : gmap Z (list Z)) (start : Z),
    (forall e, e ∈ ends -> linked new_links start e) ->
    rc_links_of new_links start ends !! start = new_links !! start.
Proof.
  unfold rc_links_of.
  induction ends as [| e ends IH]; intros new_links start Hends; simpl.
  - reflexivity.
  - assert (Hkeep : append_if_missing new_links (- e) (- start) !! start
                    = new_links !! start).
    { destruct (decide (start = - e)) as [-> | Hne].
      - rewrite append_if_missing_id; [reflexivity |].
        rewrite Z.opp_involutive.
        exact (Hends e (list_elem_of_here _ _)).
      - unfold append_if_missing.
        destruct (new_links !! (- e)) as [l |] eqn:Hl; simpl.
        + rewrite Hl. simpl.
          destruct (bool_decide (- start ∈ l)); [reflexivity |].
          rewrite lookup_insert_ne; [reflexivity |].
          intros Heq. apply Hne. now rewrite <- Heq.
        + rewrite lookup_insert_eq. simpl.
          assert (Hk : - e <> start) by (intros Heq; apply Hne; now rewrite <- Heq).
          now rewrite !lookup_insert_ne by exact Hk. }
    rewrite IH; [exact Hkeep |].
    intros e' He'. unfold linked. rewrite Hkeep.
    apply Hends. now right.
Qed.

Lemma elem_of_keys_of (m : gmap Z (list Z)) (k : Z) :
  k ∈ keys_of m <-> is_Some (m !! k).
Proof.
  unfold keys_of. rewrite list_elem_of_fmap. split.
  - intros ([k' l] & -> & Hin). apply elem_of_map_to_list in Hin. eauto.
  - intros [l Hl]. exists (k, l). split; [reflexivity |].
    now apply elem_of_map_to_list.
Qed.

Section BuildLinks.
Variable iterkeys : gmap Z (list Z) -> list Z.
Hypothesis Henum : dict_enumeration iterkeys.

Lemma linked_iterkeys (links : gmap Z (list Z)) (u v : Z) :
  linked links u v -> u ∈ iterkeys links.
Proof.
  intros H. rewrite (Henum links). apply elem_of_keys_of.
  exact (linked_is_Some _ _ _ H).
Qed.

Lemma rc_links_fold (links : gmap Z (list Z)) (keys : list Z) :
  forall new_links : gmap Z (list Z),
    (forall u v, linked links u v -> linked new_links u v) ->
    (forall u v, linked new_links u v ->
                 linked links u v \/ linked links (- v) (- u)) ->
    let final :=
      fold_left (fun new_links start =>
                   rc_links_of new_links start
                               (default [] (new_links !! start)))
                keys new_links in
    (forall u v, linked new_links u v -> linked final u v) /\
    (forall u v, linked final u v ->
                 linked links u v \/ linked links (- v) (- u)) /\
    (forall s e, s ∈ keys -> linked links s e -> linked final (- e) (- s)).
Proof.
  induction keys as [| k keys IH]; intros new_links Hold Hsound; simpl.
  - split; [auto |]. split; [exact Hsound |]. intros s e H. inversion H.
  - set (next := rc_links_of new_links k (default [] (new_links !! k))).
    assert (Hnext : forall u v, linked next u v <->
                      linked new_links u v \/
                      (linked new_links k (- u) /\ v = - k)).
    { intros u v. unfold next. now rewrite linked_rc_links_of. }
    destruct (IH next) as (Hmono & Hsound' & Htwins).
    + intros u v H. apply Hnext. auto.
    + intros u v [H | [H ->]]%Hnext; [auto |].
      apply Hsound in H as [H | H].
      * right. now rewrite Z.opp_involutive.
      * left. now rewrite Z.opp_involutive in H.
    + split; [| split].
      * intros u v H. apply Hmono, Hnext. auto.
      * exact Hsound'.
      * intros s e [-> | Hs]%elem_of_cons Hlink; [| auto].
        apply Hmono, Hnext. right. split; [| reflexivity].
        rewrite Z.opp_involutive. auto.
Qed.

Lemma linked_build_rc_links_if_necessary (links : gmap Z (list Z)) (u v : Z) :
  linked (build_rc_links_if_necessary iterkeys links) u v <->
  linked links u v \/ linked links (- v) (- u).
Proof.
  destruct (rc_links_fold links (iterkeys links) links)
    as (Hmono & Hsound & Htwins); [auto | auto |].
  unfold build_rc_links_if_necessary. split; [apply Hsound |].
  intros [H | H]; [auto |].
  specialize (Htwins (- v) (- u) (linked_iterkeys _ _ _ H) H).
  now rewrite !Z.opp_involutive in Htwins.
Qed.

Lemma reverse_links_inner (ends : list Z) :
  forall (reverse_links : gmap Z (list Z)) (start u v : Z),
    linked (fold_left (fun reverse_links end_ =>
                         append_always reverse_links end_ start)
                      ends reverse_links) v u <->
    linked reverse_links v u \/ (v ∈ ends /\ u = start).
Proof.
  induction ends as [| e ends IH]; intros reverse_links start u v; simpl.
  - split; [auto | intros [H | [H _]]; [exact H | inversion H]].
  - rewrite IH, linked_append_always, elem_of_cons. split.
    + intros [[H | [-> ->]] | [H ->]]; auto.
    + intros [H | [[-> | H] ->]]; auto.
Qed.

Lemma reverse_links_fold (links : gmap Z (list Z)) (keys : list Z) :
  forall (reverse_links : gmap Z (list Z)) (u v : Z),
    linked (fold_left
              (fun reverse_links start =>
                 fold_left (fun reverse_links end_ =>
                              append_always reverse_links end_ start)
                           (default [] (links !! start)) reverse_links)
              keys reverse_links) v u <->
    linked reverse_links v u \/ (u ∈ keys /\ linked links u v).
Proof.
  induction keys as [| k keys IH]; intros reverse_links u v; simpl.
  - split; [auto | intros [H | [H _]]; [exact H | inversion H]].
  - rewrite IH, reverse_links_inner, elem_of_cons. unfold linked at 2 4.
    split.
    + intros [[H | [H ->]] | [H Hl]]; auto.
    + intros [H | [[-> | H] Hl]]; auto.
Qed.

Lemma linked_build_reverse_links (links : gmap Z (list Z)) (u v : Z) :
  linked (build_reverse_links iterkeys links) v u <-> linked links u v.
Proof.
  unfold build_reverse_links. rewrite reverse_links_fold. split.
  - intros [H | [_ H]]; [| exact H].
    unfold linked in H. rewrite lookup_empty in H. inversion H.
  - intros H. right. split; [exact (linked_iterkeys _ _ _ H) | exact H].
Qed.

End BuildLinks.

Lemma dict_enumeration_keys_of : dict_enumeration keys_of.
Proof. intros m. reflexivity. Defined.

(** X15. The two functions with which the loaders build the link
    dictionaries give link symmetry, in whatever order the dictionaries are
    walked: the forward view holds the given links and their
    reverse-complement twins and nothing else, and the reverse view is its
    transpose. The list of a start is not changed while the inner loop walks
    it. *)
Theorem build_links_link_symmetry (iterkeys : gmap Z (list Z) -> list Z)
    (links : gmap Z (list Z)) :
  dict_enumeration iterkeys ->
  let fwd := build_rc_links_if_necessary iterkeys links in
  let rev := build_reverse_links iterkeys fwd in
  (forall u v, linked fwd u v <->
               linked links u v \/ linked links (- v) (- u)) /\
  twin_symmetric fwd /\
  transposed fwd rev /\
  (forall new_links start,
      rc_links_of new_links start (default [] (new_links !! start)) !! start
      = new_links !! start).
Proof.
  intros Henum fwd rev.
  assert (Hfwd : forall u v, linked fwd u v <->
                   linked links u v \/ linked links (- v) (- u))
    by (intros u v; apply linked_build_rc_links_if_necessary, Henum).
  split; [exact Hfwd |]. split; [| split].
  - apply twin_symmetric_spec. intros u v H. apply Hfwd.
    apply Hfwd in H. rewrite !Z.opp_involutive. tauto.
  - apply transposed_spec. intros u v. symmetry.
    apply linked_build_reverse_links, Henum.
  - intros new_links start. apply rc_links_of_start. auto.
Qed.

Lemma build_links_link_symmetry_witness :
  dict_enumeration keys_of /\
  let fwd := build_rc_links_if_necessary keys_of {[ 1 := [2; -3] ]} in
  let rev := build_reverse_links keys_of fwd in
  (forall u v, linked fwd u v <->
               linked {[ 1 := [2; -3] ]} u v \/
               linked {[ 1 := [2; -3] ]} (- v) (- u)) /\
  twin_symmetric fwd /\
  transposed fwd rev /\
  (forall new_links start,
      rc_links_of new_links start (default [] (new_links !! start)) !! start
      = new_links !! start).
Proof.
  split; [exact dict_enumeration_keys_of |].
  exact (build_links_link_symmetry keys_of {[ 1 := [2; -3] ]}
           dict_enumeration_keys_of).
Defined.

(** X16. [build_rc_links_if_necessary] adds only what is missing: a
    dictionary in which every link has its twin is returned as it is,
    whatever the order in which it is walked. *)
Theorem build_rc_links_if_necessary_id (iterkeys : gmap Z (list Z) -> list Z)
    (links : gmap Z (list Z)) :
  twin_symmetric links ->
  build_rc_links_if_necessary iterkeys links = links.
Proof.
  intros Htwin. rewrite twin_symmetric_spec in Htwin.
  unfold build_rc_links_if_necessary.
  induction (iterkeys links) as [| k keys IH]; simpl; [reflexivity |].
  assert (Hstep : forall ends,
             (forall e, e ∈ ends -> linked links k e) ->
             rc_links_of links k ends = links).
  { unfold rc_links_of. induction ends as [| e ends IHe]; intros He; simpl.
    - reflexivity.
    - rewrite append_if_missing_id.
      + apply IHe. intros e' H. apply He. now right.
      + apply Htwin, He. now left. }
  rewrite Hstep; [exact IH | auto].
Qed.

Lemma build_rc_links_if_necessary_id_witness :
  twin_symmetric (forward_links linear_graph) /\
  build_rc_links_if_necessary keys_of (forward_links linear_graph)
  = forward_links linear_graph.
Proof.
  split; [exact (proj1 link_symmetry_linear_graph) |].
  exact (build_rc_links_if_necessary_id keys_of (forward_links linear_graph)
           (proj1 link_symmetry_linear_graph)).
Defined.

(** X17. [is_link_positive] picks one link of every pair of twins: a link
    that is its own twin is positive, and of a link [start -> end] and its
    twin [-end -> -start] just one is positive. *)
Theorem is_link_positive_one_of_twins (start end_ : Z) :
  is_link_positive start end_
  = if start =? - end_ then true
    else negb (is_link_positive (- end_) (- start)).
Proof.
  unfold is_link_positive.
  destruct (0 <? start) eqn:H1, (0 <? end_) eqn:H2,
           (start <? 0) eqn:H3, (end_ <? 0) eqn:H4,
           (start =? - end_) eqn:H5,
           (0 <? - end_) eqn:H6, (0 <? - start) eqn:H7,
           (- end_ <? 0) eqn:H8, (- start <? 0) eqn:H9,
           (- end_ =? - - start) eqn:H10,
           (Z.abs end_ <? Z.abs start) eqn:H11,
           (Z.abs (- start) <? Z.abs (- end_)) eqn:H12;
    simpl; try reflexivity; exfalso; lia.
Qed.

(** ** The median read depth *)

Lemma fold_bases (overlap : Z) (l : list Segment) :
  forall a,
    fold_left (fun t segment => t + get_length_no_overlap segment overlap) l a
    = a + bases overlap l.
Proof.
  unfold bases. induction l as [| x l IH]; intros a; simpl; [lia |].
  rewrite IH, (IH (0 + _)). lia.
Qed.

Lemma bases_cons (overlap : Z) (x : Segment) (l : list Segment) :
  bases overlap (x :: l) = get_length_no_overlap x overlap + bases overlap l.
Proof. unfold bases at 1. simpl. now rewrite fold_bases. Qed.

Lemma bases_app (overlap : Z) (l1 l2 : list Segment) :
  bases overlap (l1 ++ l2) = bases overlap l1 + bases overlap l2.
Proof.
  induction l1 as [| x l1 IH]; simpl; [reflexivity |].
  rewrite !bases_cons, IH. lia.
Qed.

Lemma bases_perm (overlap : Z) (l l' : list Segment) :
  l ≡ₚ l' -> bases overlap l = bases overlap l'.
Proof.
  induction 1; rewrite ?bases_cons; lia.
Qed.

Lemma bases_nonneg (overlap : Z) (l : list Segment) :
  Forall (fun s => 0 <= get_length_no_overlap s overlap) l ->
  0 <= bases overlap l.
Proof.
  induction 1 as [| x l Hx _ IH]; [reflexivity |]. rewrite bases_cons. lia.
Qed.

Lemma bases_filter_le (overlap : Z) (p : Segment -> bool) (l : list Segment) :
  Forall (fun s => 0 <= get_length_no_overlap s overlap) l ->
  0 <= bases overlap (List.filter p l) <= bases overlap l.
Proof.
  induction 1 as [| x l Hx _ IH]; simpl; [unfold bases; simpl; lia |].
  destruct (p x); rewrite ?bases_cons; lia.
Qed.

Lemma list_filter_perm {A} (p : A -> bool) (l l' : list A) :
  l ≡ₚ l' -> List.filter p l ≡ₚ List.filter p l'.
Proof.
  induction 1 as [| x l l' _ IH | x y l | l l' l'' _ IH1 _ IH2]; simpl.
  - reflexivity.
  - destruct (p x); [now constructor | exact IH].
  - destruct (p x), (p y); try reflexivity. apply Permutation_swap.
  - now rewrite IH1.
Qed.

Lemma median_scan_spec (overlap halfway_length : Z) (l : list Segment) :
  forall length_so_far,
    l <> [] ->
    halfway_length <= length_so_far + bases overlap l ->
    exists l1 x l2,
      l = l1 ++ x :: l2 /\
      median_scan overlap halfway_length length_so_far l = depth x /\
      (l1 <> [] -> length_so_far + bases overlap l1 < halfway_length) /\
      halfway_length
      <= length_so_far + bases overlap l1 + get_length_no_overlap x overlap.
Proof.
  induction l as [| x l IH]; intros a Hne Hsum; [congruence |].
  simpl. rewrite bases_cons in Hsum.
  destruct (halfway_length <=? a + get_length_no_overlap x overlap) eqn:Hle.
  - exists [], x, l. apply Z.leb_le in Hle.
    split; [reflexivity |]. split; [reflexivity |].
    split; [congruence |]. unfold bases. simpl. lia.
  - apply Z.leb_gt in Hle.
    destruct (IH (a + get_length_no_overlap x overlap))
      as (l1 & y & l2 & -> & Hscan & Hbefore & Hat).
    + intros ->. unfold bases in Hsum. simpl in Hsum. lia.
    + lia.
    + exists (x :: l1), y, l2. split; [reflexivity |].
      split; [exact Hscan |]. rewrite bases_cons. split; [| lia].
      intros _. destruct l1 as [| z l1].
      * unfold bases. simpl. lia.
      * specialize (Hbefore ltac:(congruence)). lia.
Qed.

Lemma StronglySorted_middle {A} (R : A -> A -> Prop) (l1 l2 : list A) (x : A) :
  StronglySorted R (l1 ++ x :: l2) ->
  Forall (fun y => R y x) l1 /\ Forall (R x) l2.
Proof.
  induction l1 as [| y l1 IH]; simpl; intros Hsorted.
  - apply StronglySorted_inv in Hsorted as [_ Hall]. auto.
  - apply StronglySorted_inv in Hsorted as [Hsorted Hall].
    destruct (IH Hsorted) as [H1 H2]. split; [| exact H2].
    constructor; [| exact H1].
    rewrite Forall_forall in Hall. apply Hall.
    rewrite elem_of_app, elem_of_cons. auto.
Qed.

Lemma sorted_by_depth_spec (l : list Segment) :
  StronglySorted (fun x y => (depth x <= depth y)%Q) (sorted_by_depth l) /\
  sorted_by_depth l ≡ₚ l.
Proof.
  split; [| apply sorted_perm].
  apply Sorted_StronglySorted.
  - intros x y z Hxy Hyz. now apply Qle_trans with (y := depth y).
  - apply sorted_Sorted.
    + intros x y Hxy. now apply Qle_bool_iff.
    + intros x y Hxy.
      destruct (Qlt_le_dec (depth y) (depth x)) as [Hlt | Hle];
        [apply Qlt_le_weak, Hlt |].
      apply Qle_bool_iff in Hle. congruence.
Qed.

Lemma list_filter_all {A} (p : A -> bool) (l : list A) :
  Forall (fun x => p x = true) l -> List.filter p l = l.
Proof.
  induction 1 as [| x l Hx _ IH]; simpl; [reflexivity |].
  now rewrite Hx, IH.
Qed.

Lemma list_filter_none {A} (p : A -> bool) (l : list A) :
  Forall (fun x => p x = false) l -> List.filter p l = [].
Proof.
  induction 1 as [| x l Hx _ IH]; simpl; [reflexivity |].
  now rewrite Hx, IH.
Qed.

(** X18. [get_median_read_depth] is a median by base. For a list of segments
    that is not empty and whose sequences are at least as long as the
    overlap, the depth it returns is the depth of one of the segments; the
    segments of a lower depth hold at most half of the bases (rounded down),
    and those of that depth or a lower one hold at least half. An empty list
    stands for all segments of the graph. *)
Theorem get_median_read_depth_by_base (g : AssemblyGraph)
    (segment_list : list Segment) :
  segment_list <> [] ->
  Forall (fun s => 0 <= get_length_no_overlap s (overlap g)) segment_list ->
  let m := get_median_read_depth g segment_list in
  let below := List.filter (fun s => Qltb (depth s) m) segment_list in
  let up_to := List.filter (fun s => Qle_bool (depth s) m) segment_list in
  (exists s, s ∈ segment_list /\ depth s = m) /\
  bases (overlap g) below <= bases (overlap g) segment_list / 2 /\
  bases (overlap g) segment_list / 2 <= bases (overlap g) up_to /\
  get_median_read_depth g []
  = get_median_read_depth g (dict_values (segments g)).
Proof.
  intros Hne Hlen m below up_to.
  assert (Hdefault : get_median_read_depth g []
                     = get_median_read_depth g (dict_values (segments g))).
  { unfold get_median_read_depth.
    now destruct (dict_values (segments g)). }
  destruct (sorted_by_depth_spec segment_list) as [Hsorted Hperm].
  set (ov := overlap g) in *.
  assert (Htotal : 0 <= bases ov segment_list) by now apply bases_nonneg.
  assert (Hm : m = median_scan ov (bases ov segment_list / 2) 0
                               (sorted_by_depth segment_list)).
  { unfold m, get_median_read_depth. destruct segment_list; [congruence |].
    fold ov. rewrite fold_bases, Z.add_0_l.
    now rewrite (bases_perm ov _ _ Hperm). }
  destruct (median_scan_spec ov (bases ov segment_list / 2)
              (sorted_by_depth segment_list) 0)
    as (l1 & x & l2 & Hsplit & Hscan & Hbefore & Hat).
  { intros Hnil. rewrite Hnil in Hperm.
    apply Permutation_nil_l in Hperm. congruence. }
  { rewrite (bases_perm ov _ _ Hperm). apply Z.div_le_upper_bound; lia. }
  rewrite <- Hm in Hscan. rewrite Hsplit in Hsorted, Hperm.
  apply StronglySorted_middle in Hsorted as [Hlow Hhigh].
  assert (Hlen' : Forall (fun s => 0 <= get_length_no_overlap s ov)
                         (l1 ++ x :: l2)) by now rewrite Hperm.
  apply Forall_app in Hlen' as [Hlen1 Hlen2].
  apply Forall_cons in Hlen2 as [Hlenx Hlen2].
  split; [| split; [| split]].
  - exists x. split; [| now symmetry].
    rewrite <- Hperm, elem_of_app, elem_of_cons. auto.
  - unfold below.
    rewrite <- (bases_perm ov _ _ (list_filter_perm _ _ _ Hperm)).
    rewrite List.filter_app, bases_app.
    rewrite (list_filter_none _ (x :: l2)).
    + pose proof (proj2 (bases_filter_le ov (fun s => Qltb (depth s) m) l1
                           Hlen1)) as Hle.
      assert (Hnil : bases ov [] = 0) by reflexivity.
      assert (Hhalf : 0 <= bases ov segment_list / 2)
        by (apply Z.div_pos; lia).
      rewrite Hnil. destruct l1 as [| z l1].
      * simpl. rewrite Hnil. lia.
      * specialize (Hbefore ltac:(congruence)). lia.
    + rewrite Hscan. constructor.
      * unfold Qltb. apply negb_false_iff, Qle_bool_iff, Qle_refl.
      * eapply Forall_impl; [exact Hhigh |]. intros y Hy. simpl.
        unfold Qltb. now apply negb_false_iff, Qle_bool_iff.
  - unfold up_to.
    rewrite <- (bases_perm ov _ _ (list_filter_perm _ _ _ Hperm)).
    rewrite List.filter_app, bases_app. simpl.
    rewrite (list_filter_all _ l1).
    + replace (Qle_bool (depth x) m) with true.
      * rewrite bases_cons.
        pose proof (proj1 (bases_filter_le ov
                             (fun s => Qle_bool (depth s) m) l2 Hlen2)).
        lia.
      * symmetry. rewrite Hscan. apply Qle_bool_iff, Qle_refl.
    + eapply Forall_impl; [exact Hlow |]. intros y Hy. simpl.
      rewrite Hscan. now apply Qle_bool_iff.
  - exact Hdefault.
Qed.

Lemma get_median_read_depth_by_base_witness :
  dict_values (segments linear_graph) <> [] /\
  Forall (fun s => 0 <= get_length_no_overlap s (overlap linear_graph))
         (dict_values (segments linear_graph)) /\
  let segment_list := dict_values (segments linear_graph) in
  let m := get_median_read_depth linear_graph segment_list in
  let below := List.filter (fun s => Qltb (depth s) m) segment_list in
  let up_to := List.filter (fun s => Qle_bool (depth s) m) segment_list in
  (exists s, s ∈ segment_list /\ depth s = m) /\
  bases (overlap linear_graph) below
  <= bases (overlap linear_graph) segment_list / 2 /\
  bases (overlap linear_graph) segment_list / 2
  <= bases (overlap linear_graph) up_to /\
  get_median_read_depth linear_graph []
  = get_median_read_depth linear_graph (dict_values (segments linear_graph)).
Proof.
  assert (Hne : dict_values (segments linear_graph) <> []) by discriminate.
  assert (Hlen : Forall (fun s => 0 <= get_length_no_overlap s
                                         (overlap linear_graph))
                        (dict_values (segments linear_graph))).
  { apply (bool_decide_unpack _). vm_compute. exact I. }
  split; [exact Hne |]. split; [exact Hlen |].
  exact (get_median_read_depth_by_base linear_graph
           (dict_values (segments linear_graph)) Hne Hlen).
Defined.

(** ** Normalising the read depths *)

Lemma insert_sorted_map {A} (leb : A -> A -> bool) (f : A -> A) (x : A)
    (l : list A) :
  (forall a b, leb (f a) (f b) = leb a b) ->
  insert_sorted leb (f x) (map f l) = map f (insert_sorted leb x l).
Proof.
  intros Hleb. induction l as [| y l IH]; simpl; [reflexivity |].
  rewrite Hleb. destruct (leb x y); simpl; [reflexivity | now rewrite IH].
Qed.

Lemma sorted_map {A} (leb : A -> A -> bool) (f : A -> A) (l : list A) :
  (forall a b, leb (f a) (f b) = leb a b) ->
  sorted leb (map f l) = map f (sorted leb l).
Proof.
  intros Hleb. induction l as [| x l IH]; simpl; [reflexivity |].
  now rewrite IH, insert_sorted_map.
Qed.

Lemma Qle_bool_div (m x y : Q) :
  (0 < m)%Q -> Qle_bool (x / m) (y / m) = Qle_bool x y.
Proof.
  intros Hm. apply eq_true_iff_eq. rewrite !Qle_bool_iff. unfold Qdiv.
  apply Qmult_le_r. now apply Qinv_lt_0_compat.
Qed.

Lemma bases_map_with_depth_over (overlap : Z) (m : Q) (l : list Segment) :
  bases overlap (map (with_depth_over m) l) = bases overlap l.
Proof.
  induction l as [| x l IH]; simpl; [reflexivity |].
  now rewrite !bases_cons, IH.
Qed.

Lemma median_scan_with_depth_over (overlap halfway_length : Z) (m : Q)
    (l : list Segment) :
  forall length_so_far,
    (median_scan overlap halfway_length length_so_far
                 (map (with_depth_over m) l)
     == median_scan overlap halfway_length length_so_far l / m)%Q.
Proof.
  induction l as [| x l IH]; intros a; simpl.
  - unfold Qdiv. now rewrite Qmult_0_l.
  - change (get_length_no_overlap (with_depth_over m x) overlap)
      with (get_length_no_overlap x overlap).
    destruct (halfway_length <=? a + get_length_no_overlap x overlap);
      [reflexivity | apply IH].
Qed.

Lemma mapM_divide_depth (m : Q) (l : list (Z * Segment)) :
  Qeq_bool m 0 = false ->
  mapM (fun entry : Z * Segment =>
          let* segment := divide_depth (snd entry) m in
          Ok (fst entry, segment)) l
  = Ok (map (fun entry => (fst entry, with_depth_over m (snd entry))) l).
Proof.
  intros Hm. induction l as [| [k s] l IH]; simpl; [reflexivity |].
  unfold divide_depth at 1. rewrite Hm. simpl. now rewrite IH.
Qed.



(** X20. With a median read depth of zero, [normalise_read_depths] raises
    [ZeroDivisionError] at the first segment; a graph without segments has
    the median zero and is left as it is. *)
Theorem normalise_read_depths_zero_median (g : AssemblyGraph) :
  (get_median_read_depth g [] == 0)%Q ->
  normalise_read_depths g
  = match segments g with
    | [] => Ok g
    | _ :: _ => Raise ZeroDivisionError
    end /\
  (segments g = [] -> get_median_read_depth g [] = 0%Q).
Proof.
  intros Hzero%Qeq_bool_iff. split.
  - unfold normalise_read_depths.
    destruct g as [segs fwd rev cd ps k]. simpl in *.
    destruct segs as [| [n s] segs]; [reflexivity |].
    simpl. unfold divide_depth. now rewrite Hzero.
  - intros Hnil. unfold get_median_read_depth. now rewrite Hnil.
Qed.

Lemma normalise_read_depths_zero_median_witness :
  (get_median_read_depth uncovered_graph [] == 0)%Q /\
  normalise_read_depths uncovered_graph = Raise ZeroDivisionError /\
  (segments uncovered_graph = [] ->
   get_median_read_depth uncovered_graph [] = 0%Q).
Proof.
  assert (Hzero : (get_median_read_depth uncovered_graph [] == 0)%Q)
    by (vm_compute; reflexivity).
  split; [exact Hzero |].
  exact (normalise_read_depths_zero_median uncovered_graph Hzero).
Defined.

(** ** Redistributing copy depths *)

Lemma forallb_is_nonempty {A} (bins : list (list A)) :
  forallb is_nonempty bins = true <-> Forall (fun bin => bin <> []) bins.
Proof.
  induction bins as [| bin bins IH]; simpl.
  - split; [constructor | reflexivity].
  - rewrite andb_true_iff, IH, Forall_cons.
    destruct bin; simpl; split; intros [H1 H2]; split; auto; congruence.
Qed.

Lemma targets_met_spec {A} (bins : list (list A)) (targets : list (option Z)) :
  forall i : nat,
    (i + length targets <= length bins)%nat ->
    exists met,
      targets_met bins (Z.of_nat i) targets = Ok met /\
      (forallb id met = true <->
       forall (j : nat) (t : Z),
         targets !! j = Some (Some t) -> t <> 0 ->
         exists bin, bins !! (i + j)%nat = Some bin /\
                     Z.of_nat (length bin) = t).
Proof.
  induction targets as [| target targets IH]; intros i Hlen; simpl in *.
  - exists []. split; [reflexivity |]. split; [| reflexivity].
    intros _ j t H. inversion H.
  - destruct (IH (S i)) as (rest & Hrest & Hspec); [lia |].
    replace (Z.of_nat i + 1) with (Z.of_nat (S i)) by lia. rewrite Hrest.
    destruct (lookup_lt_is_Some_2 bins i) as [bin Hbin]; [lia |].
    assert (Hindex : index bins (Z.of_nat i) = Ok bin).
    { unfold index. destruct (Z.of_nat i <? 0) eqn:Hneg;
        [apply Z.ltb_lt in Hneg; lia |].
      rewrite Hneg, Nat2Z.id. now rewrite Hbin. }
    assert (Htail :
              (forall (j : nat) (t : Z),
                  targets !! j = Some (Some t) -> t <> 0 ->
                  exists bin, bins !! (i + S j)%nat = Some bin /\
                              Z.of_nat (length bin) = t) <->
              forallb id rest = true).
    { rewrite Hspec. split; intros H j t Hj Ht.
      - replace (S i + j)%nat with (i + S j)%nat by lia. eauto.
      - replace (i + S j)%nat with (S i + j)%nat by lia. eauto. }
    destruct target as [t |]; [destruct (t =? 0) eqn:Hzero |]; simpl.
    + apply Z.eqb_eq in Hzero. exists (true :: rest).
      split; [reflexivity |]. simpl. rewrite <- Htail. split.
      * intros H [| j] t' Hj Ht'; simpl in Hj; [congruence | eauto].
      * intros H j t' Hj Ht'. apply (H (S j) t' Hj Ht').
    + apply Z.eqb_neq in Hzero. rewrite Hindex. simpl.
      exists ((t =? Z.of_nat (length bin)) :: rest).
      split; [reflexivity |]. simpl. unfold id at 1.
      rewrite andb_true_iff, <- Htail, Z.eqb_eq. split.
      * intros [Heq H] [| j] t' Hj Ht'; simpl in Hj; [| eauto].
        injection Hj as <-. rewrite Nat.add_0_r. eauto.
      * intros H. split.
        -- destruct (H 0%nat t eq_refl Hzero) as (bin' & Hbin' & Hlen').
           rewrite Nat.add_0_r, Hbin in Hbin'. injection Hbin' as <-.
           now symmetry.
        -- intros j t' Hj Ht'. apply (H (S j) t' Hj Ht').
    + exists (true :: rest). split; [reflexivity |]. simpl.
      rewrite <- Htail. split.
      * intros H [| j] t' Hj Ht'; simpl in Hj; [congruence | eauto].
      * intros H j t' Hj Ht'. apply (H (S j) t' Hj Ht').
Qed.

Lemma place_cons {A} (bins : list (list A)) (item : A) (items : list A)
    (i : nat) (where_ : list nat) :
  place bins (item :: items) (i :: where_)
  = place (alter (fun bin => bin ++ [item]) i bins) items where_.
Proof. reflexivity. Qed.

Lemma length_place {A} (items : list A) :
  forall (bins : list (list A)) (where_ : list nat),
    length (place bins items where_) = length bins.
Proof.
  induction items as [| item items IH]; intros bins [| i where_];
    try reflexivity.
  rewrite place_cons, IH. apply length_alter.
Qed.

Lemma concat_alter_append {A} (bins : list (list A)) (item : A) (i : nat) :
  (i < length bins)%nat ->
  concat (alter (fun bin => bin ++ [item]) i bins) ≡ₚ concat bins ++ [item].
Proof.
  revert i. induction bins as [| bin bins IH]; intros [| i] Hi;
    simpl in Hi; try lia.
  - change (concat ((bin ++ [item]) :: bins) ≡ₚ concat (bin :: bins) ++ [item]).
    simpl. rewrite <- !app_assoc.
    apply Permutation_app_head, Permutation_app_comm.
  - change (concat (bin :: alter (fun bin => bin ++ [item]) i bins)
            ≡ₚ concat (bin :: bins) ++ [item]).
    simpl. rewrite IH by lia. now rewrite app_assoc.
Qed.

Lemma concat_place {A} (items : list A) :
  forall (bins : list (list A)) (where_ : list nat),
    placement bins items where_ ->
    concat (place bins items where_) ≡ₚ concat bins ++ items.
Proof.
  induction items as [| item items IH]; intros bins [| i where_] [Hlen Hall];
    simpl in Hlen; try discriminate.
  - unfold place. simpl. now rewrite app_nil_r.
  - apply Forall_cons in Hall as [Hi Hall]. rewrite place_cons, IH.
    + rewrite concat_alter_append by exact Hi.
      now rewrite <- app_assoc.
    + split; [lia |]. now rewrite length_alter.
Qed.

Lemma shuffle_into_bins_spec {A} (targets : list (option Z)) (items : list A) :
  forall bins : list (list A),
    (length targets <= length bins)%nat ->
    exists arrangements,
      shuffle_into_bins items bins targets = Ok arrangements /\
      forall arrangement,
        arrangement ∈ arrangements <->
        (exists where_,
            placement bins items where_ /\
            arrangement = place bins items where_) /\
        Forall (fun bin => bin <> []) arrangement /\
        targets_hold targets arrangement.
Proof.
  induction items as [| item items IH]; intros bins Hlen.
  - simpl. destruct (targets_met_spec bins targets 0%nat Hlen)
      as (met & Hmet & Hspec'). change (Z.of_nat 0) with 0 in Hmet.
    assert (Hspec : forallb id met = true <-> targets_hold targets bins)
      by exact Hspec'.
    clear Hspec'.
    assert (Hplace : forall arrangement : list (list A),
               (exists where_, placement bins [] where_ /\
                               arrangement = place bins [] where_) <->
               arrangement = bins).
    { intros arrangement. split.
      - intros (w & _ & ->). reflexivity.
      - intros ->. exists []. split; [| reflexivity].
        split; [reflexivity | constructor]. }
    destruct (forallb is_nonempty bins) eqn:Hfull.
    + rewrite Hmet. simpl. destruct (forallb id met) eqn:Hall.
      * eexists. split; [reflexivity |]. intros arrangement.
        rewrite Hplace, list_elem_of_singleton. split.
        -- intros ->. split; [reflexivity |].
           split; [now apply forallb_is_nonempty |].
           now apply Hspec.
        -- intros [H _]. exact H.
      * eexists. split; [reflexivity |]. intros arrangement.
        rewrite Hplace. split; [intros H; inversion H |].
        intros (-> & _ & Hhold). apply Hspec in Hhold. congruence.
    + eexists. split; [reflexivity |]. intros arrangement.
      rewrite Hplace. split; [intros H; inversion H |].
      intros (-> & Hne & _). apply forallb_is_nonempty in Hne. congruence.
  - simpl.
    set (f := fun i : nat =>
                shuffle_into_bins items
                  (alter (fun bin => bin ++ [item]) i bins) targets).
    destruct (mapM_Ok f (seq 0 (length bins))) as (found & Hfound & Hrel).
    { intros i _. unfold f.
      destruct (IH (alter (fun bin => bin ++ [item]) i bins))
        as (r & Hr & _); [now rewrite length_alter | eauto]. }
    rewrite Hfound. simpl. eexists. split; [reflexivity |].
    intros arrangement. rewrite (elem_of_concat_mapM f _ _ _ Hrel). split.
    + intros (i & r & Hi & Hr & Hin).
      apply elem_of_seq in Hi. unfold f in Hr.
      destruct (IH (alter (fun bin => bin ++ [item]) i bins))
        as (r' & Hr' & Hspec); [now rewrite length_alter |].
      rewrite Hr in Hr'. injection Hr' as <-.
      apply Hspec in Hin as ((w & [Hw Hall] & ->) & Hne & Hhold).
      split; [| auto]. exists (i :: w). split; [| reflexivity].
      split; [simpl; lia |]. constructor; [lia |].
      now rewrite length_alter in Hall.
    + intros ((w & [Hw Hall] & ->) & Hne & Hhold).
      destruct w as [| i w]; [discriminate |].
      apply Forall_cons in Hall as [Hi Hall].
      destruct (IH (alter (fun bin => bin ++ [item]) i bins))
        as (r & Hr & Hspec); [now rewrite length_alter |].
      exists i, r. split; [apply elem_of_seq; lia |].
      split; [exact Hr |]. apply Hspec.
      split; [| auto]. exists w. split; [| reflexivity].
      split; [simpl in Hw; lia | now rewrite length_alter].
Qed.

(** X21. With no more targets than bins [shuffle_into_bins] returns, and the
    arrangements it returns are all the ways of appending each item to one
    of the bins that leave no bin empty and give every bin with a target
    that number of entries. An arrangement has as many bins as there were,
    and holds what the bins held together with the items. *)
Theorem shuffle_into_bins_all_arrangements {A} (items : list A)
    (bins : list (list A)) (targets : list (option Z)) :
  (length targets <= length bins)%nat ->
  exists arrangements,
    shuffle_into_bins items bins targets = Ok arrangements /\
    (forall arrangement,
        arrangement ∈ arrangements <->
        (exists where_,
            placement bins items where_ /\
            arrangement = place bins items where_) /\
        Forall (fun bin => bin <> []) arrangement /\
        targets_hold targets arrangement) /\
    (forall arrangement,
        arrangement ∈ arrangements ->
        length arrangement = length bins /\
        concat arrangement ≡ₚ concat bins ++ items).
Proof.
  intros Hlen.
  destruct (shuffle_into_bins_spec targets items bins Hlen)
    as (arrangements & Hrun & Hspec).
  exists arrangements. split; [exact Hrun |]. split; [exact Hspec |].
  intros arrangement ((w & Hw & ->) & _)%Hspec.
  split; [apply length_place | now apply concat_place].
Qed.

Lemma shuffle_into_bins_all_arrangements_witness :
  (length [Some 2; None] <= length [[]; @nil Z])%nat /\
  exists arrangements,
    shuffle_into_bins [1; 2; 3] [[]; []] [Some 2; None] = Ok arrangements /\
    (forall arrangement,
        arrangement ∈ arrangements <->
        (exists where_,
            placement [[]; []] [1; 2; 3] where_ /\
            arrangement = place [[]; []] [1; 2; 3] where_) /\
        Forall (fun bin => bin <> []) arrangement /\
        targets_hold [Some 2; None] arrangement) /\
    (forall arrangement,
        arrangement ∈ arrangements ->
        length arrangement = length [[]; @nil Z] /\
        concat arrangement ≡ₚ concat [[]; []] ++ [1; 2; 3]).
Proof.
  assert (Hlen : (length [Some 2; None] <= length [[]; @nil Z])%nat)
    by (simpl; lia).
  split; [exact Hlen |].
  exact (shuffle_into_bins_all_arrangements [1; 2; 3] [[]; []] [Some 2; None]
           Hlen).
Defined.

(** ** Scaling and assigning copy depths *)

Lemma fold_Qplus (l : list Q) :
  forall a, (fold_left Qplus l a == a + Qsum l)%Q.
Proof.
  unfold Qsum. induction l as [| x l IH]; intros a; simpl.
  - now rewrite Qplus_0_r.
  - rewrite IH, (IH (0 + x)%Q), Qplus_0_l. symmetry. apply Qplus_assoc.
Qed.

Lemma Qsum_cons (x : Q) (l : list Q) : (Qsum (x :: l) == x + Qsum l)%Q.
Proof. unfold Qsum at 1. simpl. now rewrite fold_Qplus, Qplus_0_l. Qed.

Lemma Qsum_perm (l l' : list Q) : l ≡ₚ l' -> (Qsum l == Qsum l')%Q.
Proof.
  induction 1 as [| x l l' _ IH | x y l | l l' l'' _ IH1 _ IH2].
  - reflexivity.
  - now rewrite !Qsum_cons, IH.
  - rewrite !Qsum_cons, !Qplus_assoc. now rewrite (Qplus_comm y x).
  - now rewrite IH1.
Qed.

Lemma Qsum_map_mult (c : Q) (l : list Q) :
  (Qsum (map (fun x => c * x) l) == c * Qsum l)%Q.
Proof.
  induction l as [| x l IH]; simpl.
  - unfold Qsum. simpl. now rewrite Qmult_0_r.
  - now rewrite !Qsum_cons, IH, Qmult_plus_distr_r.
Qed.

Lemma scale_copy_depths_spec (target_depth : Q) (source_depths : list Q) :
  ~ (Qsum source_depths == 0)%Q ->
  exists scaled_depths,
    scale_copy_depths target_depth source_depths
    = Ok (scaled_depths, get_error (Qsum source_depths) target_depth) /\
    scaled_depths
    ≡ₚ map (fun x => (target_depth / Qsum source_depths * x)%Q)
           source_depths /\
    Sorted (fun a b => (b <= a)%Q) scaled_depths /\
    (Qsum scaled_depths == target_depth)%Q.
Proof.
  intros Hsum. unfold scale_copy_depths at 1.
  destruct (Qeq_bool (Qsum source_depths) 0) eqn:Hzero;
    [now apply Qeq_bool_iff in Hzero |].
  eexists. split; [reflexivity |].
  destruct (sorted_descending_spec
              (map (fun x => (target_depth / Qsum source_depths * x)%Q)
                   source_depths)) as [Hsorted Hperm].
  split; [exact Hperm |]. split; [exact Hsorted |].
  rewrite (Qsum_perm _ _ Hperm), Qsum_map_mult, Qmult_comm.
  now apply Qmult_div_r.
Qed.



Lemma index_of_nat {A} (l : list A) (i : nat) :
  index l (Z.of_nat i)
  = match l !! i with
    | Some a => Ok a
    | None => Raise IndexError
    end.
Proof.
  unfold index. destruct (Z.of_nat i <? 0) eqn:Hneg;
    [apply Z.ltb_lt in Hneg; lia |].
  now rewrite Hneg, Nat2Z.id.
Qed.

Lemma assign_from_spec (new_depths : list (list Q)) (segment_numbers : list Z) :
  forall (g : AssemblyGraph) (i : nat) (success : bool),
    (forall num, num ∈ segment_numbers ->
                 is_Some (dict_get (segments g) num)) ->
    (i + length segment_numbers <= length new_depths)%nat ->
    Forall (fun depths => ~ (Qsum depths == 0)%Q) new_depths ->
    exists g' success',
      assign_from g (Z.of_nat i) success segment_numbers new_depths
      = Ok (g', success') /\
      g' = set_copy_depths g (copy_depths g') /\
      (forall k v, copy_depths g !! k = Some v ->
                   copy_depths g' !! k = Some v) /\
      (forall k v,
          copy_depths g !! k = None -> copy_depths g' !! k = Some v ->
          k ∈ segment_numbers /\
          exists segment,
            dict_get (segments g) k = Some segment /\
            (Qsum v == depth segment)%Q) /\
      (success' = true <->
       success = true \/
       exists k, copy_depths g !! k = None /\ is_Some (copy_depths g' !! k)).
Proof.
  induction segment_numbers as [| num nums IH];
    intros g i success Hsegs Hlen Hsums.
  - exists g, success. simpl. split; [reflexivity |].
    split; [now destruct g |]. split; [auto |].
    split; [intros k v H1 H2; congruence |].
    split; [auto |]. intros [H | (k & H1 & [v H2])]; [exact H | congruence].
  - simpl in Hlen. cbn [assign_from].
    replace (Z.of_nat i + 1) with (Z.of_nat (S i)) by lia.
    assert (Hrest : forall n, n ∈ nums -> is_Some (dict_get (segments g) n))
      by (intros n Hn; apply Hsegs; now right).
    assert (Hkeep :
              exists g' success',
                assign_from g (Z.of_nat (S i)) success nums new_depths
                = Ok (g', success') /\
                g' = set_copy_depths g (copy_depths g') /\
                (forall k v, copy_depths g !! k = Some v ->
                             copy_depths g' !! k = Some v) /\
                (forall k v,
                    copy_depths g !! k = None ->
                    copy_depths g' !! k = Some v ->
                    k ∈ num :: nums /\
                    exists segment,
                      dict_get (segments g) k = Some segment /\
                      (Qsum v == depth segment)%Q) /\
                (success' = true <->
                 success = true \/
                 exists k, copy_depths g !! k = None /\
                           is_Some (copy_depths g' !! k))).
    { destruct (IH g (S i) success Hrest ltac:(lia) Hsums)
        as (g' & success' & Hrun & Hg' & Hold & Hnew & Hsuccess).
      exists g', success'. repeat split; try assumption.
      - right. now apply (Hnew k v).
      - now apply (Hnew k v).
      - apply Hsuccess.
      - apply Hsuccess. }
    destruct (copy_depths g !! num) as [old |] eqn:Hnum; [exact Hkeep |].
    destruct (Hsegs num) as [segment Hsegment]; [now left |].
    unfold segment_at. rewrite Hsegment. cbn [bind getitem].
    rewrite index_of_nat.
    destruct (lookup_lt_is_Some_2 new_depths i) as [depths Hdepths]; [lia |].
    rewrite Hdepths. cbn [bind].
    assert (Hsum : ~ (Qsum depths == 0)%Q).
    { rewrite Forall_forall in Hsums. apply Hsums.
      now apply list_elem_of_lookup_2 in Hdepths. }
    destruct (scale_copy_depths_spec (depth segment) depths Hsum)
      as (scaled & -> & _ & _ & Htotal). cbn [bind].
    destruct (negb (xlt error_margin
                        (get_error (Qsum depths) (depth segment))));
      [| exact Hkeep].
    set (g1 := set_copy_depths g (<[num := scaled]> (copy_depths g))).
    destruct (IH g1 (S i) true Hrest ltac:(lia) Hsums)
      as (g' & success' & Hrun & Hg' & Hold & Hnew & Hsuccess).
    exists g', success'. split; [exact Hrun |].
    split; [rewrite Hg'; now destruct g |].
    assert (Hassigned : copy_depths g' !! num = Some scaled).
    { apply Hold. unfold g1. simpl. apply lookup_insert_eq. }
    split; [| split; [| split]].
    + intros k v Hk. apply Hold. unfold g1. simpl.
      rewrite lookup_insert_ne; [exact Hk | congruence].
    + intros k v Hk Hv. destruct (decide (k = num)) as [-> | Hne].
      * split; [now left |]. exists segment. split; [exact Hsegment |].
        rewrite Hassigned in Hv. now injection Hv as <-.
      * destruct (Hnew k v) as [Hin Hseg]; [| exact Hv | split; [now right |
                                                               exact Hseg]].
        unfold g1. simpl. now rewrite lookup_insert_ne by congruence.
    + intros _. right. exists num. split; [exact Hnum | now rewrite Hassigned].
    + intros _. apply Hsuccess. now left.
Qed.



(** ** The error of an arrangement *)

Lemma xlt_asym (a b : xreal) : xlt a b = true -> xlt b a = false.
Proof.
  destruct a as [x |], b as [y |]; simpl; try congruence.
  rewrite <- not_true_iff_false, !Qltb_lt. intros Hxy Hyx.
  apply (Qlt_irrefl x). eapply Qlt_trans; eassumption.
Qed.

Lemma xmax_spec (a b : xreal) :
  xreal_le a (xmax a b) /\ xreal_le b (xmax a b) /\
  (xmax a b = a \/ xmax a b = b).
Proof.
  unfold xmax, xreal_le. destruct (xlt a b) eqn:Hab.
  - split; [now apply xlt_asym |]. split; [apply xlt_irrefl | now right].
  - split; [apply xlt_irrefl |]. split; [exact Hab | now left].
Qed.

Lemma max_error_from_spec (g : AssemblyGraph) (copy_depths : list (list Q))
    (segment_numbers : list Z) :
  forall (i : nat) (max_error : xreal),
    (forall num, num ∈ segment_numbers ->
                 is_Some (dict_get (segments g) num)) ->
    (i + length segment_numbers <= length copy_depths)%nat ->
    exists result,
      max_error_from g (Z.of_nat i) max_error segment_numbers copy_depths
      = Ok result /\
      xreal_le max_error result /\
      (forall j num segment depths,
          segment_numbers !! j = Some num ->
          dict_get (segments g) num = Some segment ->
          copy_depths !! (i + j)%nat = Some depths ->
          xreal_le (get_error (Qsum depths) (depth segment)) result) /\
      (result = max_error \/
       exists j num segment depths,
         segment_numbers !! j = Some num /\
         dict_get (segments g) num = Some segment /\
         copy_depths !! (i + j)%nat = Some depths /\
         result = get_error (Qsum depths) (depth segment)).
Proof.
  induction segment_numbers as [| num nums IH]; intros i acc Hsegs Hlen.
  - exists acc. simpl. split; [reflexivity |].
    split; [apply xlt_irrefl |]. split; [| now left].
    intros j num segment depths H. inversion H.
  - simpl in Hlen. cbn [max_error_from].
    destruct (Hsegs num) as [segment Hsegment]; [now left |].
    unfold segment_at. rewrite Hsegment. cbn [bind getitem].
    rewrite index_of_nat.
    destruct (lookup_lt_is_Some_2 copy_depths i) as [depths Hdepths]; [lia |].
    rewrite Hdepths. cbn [bind].
    replace (Z.of_nat i + 1) with (Z.of_nat (S i)) by lia.
    set (e := get_error (Qsum depths) (depth segment)).
    destruct (xmax_spec acc e) as (Hacc & He & Hmax).
    destruct (IH (S i) (xmax acc e)) as (r & Hrun & Hle & Hall & Hone);
      [intros n Hn; apply Hsegs; now right | lia |].
    exists r. split; [exact Hrun |].
    split; [eapply xreal_le_trans; eassumption |]. split.
    + intros [| j] num' segment' depths' Hj Hseg' Hd'; simpl in Hj.
      * injection Hj as <-. rewrite Nat.add_0_r, Hdepths in Hd'.
        injection Hd' as <-. rewrite Hsegment in Hseg'.
        injection Hseg' as <-. eapply xreal_le_trans; eassumption.
      * apply (Hall j num' segment' depths' Hj Hseg').
        now replace (S i + j)%nat with (i + S j)%nat by lia.
    + destruct Hone as [-> | (j & num' & segment' & depths' & Hj & Hseg' & Hd'
                                & ->)].
      * destruct Hmax as [-> | ->]; [now left |].
        right. exists 0%nat, num, segment, depths.
        rewrite Nat.add_0_r. auto.
      * right. exists (S j), num', segment', depths'.
        replace (i + S j)%nat with (S i + j)%nat by lia. auto.
Qed.

(** X24. [get_error_for_multiple_segments_and_depths], for segment numbers
    that are in the graph and a list of depths for each of them, returns the
    greatest of the errors of the sums of the lists against the depths of the
    segments: no error is above it, and it is one of them, or zero. *)
Theorem get_error_for_multiple_segments_and_depths_max (g : AssemblyGraph)
    (segment_numbers : list Z) (copy_depths : list (list Q)) :
  (forall num, num ∈ segment_numbers ->
               is_Some (dict_get (segments g) num)) ->
  (length segment_numbers <= length copy_depths)%nat ->
  exists max_error,
    get_error_for_multiple_segments_and_depths g segment_numbers copy_depths
    = Ok max_error /\
    (forall j num segment depths,
        segment_numbers !! j = Some num ->
        dict_get (segments g) num = Some segment ->
        copy_depths !! j = Some depths ->
        xreal_le (get_error (Qsum depths) (depth segment)) max_error) /\
    (max_error = Fin 0 \/
     exists j num segment depths,
       segment_numbers !! j = Some num /\
       dict_get (segments g) num = Some segment /\
       copy_depths !! j = Some depths /\
       max_error = get_error (Qsum depths) (depth segment)).
Proof.
  intros Hsegs Hlen.
  destruct (max_error_from_spec g copy_depths segment_numbers 0%nat (Fin 0)
              Hsegs Hlen) as (r & Hrun & _ & Hall & Hone).
  exists r. split; [exact Hrun |]. split; [exact Hall | exact Hone].
Qed.

Lemma get_error_for_multiple_segments_and_depths_max_witness :
  (forall num, num ∈ [1; 3] ->
               is_Some (dict_get (segments two_inputs_graph) num)) /\
  (length [1; 3] <= length [[5%Q]; [10%Q; 18%Q]])%nat /\
  exists max_error,
    get_error_for_multiple_segments_and_depths two_inputs_graph [1; 3]
                                               [[5%Q]; [10%Q; 18%Q]]
    = Ok max_error /\
    (forall j num segment depths,
        [1; 3] !! j = Some num ->
        dict_get (segments two_inputs_graph) num = Some segment ->
        [[5%Q]; [10%Q; 18%Q]] !! j = Some depths ->
        xreal_le (get_error (Qsum depths) (depth segment)) max_error) /\
    (max_error = Fin 0 \/
     exists j num segment depths,
       [1; 3] !! j = Some num /\
       dict_get (segments two_inputs_graph) num = Some segment /\
       [[5%Q]; [10%Q; 18%Q]] !! j = Some depths /\
       max_error = get_error (Qsum depths) (depth segment)).
Proof.
  assert (Hsegs : forall num, num ∈ [1; 3] ->
                    is_Some (dict_get (segments two_inputs_graph) num)).
  { intros num Hnum. repeat apply elem_of_cons in Hnum as [-> | Hnum];
      [vm_compute; eauto .. | inversion Hnum]. }
  assert (Hlen : (length [1; 3] <= length [[5%Q]; [10%Q; 18%Q]])%nat)
    by (simpl; lia).
  split; [exact Hsegs |]. split; [exact Hlen |].
  exact (get_error_for_multiple_segments_and_depths_max two_inputs_graph
           [1; 3] [[5%Q]; [10%Q; 18%Q]] Hsegs Hlen).
Defined.

(** ** Single-copy segments *)

Lemma sorted_by_length_descending_spec (l : list Segment) :
  StronglySorted (fun x y => get_length y <= get_length x)
                 (sorted_by_length_descending l) /\
  sorted_by_length_descending l ≡ₚ l.
Proof.
  split; [| apply sorted_perm].
  apply Sorted_StronglySorted.
  - intros x y z Hxy Hyz. lia.
  - apply sorted_Sorted.
    + intros x y Hxy. now apply Z.leb_le.
    + intros x y Hxy. apply Z.leb_gt in Hxy. lia.
Qed.

Lemma assign_first_single_spec (g : AssemblyGraph) (minimum_auto_single : Z)
    (l : list Segment) :
  let eligible segment :=
    (minimum_auto_single <=? get_length segment)
    && at_most_one_link_per_end g segment in
  (assign_first_single g minimum_auto_single l = (g, 0) /\
   Forall (fun segment => eligible segment = false) l) \/
  (exists l1 segment l2,
      l = l1 ++ segment :: l2 /\
      Forall (fun segment => eligible segment = false) l1 /\
      eligible segment = true /\
      assign_first_single g minimum_auto_single l
      = (set_copy_depths g
           (<[number segment := [depth segment]]> (copy_depths g)), 1)).
Proof.
  intros eligible. induction l as [| x l IH]; simpl.
  - left. split; [reflexivity | constructor].
  - fold (eligible x). destruct (eligible x) eqn:Hx.
    + right. exists [], x, l. repeat split; [constructor | exact Hx].
    + destruct IH as [[Hrun Hall] | (l1 & s & l2 & -> & Hall & Hs & Hrun)].
      * left. split; [exact Hrun | now constructor].
      * right. exists (x :: l1), s, l2. repeat split; try assumption.
        now constructor.
Qed.

(** X25. [assign_single_copy_depth] gives a single copy to the longest
    segment that has no copy depths, is at least [minimum_auto_single] long
    and has at most one link per end. It returns 1 and gives that segment
    its own depth as its one copy depth, changing nothing else; or there is
    no such segment, and it returns 0 and changes nothing. *)
Theorem assign_single_copy_depth_longest (g : AssemblyGraph)
    (minimum_auto_single : Z) :
  let (g', assignments) := assign_single_copy_depth g minimum_auto_single in
  (assignments = 0 /\ g' = g /\
   forall segment, ~ single_copy_candidate g minimum_auto_single segment) \/
  (assignments = 1 /\
   exists segment,
     single_copy_candidate g minimum_auto_single segment /\
     (forall segment',
         single_copy_candidate g minimum_auto_single segment' ->
         get_length segment' <= get_length segment) /\
     g' = set_copy_depths g
            (<[number segment := [depth segment]]> (copy_depths g))).
Proof.
  unfold assign_single_copy_depth.
  destruct (sorted_by_length_descending_spec (get_segments_without_copies g))
    as [Hsorted Hperm].
  assert (Hcandidate :
            forall segment,
              single_copy_candidate g minimum_auto_single segment <->
              segment ∈ sorted_by_length_descending
                          (get_segments_without_copies g) /\
              (minimum_auto_single <=? get_length segment)
              && at_most_one_link_per_end g segment = true).
  { intros segment. rewrite Hperm. unfold single_copy_candidate,
      get_segments_without_copies.
    rewrite list_elem_of_filter, andb_true_iff, Z.leb_le. tauto. }
  destruct (assign_first_single_spec g minimum_auto_single
              (sorted_by_length_descending (get_segments_without_copies g)))
    as [[Hrun Hall] | (l1 & s & l2 & Hsplit & Hall & Hs & Hrun)];
    rewrite Hrun.
  - left. split; [reflexivity |]. split; [reflexivity |].
    intros segment [Hin Hok]%Hcandidate.
    rewrite Forall_forall in Hall. specialize (Hall _ Hin). simpl in Hall.
    congruence.
  - right. split; [reflexivity |]. exists s.
    rewrite Hsplit in Hsorted, Hcandidate.
    apply StronglySorted_middle in Hsorted as [_ Hafter].
    split; [| split; [| reflexivity]].
    + apply Hcandidate. split; [| exact Hs].
      rewrite elem_of_app, elem_of_cons. auto.
    + intros s' [Hin Hok]%Hcandidate.
      rewrite elem_of_app, elem_of_cons in Hin.
      destruct Hin as [Hin | [-> | Hin]].
      * rewrite Forall_forall in Hall. specialize (Hall _ Hin).
        simpl in Hall. congruence.
      * lia.
      * rewrite Forall_forall in Hafter. now apply Hafter.
Qed.

(** ** Homopolymer loops *)

Lemma index_zero_nonempty {A} (l : list A) :
  l <> [] -> exists a, index l 0 = Ok a.
Proof. destruct l as [| a l]; [congruence |]. intros _. now exists a. Qed.

Lemma length_zero_chars (s : string) :
  String.length s = 0%nat <-> chars s = [].
Proof.
  destruct s; simpl; split; intros H; try reflexivity; discriminate.
Qed.

Lemma one_base_from_spec (base : ascii) (l : list Segment) :
  Forall (fun s => chars (forward_sequence s) <> [] /\
                   chars (reverse_sequence s) <> []) l ->
  exists b,
    one_base_from base l = Ok b /\
    (b = true -> Forall (fun s => is_homopolymer s = true) l).
Proof.
  induction 1 as [| s l [Hf Hr] _ IH]; simpl.
  - exists true. split; [reflexivity | constructor].
  - destruct (is_homopolymer s) eqn:Hhomo; simpl.
    + destruct (index_zero_nonempty _ Hf) as [f ->].
      destruct (index_zero_nonempty _ Hr) as [r ->]. cbn [bind].
      destruct (negb (bool_decide (lower f = base))
                && negb (bool_decide (lower r = base))).
      * exists false. split; [reflexivity | discriminate].
      * destruct IH as (b & Hb & Hall). exists b.
        split; [exact Hb |]. intros Htrue. constructor; auto.
    + exists false. split; [reflexivity | discriminate].
Qed.

Lemma all_segments_are_one_base_spec (l : list Segment) :
  Forall (fun s => String.length (reverse_sequence s)
                   = String.length (forward_sequence s)) l ->
  exists b,
    all_segments_are_one_base l = Ok b /\
    (b = true ->
     (exists s, s ∈ l /\ 0 < get_length s) /\
     Forall (fun s => get_length s = 0 \/ is_homopolymer s = true) l).
Proof.
  intros Hpaired. unfold all_segments_are_one_base.
  set (non_empty := List.filter (fun x => 0 <? get_length x) l).
  assert (Hnon : Forall (fun s => chars (forward_sequence s) <> [] /\
                                  chars (reverse_sequence s) <> [])
                        non_empty).
  { apply Forall_forall. intros s Hs.
    apply list_elem_of_In, filter_In in Hs as [Hs Hlen].
    apply list_elem_of_In in Hs. rewrite Forall_forall in Hpaired.
    specialize (Hpaired s Hs). apply Z.ltb_lt in Hlen.
    unfold get_length in Hlen. rewrite <- !length_zero_chars. lia. }
  assert (Hrest : forall s, s ∈ l -> get_length s = 0 \/ s ∈ non_empty).
  { intros s Hs. destruct (0 <? get_length s) eqn:Hlen.
    - right. apply list_elem_of_In, filter_In.
      split; [now apply list_elem_of_In | exact Hlen].
    - left. apply Z.ltb_ge in Hlen. unfold get_length in *. lia. }
  destruct non_empty as [| first rest] eqn:Hne.
  - exists false. split; [reflexivity | discriminate].
  - pose proof (Forall_inv Hnon) as [Hf _].
    destruct (index_zero_nonempty _ Hf) as [c ->]. cbn [bind].
    destruct (one_base_from_spec (lower c) (first :: rest) Hnon)
      as (b & Hb & Hall).
    exists b. split; [exact Hb |]. intros Htrue. split.
    + exists first.
      assert (Hin : In first (List.filter (fun x => 0 <? get_length x) l))
        by (fold non_empty; rewrite Hne; now left).
      apply filter_In in Hin as [Hin Hlen].
      split; [now apply list_elem_of_In | now apply Z.ltb_lt].
    + specialize (Hall Htrue). rewrite Forall_forall in Hall.
      apply Forall_forall. intros s Hs.
      destruct (Hrest s Hs) as [Hzero | Hin]; [now left | right].
      now apply Hall.
Qed.

Lemma Forall2_elem_of_l {A B} (R : A -> B -> Prop) (l : list A) (k : list B)
    (x : A) :
  Forall2 R l k -> x ∈ l -> exists y, y ∈ k /\ R x y.
Proof.
  induction 1 as [| a b l k Hab _ IH]; intros Hx; [inversion Hx |].
  apply elem_of_cons in Hx as [-> | Hx].
  - exists b. split; [left | exact Hab].
  - destruct (IH Hx) as (y & Hy & Hxy). exists y. split; [now right | exact Hxy].
Qed.

Lemma Forall2_elem_of_r {A B} (R : A -> B -> Prop) (l : list A) (k : list B)
    (y : B) :
  Forall2 R l k -> y ∈ k -> exists x, x ∈ l /\ R x y.
Proof.
  induction 1 as [| a b l k Hab _ IH]; intros Hy; [inversion Hy |].
  apply elem_of_cons in Hy as [-> | Hy].
  - exists a. split; [left | exact Hab].
  - destruct (IH Hy) as (x & Hx & Hxy). exists x. split; [now right | exact Hxy].
Qed.

Lemma homopolymer_removals_spec (g : AssemblyGraph) (component : list Z) :
  strands_paired g ->
  (forall x, x ∈ component -> x ∈ dict_keys (segments g)) ->
  exists removals,
    (let* component_segments := mapM (segment_at g) component in
     let* one_base := all_segments_are_one_base component_segments in
     Ok (if one_base then component else [])) = Ok removals /\
    (removals = [] \/ (removals = component /\ one_base_component g component)).
Proof.
  intros Hpaired Hkeys.
  destruct (mapM_Ok (segment_at g) component) as (segs & Hsegs & Hrel).
  { intros x Hx. apply segment_at_key, Hkeys, Hx. }
  rewrite Hsegs. cbn [bind].
  destruct (all_segments_are_one_base_spec segs) as (b & Hb & Hall).
  { apply Forall_forall. intros s Hs.
    destruct (Forall2_elem_of_r _ _ _ _ Hrel Hs) as (x & _ & Hx).
    apply segment_at_Ok, dict_get_elem_of in Hx.
    unfold strands_paired in Hpaired. rewrite Forall_forall in Hpaired.
    exact (Hpaired _ Hx). }
  rewrite Hb. cbn [bind]. eexists. split; [reflexivity |].
  destruct b; [right | now left]. split; [reflexivity |].
  destruct (Hall eq_refl) as [(s & Hs & Hlen) Hone]. split.
  - destruct (Forall2_elem_of_r _ _ _ _ Hrel Hs) as (x & Hx & Hseg).
    exists x, s. split; [exact Hx |]. split; [| exact Hlen].
    now apply segment_at_Ok.
  - intros x segment Hx Hseg.
    destruct (Forall2_elem_of_l _ _ _ _ Hrel Hx) as (y & Hy & Hxy).
    apply segment_at_Ok in Hxy. rewrite Hseg in Hxy. injection Hxy as ->.
    rewrite Forall_forall in Hone. now apply Hone.
Qed.

(** X26. [filter_homopolymer_loops] removes whole components. On a graph
    whose links end at segments and whose segments have both sequences at
    one length, it returns; every connected component is either left in
    full or removed in full, and a removed one has a segment with bases
    and every segment of it is empty or made of one base. The segments
    that are left are unchanged, and link symmetry is kept. *)
Theorem filter_homopolymer_loops_whole_components
    (list_of_set : list Z -> list Z) (g : AssemblyGraph) :
  set_enumeration list_of_set ->
  links_closed g ->
  strands_paired g ->
  exists components g',
    get_connected_components list_of_set g = Ok components /\
    filter_homopolymer_loops list_of_set g = Ok g' /\
    sublist (segments g') (segments g) /\
    (link_symmetry g -> link_symmetry g') /\
    forall component,
      component ∈ components ->
      (forall x, x ∈ component -> x ∈ dict_keys (segments g')) \/
      ((forall x, x ∈ component -> x ∉ dict_keys (segments g')) /\
       one_base_component g component).
Proof.
  intros Henum Hclosed Hpaired.
  destruct (get_connected_components_spec list_of_set Henum g Hclosed)
    as (components & Hrun & Hnodup & Hcover).
  assert (Hkeys : forall c, c ∈ components ->
                    forall x, x ∈ c -> x ∈ dict_keys (segments g)).
  { intros c Hc x Hx. apply Hcover, elem_of_concat. eauto. }
  set (f := fun component_nums : list Z =>
              let* component_segments :=
                mapM (segment_at g) component_nums in
              let* one_base :=
                all_segments_are_one_base component_segments in
              Ok (if one_base then component_nums else [])).
  destruct (mapM_Ok f components) as (removals & Hremovals & Hrel).
  { intros c Hc.
    destruct (homopolymer_removals_spec g c Hpaired (Hkeys c Hc))
      as (r & Hr & _). eauto. }
  exists components, (remove_segments g (concat removals)).
  split; [exact Hrun |].
  split; [unfold filter_homopolymer_loops; rewrite Hrun; cbn [bind];
          fold f; now rewrite Hremovals |].
  split; [apply sublist_filter |].
  split; [apply remove_segments_link_symmetry |].
  intros c Hc.
  destruct (homopolymer_removals_spec g c Hpaired (Hkeys c Hc))
    as (r & Hr & [-> | [-> Hone]]); fold (f c) in Hr.
  - left. intros x Hx. apply dict_keys_filter.
    split; [exact (Hkeys c Hc x Hx) |].
    intros (c' & r' & Hc' & Hr' & Hin)%(elem_of_concat_mapM f _ _ _ Hrel).
    destruct (homopolymer_removals_spec g c' Hpaired (Hkeys c' Hc'))
      as (r'' & Hr'' & Hcases); fold (f c') in Hr''.
    rewrite Hr' in Hr''. injection Hr'' as <-.
    destruct Hcases as [-> | [-> _]]; [inversion Hin |].
    assert (c' = c) by (eapply NoDup_concat_unique; eassumption).
    subst c'. rewrite Hr in Hr'. injection Hr' as <-. inversion Hin.
  - right. split; [| exact Hone]. intros x Hx [_ Hout]%dict_keys_filter.
    apply Hout, (elem_of_concat_mapM f _ _ _ Hrel). eauto.
Qed.

Lemma filter_homopolymer_loops_whole_components_witness :
  set_enumeration remove_dups /\
  links_closed homopolymer_graph /\
  strands_paired homopolymer_graph /\
  exists components g',
    get_connected_components remove_dups homopolymer_graph = Ok components /\
    filter_homopolymer_loops remove_dups homopolymer_graph = Ok g' /\
    sublist (segments g') (segments homopolymer_graph) /\
    (link_symmetry homopolymer_graph -> link_symmetry g') /\
    forall component,
      component ∈ components ->
      (forall x, x ∈ component -> x ∈ dict_keys (segments g')) \/
      ((forall x, x ∈ component -> x ∉ dict_keys (segments g')) /\
       one_base_component homopolymer_graph component).
Proof.
  assert (Hclosed : links_closed homopolymer_graph).
  { unfold links_closed. apply (bool_decide_unpack _). vm_compute. exact I. }
  assert (Hpaired : strands_paired homopolymer_graph)
    by (repeat constructor).
  split; [exact set_enumeration_remove_dups |].
  split; [exact Hclosed |]. split; [exact Hpaired |].
  exact (filter_homopolymer_loops_whole_components remove_dups
           homopolymer_graph set_enumeration_remove_dups Hclosed Hpaired).
Defined.

(** The homopolymer scenario: the loop on segment 1 goes, segment 2 stays. *)
Example filter_homopolymer_loops_example :
  exists g',
    filter_homopolymer_loops remove_dups homopolymer_graph = Ok g' /\
    dict_keys (segments g') = [2].
Proof. eexists. split; vm_compute; reflexivity. Qed.

(** ** Writing sequences *)

Lemma add_line_breaks_loop_spec (length_ : Z) (fuel : nat) :
  1 <= length_ ->
  forall seq_with_breaks sequence : list ascii,
    (length sequence <= fuel)%nat ->
    exists lines rest,
      add_line_breaks_loop fuel seq_with_breaks sequence length_
      = Ok (seq_with_breaks ++ broken_lines lines, rest) /\
      sequence = concat lines ++ rest /\
      Forall (fun line => Z.of_nat (length line) = length_) lines /\
      Z.of_nat (length rest) <= length_ /\
      (sequence <> [] -> rest <> []).
Proof.
  intros Hpos. induction fuel as [| fuel IH]; intros acc sequence Hfuel.
  - cbn [add_line_breaks_loop].
    destruct (length_ <? Z.of_nat (length sequence)) eqn:Hlong;
      [apply Z.ltb_lt in Hlong; lia |].
    apply Z.ltb_ge in Hlong. exists [], sequence.
    unfold broken_lines. simpl. rewrite app_nil_r.
    repeat split; [constructor | exact Hlong | auto].
  - cbn [add_line_breaks_loop].
    destruct (length_ <? Z.of_nat (length sequence)) eqn:Hlong.
    + apply Z.ltb_lt in Hlong.
      assert (Hto : slice_to sequence length_
                    = take (Z.to_nat length_) sequence).
      { unfold slice_to. destruct (length_ <? 0) eqn:Hneg;
          [apply Z.ltb_lt in Hneg; lia | reflexivity]. }
      assert (Hfrom : slice_from sequence length_
                      = drop (Z.to_nat length_) sequence).
      { unfold slice_from. destruct (length_ <? 0) eqn:Hneg;
          [apply Z.ltb_lt in Hneg; lia | reflexivity]. }
      rewrite Hto, Hfrom.
      destruct (IH (acc ++ take (Z.to_nat length_) sequence ++ [newline])
                   (drop (Z.to_nat length_) sequence))
        as (lines & rest & Hrun & Hsplit & Hfull & Hrest & Hne).
      { rewrite length_drop. lia. }
      exists (take (Z.to_nat length_) sequence :: lines), rest.
      split; [| split; [| split; [| split]]].
      * rewrite Hrun. unfold broken_lines. simpl.
        now rewrite <- !app_assoc.
      * simpl. rewrite <- app_assoc, <- Hsplit. now rewrite take_drop.
      * constructor; [| exact Hfull]. rewrite length_take. lia.
      * exact Hrest.
      * intros _. apply Hne. intros Hnil.
        apply (f_equal length) in Hnil. rewrite length_drop in Hnil.
        simpl in Hnil. lia.
    + apply Z.ltb_ge in Hlong. exists [], sequence.
      unfold broken_lines. simpl. rewrite app_nil_r.
      repeat split; [constructor | exact Hlong | auto].
Qed.

(** X27. [add_line_breaks_to_sequence] with a line length of at least 1
    returns the sequence cut into lines, each followed by a line break: the
    lines put together are the sequence, no line is empty, every line but
    the last has the given length and the last has at most that length. An
    empty sequence gives the empty string. *)
Theorem add_line_breaks_to_sequence_lines (sequence : string) (length_ : Z) :
  1 <= length_ ->
  exists lines,
    add_line_breaks_to_sequence sequence length_
    = Ok (str_of (broken_lines lines)) /\
    concat lines = chars sequence /\
    Forall (fun line => 1 <= Z.of_nat (length line) <= length_) lines /\
    (forall i line,
        lines !! i = Some line -> (S i < length lines)%nat ->
        Z.of_nat (length line) = length_) /\
    (sequence = EmptyString -> lines = []).
Proof.
  intros Hpos. unfold add_line_breaks_to_sequence.
  destruct (add_line_breaks_loop_spec length_ (String.length sequence) Hpos
              [] (chars sequence))
    as (lines & rest & Hrun & Hsplit & Hfull & Hrest & Hne).
  { now rewrite length_chars. }
  rewrite Hrun. cbn [bind app].
  destruct rest as [| c rest].
  - exists lines. simpl. split; [reflexivity |].
    split; [now rewrite Hsplit, app_nil_r |]. split; [| split].
    + eapply Forall_impl; [exact Hfull |]. intros line Hline. simpl in Hline.
      lia.
    + intros i line Hi _. rewrite Forall_forall in Hfull.
      apply Hfull. now apply list_elem_of_lookup_2 in Hi.
    + intros ->. simpl in Hsplit. destruct lines as [| line lines];
        [reflexivity |].
      apply Forall_inv in Hfull. simpl in Hsplit.
      destruct line; [simpl in Hfull; lia | discriminate].
  - exists (lines ++ [c :: rest]).
    change (0 <? Z.of_nat (length (c :: rest))) with true. cbn iota.
    split; [| split; [| split; [| split]]].
    + unfold broken_lines. rewrite map_app, concat_app. simpl.
      now rewrite app_nil_r.
    + rewrite concat_app. simpl. now rewrite app_nil_r.
    + apply Forall_app. split.
      * eapply Forall_impl; [exact Hfull |]. intros line Hline.
        simpl in Hline. lia.
      * constructor; [| constructor]. simpl in *. lia.
    + intros i line Hi Hlast. rewrite length_app in Hlast. simpl in Hlast.
      rewrite lookup_app_l in Hi by lia.
      rewrite Forall_forall in Hfull.
      apply Hfull. now apply list_elem_of_lookup_2 in Hi.
    + intros ->. apply (f_equal length) in Hsplit.
      rewrite length_app in Hsplit. simpl in Hsplit. lia.
Qed.

Lemma add_line_breaks_to_sequence_lines_witness :
  1 <= 3 /\
  exists lines,
    add_line_breaks_to_sequence "ACGTACGT" 3
    = Ok (str_of (broken_lines lines)) /\
    concat lines = chars "ACGTACGT" /\
    Forall (fun line => 1 <= Z.of_nat (length line) <= 3) lines /\
    (forall i line,
        lines !! i = Some line -> (S i < length lines)%nat ->
        Z.of_nat (length line) = 3) /\
    ("ACGTACGT"%string = EmptyString -> lines = []).
Proof.
  split; [lia |].
  exact (add_line_breaks_to_sequence_lines "ACGTACGT" 3 ltac:(lia)).
Defined.

(** X28. With a line length of zero or less and a sequence that is not
    empty, the loop of [add_line_breaks_to_sequence] does not end: what is
    left of the sequence never gets shorter than one base, so every bound
    on the number of lines is used up. *)
Theorem add_line_breaks_loop_no_end (sequence : list ascii) (length_ : Z)
    (fuel : nat) (seq_with_breaks : list ascii) :
  length_ <= 0 ->
  sequence <> [] ->
  add_line_breaks_loop fuel seq_with_breaks sequence length_
  = Raise OutOfFuel.
Proof.
  intros Hlen. revert seq_with_breaks sequence.
  induction fuel as [| fuel IH]; intros acc sequence Hne;
    cbn [add_line_breaks_loop];
    assert (Hlong : (length_ <? Z.of_nat (length sequence)) = true)
      by (apply Z.ltb_lt; destruct sequence; [congruence | simpl; lia]);
    rewrite Hlong; [reflexivity |].
  apply IH. unfold slice_from. intros Hnil.
  apply (f_equal length) in Hnil. simpl in Hnil.
  destruct sequence as [| c sequence]; [congruence |].
  destruct (length_ <? 0) eqn:Hneg; rewrite length_drop in Hnil;
    [apply Z.ltb_lt in Hneg |]; simpl length in Hnil; lia.
Qed.

Lemma add_line_breaks_loop_no_end_witness :
  0 <= 0 /\ chars "ACGT" <> [] /\
  add_line_breaks_loop 1000 [] (chars "ACGT") 0 = Raise OutOfFuel.
Proof.
  split; [lia |]. split; [discriminate |].
  exact (add_line_breaks_loop_no_end (chars "ACGT") 0 1000 []
           ltac:(lia) ltac:(discriminate)).
Defined.

(** ** The N50 and its kin *)

Lemma inject_Z_le (a b : Z) : a <= b -> (inject_Z a <= inject_Z b)%Q.
Proof. intros H. now rewrite <- Zle_Qle. Qed.

Lemma n_segment_scan_spec (overlap : Z) (target_length : Q)
    (l : list Segment) :
  forall length_so_far,
    l <> [] ->
    (target_length <= inject_Z (length_so_far + bases overlap l))%Q ->
    exists l1 x l2,
      l = l1 ++ x :: l2 /\
      n_segment_scan overlap target_length length_so_far l
      = get_length_no_overlap x overlap /\
      (l1 <> [] ->
       (inject_Z (length_so_far + bases overlap l1) < target_length)%Q) /\
      (target_length
       <= inject_Z (length_so_far + bases overlap l1
                    + get_length_no_overlap x overlap))%Q.
Proof.
  induction l as [| x l IH]; intros a Hne Hsum; [congruence |].
  simpl. rewrite bases_cons in Hsum.
  destruct (Qle_bool target_length
                     (inject_Z (a + get_length_no_overlap x overlap)))
    eqn:Hle.
  - exists [], x, l. apply Qle_bool_iff in Hle.
    split; [reflexivity |]. split; [reflexivity |].
    split; [congruence |]. unfold bases. simpl. now rewrite Z.add_0_r.
  - assert (Hlt : (inject_Z (a + get_length_no_overlap x overlap)
                   < target_length)%Q).
    { apply Qnot_le_lt. intros H. apply Qle_bool_iff in H. congruence. }
    destruct (IH (a + get_length_no_overlap x overlap))
      as (l1 & y & l2 & -> & Hscan & Hbefore & Hat).
    + intros ->. unfold bases in Hsum. simpl in Hsum.
      rewrite Z.add_0_r in Hsum.
      apply (Qlt_irrefl target_length). eapply Qle_lt_trans; eassumption.
    + now rewrite <- Z.add_assoc.
    + exists (x :: l1), y, l2. split; [reflexivity |].
      split; [exact Hscan |]. rewrite bases_cons. split.
      * intros _. destruct l1 as [| z l1].
        -- unfold bases. simpl. now rewrite Z.add_0_r.
        -- rewrite Z.add_assoc. apply Hbefore. congruence.
      * now rewrite (Z.add_assoc a).
Qed.

Lemma sorted_by_length_no_overlap_spec (overlap : Z) (l : list Segment) :
  let leb x y :=
    get_length_no_overlap y overlap <=? get_length_no_overlap x overlap in
  StronglySorted (fun x y => get_length_no_overlap y overlap
                             <= get_length_no_overlap x overlap)
                 (sorted leb l) /\
  sorted leb l ≡ₚ l.
Proof.
  intros leb. split; [| apply sorted_perm].
  apply Sorted_StronglySorted.
  - intros x y z Hxy Hyz. lia.
  - apply sorted_Sorted.
    + intros x y Hxy. now apply Z.leb_le.
    + intros x y Hxy. apply Z.leb_gt in Hxy. lia.
Qed.



(** ** Counting dead ends and bases *)

Lemma lists_nonempty_linked (links : gmap Z (list Z)) (u : Z) :
  lists_nonempty links ->
  is_Some (links !! u) <-> exists v, linked links u v.
Proof.
  intros Hne. split.
  - intros [l Hl]. pose proof (Hne u l Hl) as Hl'.
    destruct l as [| v l]; [congruence |]. exists v.
    apply linked_lookup. exists (v :: l). split; [exact Hl | left].
  - intros [v Hv]. exact (linked_is_Some _ _ _ Hv).
Qed.

Lemma fold_dead_end_count (g : AssemblyGraph) (l : list Segment) :
  forall a,
    a <= fold_left (fun dead_ends segment =>
                      dead_ends + dead_end_count g segment) l a
    <= a + 2 * Z.of_nat (length l) /\
    (fold_left (fun dead_ends segment =>
                  dead_ends + dead_end_count g segment) l a = a <->
     Forall (fun segment => dead_end_count g segment = 0) l).
Proof.
  induction l as [| x l IH]; intros a.
  - simpl. split; [lia |]. split; [constructor | reflexivity].
  - cbn [fold_left]. pose proof (dead_end_count_range g x) as Hx.
    destruct (IH (a + dead_end_count g x)) as [Hrange Hzero].
    split; [simpl length; lia |]. rewrite Forall_cons. split.
    + intros Heq. assert (dead_end_count g x = 0) by lia.
      split; [assumption |]. apply Hzero. lia.
    + intros [Hx0 Hall]. apply Hzero in Hall. lia.
Qed.

(** X30. A dead end is a strand with no link out. On a graph with link
    symmetry that keeps no empty list of links, [dead_end_count] of a
    segment counts those of its two strands that have no entry in the
    forward links; [total_dead_end_count] is at most twice the number of
    segments, and it is zero exactly when both strands of every segment
    have a link out. *)
Theorem total_dead_end_count_strands (g : AssemblyGraph) :
  link_symmetry g ->
  lists_nonempty (forward_links g) ->
  lists_nonempty (reverse_links g) ->
  (forall segment,
      dead_end_count g segment
      = (match forward_links g !! number segment with
         | Some _ => 0
         | None => 1
         end)
        + (match forward_links g !! (- number segment) with
           | Some _ => 0
           | None => 1
           end)) /\
  0 <= total_dead_end_count g <= 2 * Z.of_nat (length (segments g)) /\
  (total_dead_end_count g = 0 <->
   forall segment,
     segment ∈ dict_values (segments g) ->
     is_Some (forward_links g !! number segment) /\
     is_Some (forward_links g !! (- number segment))).
Proof.
  intros Hsym Hfwd Hrev.
  apply link_symmetry_spec in Hsym as [Htwin Htr].
  assert (Hstrand : forall n,
             is_Some (reverse_links g !! n)
             <-> is_Some (forward_links g !! (- n))).
  { intros n. rewrite (lists_nonempty_linked _ _ Hrev).
    rewrite (lists_nonempty_linked _ _ Hfwd). split.
    - intros [u Hu]. exists (- u). now apply Htwin, Htr.
    - intros [v Hv]. exists (- v). apply Htwin in Hv.
      rewrite Z.opp_involutive in Hv. now apply Htr. }
  assert (Hcount : forall segment,
             dead_end_count g segment
             = (match forward_links g !! number segment with
         | Some _ => 0
         | None => 1
         end)
               + (match forward_links g !! (- number segment) with
           | Some _ => 0
           | None => 1
           end)).
  { intros segment. unfold dead_end_count.
    pose proof (Hstrand (number segment)) as Hn.
    destruct (reverse_links g !! number segment) as [l |],
             (forward_links g !! (- number segment)) as [l' |];
      try reflexivity.
    - destruct (proj1 Hn ltac:(eauto)) as [? [=]].
    - destruct (proj2 Hn ltac:(eauto)) as [? [=]]. }
  split; [exact Hcount |].
  destruct (fold_dead_end_count g (dict_values (segments g)) 0)
    as [Hrange Hzero].
  unfold total_dead_end_count. split.
  - unfold dict_values in Hrange. rewrite length_map in Hrange. exact Hrange.
  - rewrite Hzero, Forall_forall. split; intros Hall segment Hin.
    + specialize (Hall segment Hin).
      apply dead_end_count_zero in Hall as [H1 H2].
      split; [exact H1 | now apply Hstrand].
    + apply dead_end_count_zero. destruct (Hall segment Hin) as [H1 H2].
      split; [exact H1 | now apply Hstrand].
Qed.

Lemma total_dead_end_count_strands_witness :
  link_symmetry linear_graph /\
  lists_nonempty (forward_links linear_graph) /\
  lists_nonempty (reverse_links linear_graph) /\
  (forall segment,
      dead_end_count linear_graph segment
      = (match forward_links linear_graph !! number segment with
         | Some _ => 0
         | None => 1
         end)
        + (match forward_links linear_graph !! (- number segment) with
           | Some _ => 0
           | None => 1
           end)) /\
  0 <= total_dead_end_count linear_graph
  <= 2 * Z.of_nat (length (segments linear_graph)) /\
  (total_dead_end_count linear_graph = 0 <->
   forall segment,
     segment ∈ dict_values (segments linear_graph) ->
     is_Some (forward_links linear_graph !! number segment) /\
     is_Some (forward_links linear_graph !! (- number segment))).
Proof.
  assert (Hfwd : lists_nonempty (forward_links linear_graph)).
  { unfold lists_nonempty. apply (bool_decide_unpack _). vm_compute.
    exact I. }
  assert (Hrev : lists_nonempty (reverse_links linear_graph)).
  { unfold lists_nonempty. apply (bool_decide_unpack _). vm_compute.
    exact I. }
  split; [exact link_symmetry_linear_graph |].
  split; [exact Hfwd |]. split; [exact Hrev |].
  exact (total_dead_end_count_strands linear_graph
           link_symmetry_linear_graph Hfwd Hrev).
Defined.

(** The two totals differ by the overlap of every segment. *)
Lemma get_total_length_no_overlaps_total (g : AssemblyGraph) :
  get_total_length_no_overlaps g
  = get_total_length g - overlap g * Z.of_nat (length (segments g)).
Proof.
  unfold get_total_length_no_overlaps, get_total_length, dict_values.
  rewrite <- (length_map snd (segments g)).
  generalize (map snd (segments g)). intros l.
  assert (H : forall a b,
             fold_left (fun t s => t + get_length_no_overlap s (overlap g))
                       l a
             = fold_left (fun t s => t + get_length s) l b
               - overlap g * Z.of_nat (length l) + (a - b)).
  { induction l as [| x l IH]; intros a b; simpl; [lia |].
    rewrite (IH _ (b + get_length x)).
    unfold get_length_no_overlap, get_length. lia. }
  rewrite (H 0 0). lia.
Qed.

(** ** Merging two segments, continued *)

Lemma get_seq_from_signed_seg_num_Ok (g : AssemblyGraph) (signed_num : Z) :
  is_Some (dict_get (segments g) (Z.abs signed_num)) ->
  exists seq, get_seq_from_signed_seg_num g signed_num = Ok seq.
Proof.
  intros [seg Hseg]. unfold get_seq_from_signed_seg_num, segment_at.
  destruct (0 <? signed_num) eqn:Hsign.
  - apply Z.ltb_lt in Hsign. rewrite Z.abs_eq in Hseg by lia.
    rewrite Hseg. simpl. eauto.
  - apply Z.ltb_ge in Hsign. rewrite Z.abs_neq in Hseg by lia.
    rewrite Hseg. simpl. eauto.
Qed.

Lemma merge_two_segments_returns (g : AssemblyGraph) (seg_num_1 seg_num_2 : Z) :
  is_Some (dict_get (segments g) (Z.abs seg_num_1)) ->
  is_Some (dict_get (segments g) (Z.abs seg_num_2)) ->
  exists g', merge_two_segments g seg_num_1 seg_num_2 = Ok g'.
Proof.
  intros H1 H2. unfold merge_two_segments.
  destruct (get_seq_from_signed_seg_num_Ok g seg_num_1 H1) as [seq_1 ->].
  destruct (get_seq_from_signed_seg_num_Ok g seg_num_2 H2) as [seq_2 ->].
  pose proof H1 as [seg_1 Hseg_1]. destruct H2 as [seg_2 Hseg_2].
  unfold segment_at. rewrite Hseg_1, Hseg_2. cbn [bind getitem].
  assert (Hfresh : exists fresh, get_next_available_seg_number g = Ok fresh).
  { unfold get_next_available_seg_number.
    apply dict_keys_get in H1. destruct (dict_keys (segments g));
      [inversion H1 | eauto]. }
  destruct Hfresh as [fresh ->]. cbn [bind].
  match goal with
  | |- context [mapM ?f (paths g)] =>
      destruct (mapM_Ok f (paths g)) as (paths_copy & -> & _)
  end.
  - intros np _.
    destruct (find_replace_loop_enough (length (snd np)) seg_num_1 seg_num_2
                (if get_length seg_1 - overlap g <? get_length seg_2 - overlap g
                 then Z.abs seg_num_2 else fresh) (snd np) (le_n _))
      as (p1 & Hp1 & _).
    unfold find_replace_in_list at 1. rewrite Hp1. cbn [bind].
    destruct (find_replace_loop_enough (length p1) (- seg_num_2) (- seg_num_1)
                (- (if get_length seg_1 - overlap g
                       <? get_length seg_2 - overlap g
                    then Z.abs seg_num_2 else fresh)) p1 (le_n _))
      as (p2 & Hp2 & _).
    unfold find_replace_in_list. rewrite Hp2. cbn [bind]. eauto.
  - cbn [bind]. eauto.
Qed.


